(** * go-html-transform: the transformation engine of [transform.go]

    A shallow embedding of package [transform] over an explicit store.
    Go's [*Node] values are addresses into a node store, and every slice
    ([[]*Node], [[]Attribute]) is a header (array, offset, len, cap) over
    a backing array held in the store, so that the sharing between
    [p.Child[:n]], [p.Child[i+1:]] and the result of [append] is the one
    the Go runtime produces. *)

From Stdlib Require Import ZArith String.
From stdpp Require Import base list.

(** ** Store *)

(** Addresses of node objects and of backing arrays. *)
Abbreviation addr := nat (only parsing).
Abbreviation loc := nat (only parsing).

(** A [*Node]: [None] is Go's [nil]. *)
Definition ref := option addr.

(** A slice header.  [s_arr], [s_off] locate the first element inside a
    backing array; [s_len] and [s_cap] are Go's [len] and [cap]. *)
Record Slice := mkSlice { s_arr : loc; s_off : nat; s_len : nat; s_cap : nat }.

(** The slice of [make([]T, 0)] (and the nil slice): no storage. *)
Definition emptySlice : Slice := mkSlice 0 0 0 0.

Record Attribute := mkAttr { Key : string; Val : string }.

Definition zeroAttr : Attribute := mkAttr EmptyString EmptyString.

Inductive NodeType := ErrorNode | TextNode | DocumentNode | ElementNode | CommentNode.

(** Modelled from the spec: the [Node] struct of the imported [html]
    package, whose declaration is not part of [transform.go]: an ordered
    child list, a parent back-reference, an attribute list, a kind and a
    tag or text payload.  The fields [transform.go] touches are [Parent],
    [Child] and [Attr]. *)
Record Node := mkNode {
  Parent : ref;
  Child : Slice;
  Type_ : NodeType;
  Data : string;
  Attr : Slice
}.

Record Heap := mkHeap {
  nodes : list Node;
  narr : list (list ref);
  aarr : list (list Attribute)
}.

Definition set_Child (s : Slice) (nd : Node) : Node :=
  mkNode (Parent nd) s (Type_ nd) (Data nd) (Attr nd).

Definition set_Attr (s : Slice) (nd : Node) : Node :=
  mkNode (Parent nd) (Child nd) (Type_ nd) (Data nd) s.

Definition with_nodes (ns : list Node) (h : Heap) : Heap := mkHeap ns (narr h) (aarr h).
Definition with_narr (st : list (list ref)) (h : Heap) : Heap := mkHeap (nodes h) st (aarr h).
Definition with_aarr (st : list (list Attribute)) (h : Heap) : Heap := mkHeap (nodes h) (narr h) st.

(** ** Backing arrays *)

Section Arrays.
Context {T : Type}.

Definition arr_get (st : list (list T)) (l : loc) : list T := default [] (st !! l).

(** The elements a slice header denotes. *)
Definition window (st : list (list T)) (s : Slice) : list T :=
  take (s_len s) (drop (s_off s) (arr_get st (s_arr s))).

(** Overwrite [length xs] cells of [A] starting at [pos]. *)
Definition write_at (A : list T) (pos : nat) (xs : list T) : list T :=
  take pos A ++ xs ++ drop (pos + length xs) A.

Definition arr_write (st : list (list T)) (l : loc) (pos : nat) (xs : list T) : list (list T) :=
  <[l := write_at (arr_get st l) pos xs]> st.

(** Overwrite the single cell [pos]. *)
Definition arr_set (st : list (list T)) (l : loc) (pos : nat) (x : T) : list (list T) :=
  <[l := <[pos := x]> (arr_get st l)]> st.

(** The header lies inside its backing array. *)
Definition wf_slice (st : list (list T)) (s : Slice) : Prop :=
  s_len s <= s_cap s /\ s_off s + s_cap s <= length (arr_get st (s_arr s)).
End Arrays.

Definition elems (h : Heap) (s : Slice) : list ref := window (narr h) s.
Definition attrs (h : Heap) (s : Slice) : list Attribute := window (aarr h) s.

(** ** Computations: state and panics *)

Inductive PanicKind :=
| NilDeref            (* invalid memory address or nil pointer dereference *)
| IndexOutOfRange
| SliceBounds
| WrongFuncType       (* log.Panicf in ForEach *)
| StackOverflow
| BadMemory.          (* an address or header that the runtime never produces *)

Inductive outcome (A : Type) :=
| Ret (a : A) (h : Heap)
| Panic (k : PanicKind) (h : Heap).
Arguments Ret {A} a h.
Arguments Panic {A} k h.

Definition M (A : Type) : Type := Heap -> outcome A.

Definition ret {A} (a : A) : M A := fun h => Ret a h.
Definition panic {A} (k : PanicKind) : M A := fun h => Panic k h.
Definition bind {A B} (m : M A) (f : A -> M B) : M B :=
  fun h => match m h with
           | Ret a h' => f a h'
           | Panic k h' => Panic k h'
           end.

Notation "x <- m ;; f" := (bind m (fun x => f))
  (at level 100, m at next level, right associativity).
Notation "m ;;; f" := (bind m (fun _ => f))
  (at level 100, right associativity).

Definition final_heap {A} (o : outcome A) : Heap :=
  match o with Ret _ h => h | Panic _ h => h end.

(** [for _, x := range xs { body x }] over an immutable sequence. *)
Fixpoint forM_ {A} (xs : list A) (body : A -> M unit) : M unit :=
  match xs with
  | [] => ret tt
  | x :: xs' => body x ;;; forM_ xs' body
  end.

(** A loop that carries a local variable. *)
Fixpoint foldM {A S} (xs : list A) (body : S -> A -> M S) (acc : S) : M S :=
  match xs with
  | [] => ret acc
  | x :: xs' => acc' <- body acc x ;; foldM xs' body acc'
  end.

Fixpoint mapM {A B} (f : A -> M B) (xs : list A) : M (list B) :=
  match xs with
  | [] => ret []
  | x :: xs' => y <- f x ;; ys <- mapM f xs' ;; ret (y :: ys)
  end.

(** *** Node objects *)

Definition load (r : ref) : M Node := fun h =>
  match r with
  | None => Panic NilDeref h
  | Some a => match nodes h !! a with
              | Some nd => Ret nd h
              | None => Panic BadMemory h
              end
  end.

Definition store (r : ref) (f : Node -> Node) : M unit := fun h =>
  match r with
  | None => Panic NilDeref h
  | Some a => match nodes h !! a with
              | Some nd => Ret tt (with_nodes (<[a := f nd]> (nodes h)) h)
              | None => Panic BadMemory h
              end
  end.

Definition new_node (nd : Node) : M ref := fun h =>
  Ret (Some (length (nodes h))) (with_nodes (nodes h ++ [nd]) h).

(** *** Slices of [*Node] *)

(** [s[i]] *)
Definition index (s : Slice) (i : nat) : M ref := fun h =>
  if decide (i < s_len s) then
    match arr_get (narr h) (s_arr s) !! (s_off s + i) with
    | Some x => Ret x h
    | None => Panic BadMemory h
    end
  else Panic IndexOutOfRange h.

(** [s[i] = x] *)
Definition set_index (s : Slice) (i : nat) (x : ref) : M unit := fun h =>
  if decide (i < s_len s) then
    Ret tt (with_narr (arr_set (narr h) (s_arr s) (s_off s + i) x) h)
  else Panic IndexOutOfRange h.

(** [s[lo:hi]]: the bounds must satisfy [lo <= hi <= cap(s)]. *)
Definition reslice (s : Slice) (lo hi : nat) : M Slice :=
  if decide (lo <= hi /\ hi <= s_cap s)
  then ret (mkSlice (s_arr s) (s_off s + lo) (hi - lo) (s_cap s - lo))
  else panic SliceBounds.

(** [s[:n]] *)
Definition slice_to (s : Slice) (n : nat) : M Slice := reslice s 0 n.

(** [s[i:]]: the omitted upper bound is [len(s)]. *)
Definition slice_from (s : Slice) (i : nat) : M Slice := reslice s i (s_len s).

(** [make([]*Node, n)]: a fresh array of [n] nil pointers; a request for
    no elements takes no storage. *)
Definition make (n : nat) : M Slice := fun h =>
  match n with
  | 0 => Ret emptySlice h
  | _ => Ret (mkSlice (length (narr h)) 0 n n)
             (with_narr (narr h ++ [replicate n None]) h)
  end.

(** [copy(dst, src)]: the source elements are read before any is
    written (memmove), and [min(len(dst), len(src))] of them move. *)
Definition copy (dst src : Slice) : M nat := fun h =>
  let xs := take (s_len dst) (elems h src) in
  Ret (length xs) (with_narr (arr_write (narr h) (s_arr dst) (s_off dst) xs) h).

(** The slice a call site builds for the variadic arguments [x1, .., xk]. *)
Definition variadic (xs : list ref) : M Slice := fun h =>
  match xs with
  | [] => Ret emptySlice h
  | _ => Ret (mkSlice (length (narr h)) 0 (length xs) (length xs))
             (with_narr (narr h ++ [xs]) h)
  end.

(** *** Slices of [Attribute] *)

Definition attr_index (s : Slice) (i : nat) : M Attribute := fun h =>
  if decide (i < s_len s) then
    match arr_get (aarr h) (s_arr s) !! (s_off s + i) with
    | Some x => Ret x h
    | None => Panic BadMemory h
    end
  else Panic IndexOutOfRange h.

Definition attr_set_index (s : Slice) (i : nat) (x : Attribute) : M unit := fun h =>
  if decide (i < s_len s) then
    Ret tt (with_aarr (arr_set (aarr h) (s_arr s) (s_off s + i) x) h)
  else Panic IndexOutOfRange h.

(** [s[i].Val = v] *)
Definition attr_set_val (s : Slice) (i : nat) (v : string) : M unit :=
  a <- attr_index s i ;;
  attr_set_index s i (mkAttr (Key a) v).

(** A fresh attribute array holding [xs]. *)
Definition attr_literal (xs : list Attribute) : M Slice := fun h =>
  match xs with
  | [] => Ret emptySlice h
  | _ => Ret (mkSlice (length (aarr h)) 0 (length xs) (length xs))
             (with_aarr (aarr h ++ [xs]) h)
  end.

Definition attr_make (n : nat) : M Slice := fun h =>
  match n with
  | 0 => Ret emptySlice h
  | _ => Ret (mkSlice (length (aarr h)) 0 n n)
             (with_aarr (aarr h ++ [replicate n zeroAttr]) h)
  end.

(** [for i, c := range s { body i c }]: the header [s] is evaluated once,
    each element is read from the backing array when its turn comes. *)
Definition range (s : Slice) (body : nat -> ref -> M unit) : M unit :=
  forM_ (seq 0 (s_len s)) (fun i => c <- index s i ;; body i c).

(** ** The package *)

(** [TransformFunc]: the type of a node transformation function,
    a Go function of one [*Node] argument and no result. *)
Definition TransformFunc : Type := ref -> M unit.

Definition ref_eqb (x y : ref) : bool := bool_decide (x = y).

(** The dynamic type of the [interface{}] argument of [ForEach], as its
    type switch sees it. *)
Inductive FuncValue :=
| VariadicFunc (f : Slice -> M TransformFunc)
| UnaryFunc (f : ref -> M TransformFunc)
| OtherValue (dyntype : string).

(** Modelled from the spec: [Document] of the [html] package, the root
    container owning the tree, with its deep-clone operation ([Clone]
    below). *)
Record Document := mkDocument { Top : ref }.

(** [Transformer] encapsulates a document under transformation. *)
Record Transformer := mkTransformer { doc : Document }.

Section Transform.

(** The capacity the runtime chooses when [append] must reallocate is
    not fixed by the language: [growcap old needed] is the runtime's
    choice, and never less than what is needed is used. *)
Variable growcap : nat -> nat -> nat.

(** [append(s, src...)] *)
Definition append (s src : Slice) : M Slice := fun h =>
  let xs := elems h src in
  let n := s_len s + length xs in
  if decide (n <= s_cap s) then
    Ret (mkSlice (s_arr s) (s_off s) n (s_cap s))
        (with_narr (arr_write (narr h) (s_arr s) (s_off s + s_len s) xs) h)
  else
    let c := Nat.max n (growcap (s_cap s) n) in
    Ret (mkSlice (length (narr h)) 0 n c)
        (with_narr (narr h ++ [elems h s ++ xs ++ replicate (c - n) None]) h).

(** [AppendChildren] creates a [TransformFunc] that appends the
    children passed in. *)
Definition AppendChildren (cs : Slice) : TransformFunc := fun n =>
  nd <- load n ;;
  let sz := s_len (Child nd) in
  newChild <- make (sz + s_len cs) ;;
  copy newChild (Child nd) ;;;
  tl <- slice_from newChild sz ;;
  copy tl cs ;;;
  store n (set_Child newChild).

(** [PrependChildren] creates a [TransformFunc] that prepends the
    children passed in. *)
Definition PrependChildren (cs : Slice) : TransformFunc := fun n =>
  nd <- load n ;;
  let sz := s_len (Child nd) in
  let sz2 := s_len cs in
  newChild <- make (sz + s_len cs) ;;
  tl <- slice_from newChild sz2 ;;
  copy tl (Child nd) ;;;
  hd <- reslice newChild 0 sz2 ;;
  copy hd cs ;;;
  store n (set_Child newChild).

(** [RemoveChildren] creates a [TransformFunc] that removes the
    children of the node it operates on. *)
Definition RemoveChildren : TransformFunc := fun n =>
  load n ;;;
  s <- make 0 ;;
  store n (set_Child s).

(** [ReplaceChildren] creates a [TransformFunc] that replaces the
    children of the node it operates on with the children passed in:
    the node's child list becomes the argument slice itself. *)
Definition ReplaceChildren (ns : Slice) : TransformFunc := fun n =>
  store n (set_Child ns).

(** The body of the [if c == n] branch of [Replace], for the parent [p]
    and the index [i] at which the loop found the node. *)
Definition splice (ns : Slice) (p : ref) (i : nat) : M unit :=
  let n := (Z.of_nat i - 1)%Z in
  let n := if (n <? 0)%Z then 0%Z else n in
  pn1 <- load p ;;
  pre <- slice_to (Child pn1) (Z.to_nat n) ;;
  pn2 <- load p ;;
  post <- slice_from (Child pn2) (i + 1) ;;
  newChild <- append pre ns ;;
  r <- append newChild post ;;
  store p (set_Child r).

(** [Replace]: the loop keeps running over the header of [p.Child] it
    started with after a match has rebuilt [p.Child]. *)
Definition Replace (ns : Slice) : TransformFunc := fun n =>
  nd <- load n ;;
  let p := Parent nd in
  pn <- load p ;;
  range (Child pn) (fun i c =>
    if ref_eqb c n then splice ns p i else ret tt).

(** [ModifyAttrib] creates a [TransformFunc] that modifies the
    attributes of the node it operates on. *)
Definition ModifyAttrib (key val : string) : TransformFunc := fun n =>
  nd <- load n ;;
  found <- foldM (seq 0 (s_len (Attr nd))) (fun found i =>
             attr <- attr_index (Attr nd) i ;;
             if String.eqb (Key attr) key then
               nd1 <- load n ;;
               attr_set_val (Attr nd1) i val ;;;
               ret true
             else ret found) false ;;
  if negb found then
    nd2 <- load n ;;
    newAttr <- attr_make (s_len (Attr nd2) + 1) ;;
    nd3 <- load n ;;
    attr_set_index newAttr (s_len (Attr nd3)) (mkAttr key val) ;;;
    store n (set_Attr newAttr)
  else ret tt.

(** [DoAll]: the functions are only called, never stored to, so the
    argument slice is the sequence of its elements. *)
Definition DoAll (fs : list TransformFunc) : TransformFunc := fun n =>
  forM_ fs (fun f => f n).

(** [ForEach] takes a function and a list of nodes and performs that
    function for each node in the list; any other type panics. *)
Definition ForEach (f : FuncValue) (ns : Slice) : M TransformFunc :=
  match f with
  | VariadicFunc f1 =>
      ret (fun n => range ns (fun _ n2 =>
             args <- variadic [n2] ;;
             f2 <- f1 args ;;
             f2 n))
  | UnaryFunc f1 =>
      ret (fun n => range ns (fun _ n2 =>
             f2 <- f1 n2 ;;
             f2 n))
  | OtherValue _ => panic WrongFuncType
  end.

(** Modelled from the spec: [cloneNode(n, parent)] of the [html]
    package, which [transform.go] calls but does not define.  It
    produces an entirely independent deep copy of [n]: a new node with
    its own attribute array and its own child array, holding clones of
    the children whose parent is the new node, and with the parent
    reference of the copy set to [parent].  The recursion follows child
    pointers; a chain of children longer than the number of nodes in
    the store is a cycle, on which the recursion exhausts the stack. *)
Fixpoint cloneNode_rec (depth : nat) (n parent : ref) : M ref :=
  match depth with
  | 0 => panic StackOverflow
  | S d =>
      nd <- load n ;;
      at_ <- (fun h => Ret (attrs h (Attr nd)) h) ;;
      newAttr <- attr_literal at_ ;;
      c <- new_node (mkNode parent emptySlice (Type_ nd) (Data nd) newAttr) ;;
      cs <- (fun h => Ret (elems h (Child nd)) h) ;;
      kids <- mapM (fun k => cloneNode_rec d k c) cs ;;
      s <- variadic kids ;;
      store c (set_Child s) ;;;
      ret c
  end.

Definition cloneNode (n parent : ref) : M ref := fun h =>
  cloneNode_rec (S (length (nodes h))) n parent h.

(** [CopyAnd] makes a copy of the node for each passed in
    [TransformFunc] and replaces the passed in node with the resulting
    transformed nodes. *)
Definition CopyAnd (fns : list TransformFunc) : TransformFunc := fun n =>
  newNodes <- make (length fns) ;;
  forM_ (imap pair fns) (fun '(i, fn) =>
    nd <- load n ;;
    node <- cloneNode n (Parent nd) ;;
    fn node ;;;
    set_index newNodes i node) ;;;
  let replaceFn := Replace newNodes in
  replaceFn n.

(** Modelled from the spec: [Document.Clone], a deep copy sharing
    nothing with its source. *)
Definition Clone (d : Document) : M Document :=
  t <- cloneNode (Top d) None ;;
  ret (mkDocument t).

(** Constructor for a [Transformer]: it makes a copy of the document
    and transforms that instead of the original. *)
Definition NewTransform (d : Document) : M Transformer :=
  d' <- Clone d ;;
  ret (mkTransformer d').

(** [Doc] returns the document under transformation. *)
Definition Doc (t : Transformer) : Document := doc t.

(** Modelled from the spec: the selector query of the [html] package
    ([NewSelectorQuery(sel...).Apply(doc)]), a pure function from the
    current tree and the selector strings to the ordered sequence of
    matching nodes. *)
Variable Query : Heap -> Document -> list string -> list ref.

(** [Apply] applies a [TransformFunc] to the nodes returned from the
    selector query. *)
Definition Apply (t : Transformer) (f : TransformFunc) (sel : list string) : M Transformer :=
  nodes <- (fun h => Ret (Query h (doc t) sel) h) ;;
  forM_ nodes (fun n => f n) ;;;
  ret t.

End Transform.

(** ** Observations used in the statements *)

(** The child sequence and the attribute list of the node at [a]. *)
Definition children (h : Heap) (a : addr) : list ref :=
  match nodes h !! a with
  | Some nd => elems h (Child nd)
  | None => []
  end.

Definition attributes (h : Heap) (a : addr) : list Attribute :=
  match nodes h !! a with
  | Some nd => attrs h (Attr nd)
  | None => []
  end.

(** Running one more step after an outcome: a panic stops the run. *)
Definition and_then (o : outcome unit) (m : M unit) : outcome unit :=
  match o with
  | Ret _ h => m h
  | Panic k h => Panic k h
  end.

(** What [ModifyAttrib key val] does to one attribute entry on the path
    that finds the key. *)
Definition key_matches (key : string) (x : Attribute) : bool := String.eqb (Key x) key.

Definition set_val (key val : string) (x : Attribute) : Attribute :=
  if key_matches key x then mkAttr (Key x) val else x.

(** Applying operations one after the other to the same node: the
    outcome of a sequence of steps started in [h]. *)
Definition in_order {A} (step : A -> M unit) (xs : list A) (h : Heap) : outcome unit :=
  fold_left (fun o x => and_then o (step x)) xs (Ret tt h).

(** The operation [ForEach] builds for an auxiliary node [n2] and
    applies to the target [n], for each of the two supported shapes. *)
Definition bound_unary (f1 : ref -> M TransformFunc) (n n2 : ref) : M unit :=
  f2 <- f1 n2 ;; f2 n.

Definition bound_variadic (f1 : Slice -> M TransformFunc) (n n2 : ref) : M unit :=
  args <- variadic [n2] ;; f2 <- f1 args ;; f2 n.

(** [h'] holds everything [h] holds, unchanged: the node objects and
    the backing arrays of [h] are those of [h'] at the same addresses. *)
Definition extends (h h' : Heap) : Prop :=
  nodes h `prefix_of` nodes h'
  /\ narr h `prefix_of` narr h'
  /\ aarr h `prefix_of` aarr h'.

(** Modelled from the spec: an instance of the external selector query,
    used to run [Apply] on concrete documents: the selectors are element
    names, and the matches are the nodes of the tree under [Top d] whose
    [Data] is one of them, in document order. *)
Fixpoint walk (depth : nat) (h : Heap) (sel : list string) (n : ref) : list ref :=
  match depth with
  | 0 => []
  | S d =>
      match n with
      | None => []
      | Some a =>
          match nodes h !! a with
          | None => []
          | Some nd =>
              (if existsb (String.eqb (Data nd)) sel then [n] else [])
              ++ flat_map (walk d h sel) (elems h (Child nd))
          end
      end
  end.

Definition tagQuery (h : Heap) (d : Document) (sel : list string) : list ref :=
  walk (S (length (nodes h))) h sel (Top d).

(** [append(pre, ns...)] in [Replace] does not run over the retained
    tail [p.Child[i+1:]]: the capacity forces a fresh array, or the
    replacements end before the tail starts, or there is no tail. *)
Definition no_overrun (cap len i k : nat) : Prop :=
  cap < (i - 1) + k \/ (i - 1) + k <= i + 1 \/ i + 1 = len.

(** A body whose runs leave the elements of [s] what they are, [X]. *)
Definition leaves_elems (s : Slice) (X : list ref) (step : ref -> M unit) : Prop :=
  forall c hx, elems hx s = X -> elems (final_heap (step c hx)) s = X.

(** ** The storage of a source document *)

(** The node objects, the arrays of child references and the attribute
    arrays that make up a source document, given as three sets of
    addresses. *)
Record Region := mkRegion {
  rn : addr -> bool;
  ra : loc -> bool;
  rb : loc -> bool
}.

(** A reference that is nil or points to a node outside the region. *)
Definition outside_ref (R : Region) (r : ref) : Prop :=
  match r with
  | None => True
  | Some a => rn R a = false
  end.

(** A header that reaches no cell of an array of the set [P]: it has no
    storage, or its array is not in [P]. *)
Definition outside_slice (P : loc -> bool) (s : Slice) : Prop :=
  s_len s <= s_cap s /\ (s_cap s = 0 \/ P (s_arr s) = false).

Definition fields_outside (R : Region) (nd : Node) : Prop :=
  outside_ref R (Parent nd)
  /\ outside_slice (ra R) (Child nd)
  /\ outside_slice (rb R) (Attr nd).

(** The region lies inside the store. *)
Definition allocated (R : Region) (h : Heap) : Prop :=
  (forall a, rn R a = true -> a < length (nodes h))
  /\ (forall l, ra R l = true -> l < length (narr h))
  /\ (forall l, rb R l = true -> l < length (aarr h)).

(** The store [h] holds in the region exactly what [h0] holds there. *)
Definition kept (R : Region) (h0 h : Heap) : Prop :=
  (forall a, rn R a = true -> nodes h !! a = nodes h0 !! a)
  /\ (forall l, ra R l = true -> narr h !! l = narr h0 !! l)
  /\ (forall l, rb R l = true -> aarr h !! l = aarr h0 !! l).

(** Nothing outside the region refers into it: a node outside has its
    parent, its child slice and its attribute slice outside, and an
    array of child references outside holds only references to nodes
    outside. *)
Definition apart (R : Region) (h : Heap) : Prop :=
  (forall a nd, nodes h !! a = Some nd -> rn R a = false -> fields_outside R nd)
  /\ (forall l A c, narr h !! l = Some A -> ra R l = false -> c ∈ A -> outside_ref R c).

Definition isolated (R : Region) (h0 h : Heap) : Prop :=
  allocated R h0 /\ kept R h0 h /\ apart R h.

(** A computation that keeps an invariant of the store whether it
    returns or panics, and whose results satisfy [Q]. *)
Definition inv_post {A} (Inv : Heap -> Prop) (Q : A -> Prop) (m : M A) : Prop :=
  forall h, Inv h ->
    match m h with
    | Ret a h' => Inv h' /\ Q a
    | Panic _ h' => Inv h'
    end.

(** An operation that, applied to a node outside the region, leaves the
    region as it is and nothing outside referring into it. *)
Definition clean (R : Region) (h0 : Heap) (f : TransformFunc) : Prop :=
  forall n, outside_ref R n -> inv_post (isolated R h0) (fun _ => True) (f n).

(** The nodes of the tree under [r]: [r] itself and the elements of the
    child lists below it. *)
Inductive reachable (h : Heap) (r : ref) : ref -> Prop :=
| reach_root : reachable h r r
| reach_child a nd c :
    reachable h r (Some a) -> nodes h !! a = Some nd -> c ∈ elems h (Child nd) ->
    reachable h r c.

(** What the specification says of the selector query: the matches are
    nodes of the tree it is given. *)
Definition query_in_tree (Query : Heap -> Document -> list string -> list ref) : Prop :=
  forall h d sel n, n ∈ Query h d sel -> reachable h (Top d) n.

(** A header that lies inside its backing array and reaches cells of
    arrays of the set [P] only. *)
Definition slice_inside {T} (P : loc -> bool) (st : list (list T)) (s : Slice) : Prop :=
  wf_slice st s /\ (s_len s = 0 \/ P (s_arr s) = true).

(** The region [R] of the store [h0] is the storage of the document
    [d], and [d] is a tree: its root is a node of the region, every node
    of the region exists, has its child list and its attribute list in
    arrays of the region, and has as children nodes of the region (none
    is nil) of a smaller rank, so that no node is its own descendant. *)
Definition source_tree (R : Region) (rk : addr -> nat) (h0 : Heap) (d : Document) : Prop :=
  allocated R h0
  /\ (exists r, Top d = Some r /\ rn R r = true)
  /\ (forall a, rn R a = true -> exists nd,
        nodes h0 !! a = Some nd
        /\ slice_inside (ra R) (narr h0) (Child nd)
        /\ slice_inside (rb R) (aarr h0) (Attr nd)
        /\ forall c, c ∈ elems h0 (Child nd) ->
             exists b, c = Some b /\ rn R b = true /\ rk b < rk a).

(** The tree under [c] in [h] is a copy of the tree under [a] in [h0],
    down to [depth] levels: the same kind, tag or text and attributes,
    the parent reference [parent], and as children, in the same order,
    copies of the children whose parent reference is [c]. *)
Fixpoint is_copy (depth : nat) (h0 h : Heap) (parent a c : ref) : Prop :=
  match depth with
  | 0 => True
  | S k =>
      match a, c with
      | Some a', Some c' =>
          exists nd nd',
            nodes h0 !! a' = Some nd /\ nodes h !! c' = Some nd'
            /\ Parent nd' = parent /\ Type_ nd' = Type_ nd /\ Data nd' = Data nd
            /\ wf_slice (aarr h) (Attr nd')
            /\ attrs h (Attr nd') = attrs h0 (Attr nd)
            /\ wf_slice (narr h) (Child nd')
            /\ Forall2 (is_copy k h0 h c) (elems h0 (Child nd)) (elems h (Child nd'))
      | _, _ => False
      end
  end.

(** [h'] holds the node objects of [h] from address [m] on, and all the
    arrays of [h]. *)
Definition agrees_from (m : nat) (h h' : Heap) : Prop :=
  (forall b nd, m <= b -> nodes h !! b = Some nd -> nodes h' !! b = Some nd)
  /\ narr h `prefix_of` narr h'
  /\ aarr h `prefix_of` aarr h'.

(** The constructors of the package that take nodes. *)
Inductive node_constructor (g : nat -> nat -> nat) : (Slice -> TransformFunc) -> Prop :=
| nc_append : node_constructor g AppendChildren
| nc_prepend : node_constructor g PrependChildren
| nc_replace_children : node_constructor g ReplaceChildren
| nc_replace : node_constructor g (Replace g).

(** The expressions that build an operation from the constructors and
    combinators of the package without handing them a node of the
    region: [ModifyAttrib(k, v)], [RemoveChildren()], a node constructor
    called on a slice outside the region ([c(s...)]) or on nodes outside
    the region ([c(x1, .., xk)], which builds the argument slice),
    [DoAll] and [CopyAnd] of such expressions, evaluated from left to
    right, and [ForEach] of a node constructor over nodes outside the
    region. *)
#[warnings="-register-all"] Inductive library_call (g : nat -> nat -> nat) (R : Region) : M TransformFunc -> Prop :=
| lc_modify key val : library_call g R (ret (ModifyAttrib key val))
| lc_remove : library_call g R (ret RemoveChildren)
| lc_slice prim s :
    node_constructor g prim -> outside_slice (ra R) s ->
    library_call g R (ret (prim s))
| lc_nodes prim xs :
    node_constructor g prim -> Forall (outside_ref R) xs ->
    library_call g R (s <- variadic xs ;; ret (prim s))
| lc_doall calls :
    Forall (library_call g R) calls ->
    library_call g R (fs <- mapM (fun c => c) calls ;; ret (DoAll fs))
| lc_copyand calls :
    Forall (library_call g R) calls ->
    library_call g R (fs <- mapM (fun c => c) calls ;; ret (CopyAnd g fs))
| lc_foreach prim xs :
    node_constructor g prim -> Forall (outside_ref R) xs ->
    library_call g R (ns <- variadic xs ;; ForEach (VariadicFunc (fun s => ret (prim s))) ns).

(** A chain [t.Apply(op1, sel1...).Apply(op2, sel2...)...]: each
    operation is built when its call is reached, and each call is made
    on the [Transformer] the previous one returned. *)
Fixpoint apply_calls (Query : Heap -> Document -> list string -> list ref)
    (t : Transformer) (calls : list (M TransformFunc * list string)) : M Transformer :=
  match calls with
  | [] => ret t
  | (mk, sel) :: rest =>
      f <- mk ;;
      t1 <- Apply Query t f sel ;;
      apply_calls Query t1 rest
  end.

(** ** Sample stores *)

(** A runtime whose [append] grows an array to exactly what is needed. *)
Definition exact_fit (old needed : nat) : nat := needed.

Definition element (tag : string) (parent : ref) (kids at_ : Slice) : Node :=
  mkNode parent kids ElementNode tag at_.

(** A list [ul] (node 0) with the items 1, 2, 3 as children, item 2
    carrying [class="x"]; three detached paragraphs 4, 5, 6; and an item
    7 that names the list as its parent without being one of its
    children.  The arrays 1, 2, 3 hold the argument lists [4], [4, 5]
    and [4, 5, 6]. *)
Definition list_heap : Heap :=
  mkHeap
    [ element "ul" None (mkSlice 0 0 3 3) emptySlice;
      element "li" (Some 0) emptySlice emptySlice;
      element "li" (Some 0) emptySlice (mkSlice 0 0 1 1);
      element "li" (Some 0) emptySlice emptySlice;
      element "p" None emptySlice emptySlice;
      element "p" None emptySlice emptySlice;
      element "p" None emptySlice emptySlice;
      element "li" (Some 0) emptySlice emptySlice ]
    [ [Some 1; Some 2; Some 3]; [Some 4]; [Some 4; Some 5]; [Some 4; Some 5; Some 6] ]
    [ [mkAttr "class" "x"] ].

Definition args1 : Slice := mkSlice 1 0 1 1.
Definition args2 : Slice := mkSlice 2 0 2 2.
Definition args3 : Slice := mkSlice 3 0 3 3.

(** A document: [div] (node 0) holding [p] (node 1) holding [b] (node 2). *)
Definition page_heap : Heap :=
  mkHeap
    [ element "div" None (mkSlice 0 0 1 1) emptySlice;
      element "p" (Some 0) (mkSlice 1 0 1 1) emptySlice;
      element "b" (Some 1) emptySlice emptySlice ]
    [ [Some 1]; [Some 2] ]
    [].

Definition page : Document := mkDocument (Some 0).

(** The cells of the parent's old child list as the retained tail
    [p.Child[i+1:]] sees them once [append(pre, ns...)] has run in
    [Replace]: when the capacity lets [append] write in place, the
    replacements [xs] lie over the cells from [i-1] on. *)
Definition overwritten (cap i : nat) (xs old : list ref) : list ref :=
  if decide ((i - 1) + length xs <= cap)
  then take (length old) (take (i - 1) old ++ xs ++ drop ((i - 1) + length xs) old)
  else old.

(** The sample list with the detached paragraph 4 in the place of item
    2: the children of the list are 1, 4, 3, and node 4 has no parent. *)
Definition mixed_heap : Heap :=
  mkHeap (nodes list_heap)
    [ [Some 1; Some 4; Some 3]; [Some 4]; [Some 4; Some 5]; [Some 4; Some 5; Some 6] ]
    (aarr list_heap).

(** The items of the list as an argument slice: the child slice of node
    0 itself, as a call [ForEach(f, ul.Child...)] passes it. *)
Definition list_items : Slice := mkSlice 0 0 3 3.

(** A unary node function: the operation it builds for an auxiliary
    node [c] puts the paragraphs 4 and 5 in the place of [c], whatever
    the target is. *)
Definition put_pair_for (c : ref) : M TransformFunc :=
  ret (fun _ : ref => Replace exact_fit args2 c).

(** The list as a source document: its storage is the nodes 0 to 3 and
    7, the array 0 of child references and the attribute array 0; the
    paragraphs and the argument arrays are not part of it. *)
Definition list_doc : Document := mkDocument (Some 0).

Definition list_region : Region :=
  mkRegion (fun a => (a <? 4) || (a =? 7)) (fun l => l =? 0) (fun l => l =? 0).

Definition list_rank (a : addr) : nat :=
  match a with 0 => 1 | _ => 0 end.

(** A chain of four [Apply] calls: set [class] on every item, append
    the paragraphs 4 and 5 to the list, clear the children of every
    paragraph, and replace every item by two copies with their own
    [id]. *)
Definition list_calls : list (M TransformFunc * list string) :=
  [ (ret (ModifyAttrib "class" "y"), ["li"%string]);
    (s <- variadic [Some 4; Some 5] ;; ret (AppendChildren s), ["ul"%string]);
    (ret RemoveChildren, ["p"%string]);
    (fs <- mapM (fun c => c) [ret (ModifyAttrib "id" "a"); ret (ModifyAttrib "id" "b")] ;;
     ret (CopyAnd exact_fit fs), ["li"%string]) ].

(** * Proofs *)

(** ** Backing arrays *)

Section ArrayFacts.
Context {T : Type}.
Implicit Types (st : list (list T)) (A xs : list T) (s : Slice).

Lemma arr_get_Some st l A : st !! l = Some A -> arr_get st l = A.
Proof. unfold arr_get. by intros ->. Qed.

Lemma arr_get_None st l : length st <= l -> arr_get st l = [].
Proof. intros H. unfold arr_get. by rewrite (lookup_ge_None_2 st l). Qed.

Lemma arr_get_lt st l : arr_get st l <> [] -> l < length st.
Proof.
  intros H. destruct (decide (l < length st)) as [|Hn]; [done|].
  exfalso. apply H, arr_get_None. lia.
Qed.

Lemma arr_get_app_old st A l : l < length st -> arr_get (st ++ [A]) l = arr_get st l.
Proof. intros H. unfold arr_get. by rewrite lookup_app_l. Qed.

Lemma arr_get_app_new st A : arr_get (st ++ [A]) (length st) = A.
Proof.
  unfold arr_get. rewrite lookup_app_r by lia.
  by rewrite Nat.sub_diag.
Qed.

Lemma arr_get_insert_eq st l A : l < length st -> arr_get (<[l := A]> st) l = A.
Proof. intros H. unfold arr_get. by rewrite list_lookup_insert_eq. Qed.

Lemma arr_get_insert_ne st l l' A : l <> l' -> arr_get (<[l := A]> st) l' = arr_get st l'.
Proof. intros H. unfold arr_get. by rewrite list_lookup_insert_ne. Qed.

Lemma write_at_nil A pos : write_at A pos [] = A.
Proof. unfold write_at. simpl. rewrite Nat.add_0_r. apply take_drop. Qed.

Lemma write_at_length A pos xs :
  pos + length xs <= length A -> length (write_at A pos xs) = length A.
Proof.
  intros H. unfold write_at.
  rewrite !length_app, length_take, length_drop. lia.
Qed.

Lemma write_at_lookup_lt A pos xs q :
  pos <= length A -> q < pos -> write_at A pos xs !! q = A !! q.
Proof.
  intros HA Hq. unfold write_at.
  rewrite lookup_app_l by (rewrite length_take; lia).
  by rewrite lookup_take_lt.
Qed.

Lemma write_at_lookup_mid A pos xs q :
  pos <= length A -> pos <= q < pos + length xs ->
  write_at A pos xs !! q = xs !! (q - pos).
Proof.
  intros HA Hq. unfold write_at.
  rewrite lookup_app_r by (rewrite length_take; lia).
  rewrite length_take, Nat.min_l by lia.
  by rewrite lookup_app_l by lia.
Qed.

Lemma write_at_lookup_ge A pos xs q :
  pos <= length A -> pos + length xs <= q -> write_at A pos xs !! q = A !! q.
Proof.
  intros HA Hq. unfold write_at.
  rewrite lookup_app_r by (rewrite length_take; lia).
  rewrite length_take, Nat.min_l by lia.
  rewrite lookup_app_r by lia.
  rewrite lookup_drop. f_equal. lia.
Qed.

Lemma arr_write_nil st l pos : arr_write st l pos [] = st.
Proof.
  unfold arr_write. rewrite write_at_nil.
  apply list_insert_id'. intros H. unfold arr_get.
  destruct (st !! l) as [A|] eqn:E; [done|].
  apply lookup_ge_None in E. lia.
Qed.

Lemma arr_write_length st l pos xs : length (arr_write st l pos xs) = length st.
Proof. unfold arr_write. apply length_insert. Qed.

Lemma arr_set_length st l pos x : length (arr_set st l pos x) = length st.
Proof. unfold arr_set. apply length_insert. Qed.

Lemma window_length st s : wf_slice st s -> length (window st s) = s_len s.
Proof.
  intros [H1 H2]. unfold window.
  rewrite length_take, length_drop. lia.
Qed.

Lemma window_lookup st s i :
  i < s_len s -> window st s !! i = arr_get st (s_arr s) !! (s_off s + i).
Proof.
  intros H. unfold window. rewrite lookup_take_lt by done. apply lookup_drop.
Qed.

Lemma window_lookup_ge st s i : s_len s <= i -> window st s !! i = None.
Proof. intros H. unfold window. by rewrite lookup_take_ge. Qed.

(** Two headers over arrays that agree on the cells of the window. *)
Lemma window_ext st st' s s' :
  s_len s = s_len s' ->
  (forall i, i < s_len s ->
     arr_get st (s_arr s) !! (s_off s + i) = arr_get st' (s_arr s') !! (s_off s' + i)) ->
  window st s = window st' s'.
Proof.
  intros Hl H. apply list_eq. intros i.
  destruct (decide (i < s_len s)) as [Hi|Hi].
  - rewrite !window_lookup by lia. by apply H.
  - rewrite !window_lookup_ge by lia. done.
Qed.

Lemma wf_slice_in_store st s : wf_slice st s -> 0 < s_cap s -> s_arr s < length st.
Proof.
  intros [H1 H2] Hc. apply arr_get_lt. intros E. rewrite E in H2. simpl in H2. lia.
Qed.

Lemma wf_slice_app st A s : wf_slice st s -> wf_slice (st ++ [A]) s.
Proof.
  intros [H1 H2]. split; [done|].
  destruct (decide (s_arr s < length st)) as [Hl|Hl].
  - by rewrite arr_get_app_old.
  - rewrite (arr_get_None st) in H2 by lia. simpl in H2. lia.
Qed.

Lemma window_app st A s : wf_slice st s -> window (st ++ [A]) s = window st s.
Proof.
  intros Hwf. destruct (decide (s_arr s < length st)) as [Hl|Hl].
  - unfold window. by rewrite arr_get_app_old.
  - destruct Hwf as [H1 H2]. rewrite (arr_get_None st) in H2 by lia. simpl in H2.
    unfold window. replace (s_len s) with 0 by lia. done.
Qed.

Lemma wf_emptySlice st : wf_slice st emptySlice.
Proof. split; simpl; lia. Qed.

Lemma window_emptySlice st : window st emptySlice = [].
Proof. done. Qed.

Lemma arr_get_write_eq st l pos xs :
  l < length st -> arr_get (arr_write st l pos xs) l = write_at (arr_get st l) pos xs.
Proof. intros H. unfold arr_write. by rewrite arr_get_insert_eq. Qed.

Lemma arr_get_write_ne st l l' pos xs :
  l <> l' -> arr_get (arr_write st l pos xs) l' = arr_get st l'.
Proof. intros H. unfold arr_write. by rewrite arr_get_insert_ne. Qed.

Lemma arr_get_set_eq st l pos x :
  l < length st -> arr_get (arr_set st l pos x) l = <[pos := x]> (arr_get st l).
Proof. intros H. unfold arr_set. by rewrite arr_get_insert_eq. Qed.

Lemma arr_get_set_ne st l l' pos x :
  l <> l' -> arr_get (arr_set st l pos x) l' = arr_get st l'.
Proof. intros H. unfold arr_set. by rewrite arr_get_insert_ne. Qed.

(** Writing into one array leaves the windows over the others alone. *)
Lemma window_write_other st l pos xs s :
  s_arr s <> l \/ s_len s = 0 -> window (arr_write st l pos xs) s = window st s.
Proof.
  intros [H|H]; unfold window.
  - by rewrite arr_get_write_ne.
  - by rewrite H.
Qed.

(** A slice of the old store is not touched by writes into a new array. *)
Lemma wf_slice_old st s l : wf_slice st s -> length st <= l -> s_arr s <> l \/ s_len s = 0.
Proof.
  intros [H1 H2] Hl. destruct (decide (s_arr s = l)) as [E|]; [right|by left].
  rewrite (arr_get_None st) in H2 by lia. simpl in H2. lia.
Qed.

Lemma window_whole st l n c : window st (mkSlice l 0 n c) = take n (arr_get st l).
Proof. done. Qed.

Lemma write_at_fill A xs ys :
  length A = length xs + length ys ->
  write_at (write_at A 0 xs) (length xs) ys = xs ++ ys.
Proof.
  intros HA. unfold write_at. simpl.
  rewrite take_app_length, drop_app_ge by lia.
  rewrite drop_drop, drop_ge by lia. by rewrite app_nil_r.
Qed.

Lemma write_at_fill_rev A xs ys :
  length A = length xs + length ys ->
  write_at (write_at A (length xs) ys) 0 xs = xs ++ ys.
Proof.
  intros HA. unfold write_at. simpl.
  rewrite drop_app_length' by (rewrite length_take; lia).
  rewrite (drop_ge A) by lia. by rewrite app_nil_r.
Qed.

Lemma arr_write_out st l pos xs : length st <= l -> arr_write st l pos xs = st.
Proof. intros H. unfold arr_write. by apply list_insert_ge. Qed.

(** What a cell holds after a write that stays inside the array. *)
Lemma arr_write_cell st l pos xs l' q :
  pos + length xs <= length (arr_get st l) ->
  arr_get (arr_write st l pos xs) l' !! q =
  if decide (l' = l /\ pos <= q < pos + length xs)
  then xs !! (q - pos) else arr_get st l' !! q.
Proof.
  intros Hin. destruct (decide (l < length st)) as [Hl|Hl].
  - destruct (decide (l' = l)) as [->|Hne].
    + rewrite arr_get_write_eq by done.
      destruct (decide (pos <= q < pos + length xs)) as [Hq|Hq].
      * rewrite decide_True by done. apply write_at_lookup_mid; lia.
      * rewrite decide_False by tauto.
        destruct (decide (q < pos)).
        -- apply write_at_lookup_lt; lia.
        -- apply write_at_lookup_ge; lia.
    + rewrite arr_get_write_ne by done. rewrite decide_False by tauto. done.
  - rewrite arr_write_out by lia.
    rewrite (arr_get_None st l) in Hin by lia. simpl in Hin.
    rewrite decide_False by lia. done.
Qed.

Lemma arr_write_get_length st l pos xs l' :
  pos + length xs <= length (arr_get st l) ->
  length (arr_get (arr_write st l pos xs) l') = length (arr_get st l').
Proof.
  intros Hin. destruct (decide (l < length st)) as [Hl|Hl].
  - destruct (decide (l' = l)) as [->|Hne].
    + rewrite arr_get_write_eq by done. by apply write_at_length.
    + by rewrite arr_get_write_ne.
  - by rewrite arr_write_out by lia.
Qed.

Lemma wf_slice_mono st st' s :
  length st <= length st' ->
  (forall l, l < length st -> length (arr_get st' l) = length (arr_get st l)) ->
  wf_slice st s -> wf_slice st' s.
Proof.
  intros Hle Hlen [H1 H2]. split; [done|].
  destruct (decide (s_arr s < length st)) as [Hl|Hl].
  - by rewrite Hlen.
  - rewrite (arr_get_None st) in H2 by lia. simpl in H2. lia.
Qed.

(** The windows of [s[:n]] and [s[i:]]. *)
Lemma window_prefix st s n :
  n <= s_len s ->
  window st (mkSlice (s_arr s) (s_off s) n (s_cap s)) = take n (window st s).
Proof.
  intros H. unfold window. simpl. rewrite take_take. f_equal. lia.
Qed.

Lemma window_suffix st s i :
  i <= s_len s ->
  window st (mkSlice (s_arr s) (s_off s + i) (s_len s - i) (s_cap s - i))
  = drop i (window st s).
Proof.
  intros H. unfold window. simpl.
  rewrite <- drop_drop, take_drop_commute. do 2 f_equal. lia.
Qed.

End ArrayFacts.

(** Headers and windows of a store that has only grown. *)
Lemma wf_slice_prefix {T} (st st' : list (list T)) s :
  wf_slice st s -> st `prefix_of` st' -> wf_slice st' s.
Proof.
  intros [H1 H2] Hpre. split; [done|].
  destruct (st !! s_arr s) as [A|] eqn:EA.
  - unfold arr_get in *. rewrite (prefix_lookup_Some _ _ _ _ EA Hpre). by rewrite EA in H2.
  - unfold arr_get in H2. rewrite EA in H2. simpl in H2. lia.
Qed.

Lemma window_wf_prefix {T} (st st' : list (list T)) s :
  wf_slice st s -> st `prefix_of` st' -> window st' s = window st s.
Proof.
  intros [H1 H2] Hp. unfold window.
  destruct (st !! s_arr s) as [A|] eqn:EA.
  - unfold arr_get. by rewrite (prefix_lookup_Some _ _ _ _ EA Hp), EA.
  - unfold arr_get in H2. rewrite EA in H2. simpl in H2.
    assert (s_len s = 0) as -> by lia. done.
Qed.

(** ** The monad *)

Lemma bind_Ret {A B} (m : M A) (f : A -> M B) h a h' :
  m h = Ret a h' -> (x <- m ;; f x) h = f a h'.
Proof. unfold bind. by intros ->. Qed.

Lemma bind_Panic {A B} (m : M A) (f : A -> M B) h k h' :
  m h = Panic k h' -> (x <- m ;; f x) h = Panic k h'.
Proof. unfold bind. by intros ->. Qed.

Lemma bind_bind_Ret {A B C} (m : M A) (f : A -> M B) (k : B -> M C) h a h' :
  m h = Ret a h' -> (y <- (x <- m ;; f x) ;; k y) h = (y <- f a ;; k y) h'.
Proof. unfold bind. by intros ->. Qed.

Lemma with_narr_id h : with_narr (narr h) h = h.
Proof. by destruct h. Qed.

Lemma with_aarr_id h : with_aarr (aarr h) h = h.
Proof. by destruct h. Qed.

Lemma load_Some h a nd : nodes h !! a = Some nd -> load (Some a) h = Ret nd h.
Proof. unfold load. by intros ->. Qed.

Lemma store_Some h a nd f :
  nodes h !! a = Some nd ->
  store (Some a) f h = Ret tt (with_nodes (<[a := f nd]> (nodes h)) h).
Proof. unfold store. by intros ->. Qed.

Lemma index_elems h s i x : elems h s !! i = Some x -> index s i h = Ret x h.
Proof.
  intros H. unfold index.
  destruct (decide (i < s_len s)) as [Hi|Hi].
  - unfold elems in H. rewrite window_lookup in H by done. by rewrite H.
  - unfold elems in H. rewrite window_lookup_ge in H by lia. done.
Qed.

Lemma children_Some h a nd : nodes h !! a = Some nd -> children h a = elems h (Child nd).
Proof. unfold children. by intros ->. Qed.


Lemma make_0 h : make 0 h = Ret emptySlice h.
Proof. done. Qed.

Lemma make_pos n h :
  n <> 0 ->
  make n h = Ret (mkSlice (length (narr h)) 0 n n)
                 (with_narr (narr h ++ [replicate n None]) h).
Proof. by destruct n. Qed.

Lemma reslice_ok s lo hi h :
  lo <= hi -> hi <= s_cap s ->
  reslice s lo hi h = Ret (mkSlice (s_arr s) (s_off s + lo) (hi - lo) (s_cap s - lo)) h.
Proof. intros H1 H2. unfold reslice. by rewrite decide_True. Qed.

Lemma copy_eq dst src h :
  copy dst src h =
  Ret (length (take (s_len dst) (elems h src)))
      (with_narr (arr_write (narr h) (s_arr dst) (s_off dst) (take (s_len dst) (elems h src))) h).
Proof. done. Qed.

Ltac hsimpl :=
  cbn [nodes narr aarr with_narr with_nodes with_aarr s_arr s_off s_len s_cap
       Child Parent Attr Type_ Data set_Child set_Attr final_heap] in *.

(** ** AppendChildren and PrependChildren *)

Lemma AppendChildren_spec h a nd cs :
  nodes h !! a = Some nd ->
  wf_slice (narr h) (Child nd) ->
  wf_slice (narr h) cs ->
  exists h', AppendChildren cs (Some a) h = Ret tt h'
    /\ children h' a = children h a ++ elems h cs.
Proof.
  intros Hnd Hwf Hcs.
  rewrite (children_Some _ _ _ Hnd).
  pose proof (window_length _ _ Hwf) as Hl1.
  pose proof (window_length _ _ Hcs) as Hl2.
  unfold AppendChildren.
  erewrite bind_Ret by (by apply load_Some).
  destruct (decide (s_len (Child nd) + s_len cs = 0)) as [Hm|Hm].
  - rewrite Hm. erewrite bind_Ret by apply make_0.
    erewrite bind_Ret by apply copy_eq.
    erewrite bind_Ret by (apply reslice_ok; simpl; lia).
    erewrite bind_Ret by apply copy_eq.
    cbn [emptySlice s_arr s_off s_len s_cap].
    rewrite Nat.sub_0_l, !take_0, !arr_write_nil, !with_narr_id.
    eexists. split; [by apply store_Some|].
    unfold children. hsimpl.
    rewrite list_lookup_insert_eq by (by eapply lookup_lt_Some).
    hsimpl. unfold elems in *.
    rewrite (nil_length_inv (window (narr h) (Child nd))) by lia.
    rewrite (nil_length_inv (window (narr h) cs)) by lia.
    done.
  - erewrite bind_Ret by (by apply make_pos).
    erewrite bind_Ret by apply copy_eq.
    erewrite bind_Ret by (apply reslice_ok; simpl; lia).
    erewrite bind_Ret by apply copy_eq.
    hsimpl.
    eexists. split; [by apply store_Some|].
    unfold children. hsimpl.
    rewrite list_lookup_insert_eq by (by eapply lookup_lt_Some).
    hsimpl. unfold elems in *. hsimpl.
    rewrite !window_app by done.
    rewrite (window_write_other _ _ _ _ cs) by (by eapply wf_slice_old).
    rewrite window_app by done.
    rewrite !take_ge by lia.
    rewrite window_whole, !arr_get_write_eq
      by (rewrite ?arr_write_length, length_app; simpl; lia).
    rewrite arr_get_app_new.
    rewrite <- Hl1, <- Hl2. simpl.
    rewrite write_at_fill by (rewrite length_replicate; lia).
    rewrite take_ge; [done|]. rewrite length_app. lia.
Qed.

Lemma PrependChildren_spec h a nd cs :
  nodes h !! a = Some nd ->
  wf_slice (narr h) (Child nd) ->
  wf_slice (narr h) cs ->
  exists h', PrependChildren cs (Some a) h = Ret tt h'
    /\ children h' a = elems h cs ++ children h a.
Proof.
  intros Hnd Hwf Hcs.
  rewrite (children_Some _ _ _ Hnd).
  pose proof (window_length _ _ Hwf) as Hl1.
  pose proof (window_length _ _ Hcs) as Hl2.
  unfold PrependChildren.
  erewrite bind_Ret by (by apply load_Some).
  destruct (decide (s_len (Child nd) + s_len cs = 0)) as [Hm|Hm].
  - rewrite Hm. erewrite bind_Ret by apply make_0.
    unfold slice_from.
    erewrite bind_Ret by (apply reslice_ok; simpl; lia).
    erewrite bind_Ret by apply copy_eq.
    erewrite bind_Ret by (apply reslice_ok; simpl; lia).
    erewrite bind_Ret by apply copy_eq.
    cbn [emptySlice s_arr s_off s_len s_cap].
    rewrite !Nat.sub_0_l, !take_0, !arr_write_nil, !with_narr_id.
    eexists. split; [by apply store_Some|].
    unfold children. hsimpl.
    rewrite list_lookup_insert_eq by (by eapply lookup_lt_Some).
    hsimpl. unfold elems in *.
    rewrite (nil_length_inv (window (narr h) (Child nd))) by lia.
    rewrite (nil_length_inv (window (narr h) cs)) by lia.
    done.
  - erewrite bind_Ret by (by apply make_pos).
    unfold slice_from.
    erewrite bind_Ret by (apply reslice_ok; simpl; lia).
    erewrite bind_Ret by apply copy_eq.
    erewrite bind_Ret by (apply reslice_ok; simpl; lia).
    erewrite bind_Ret by apply copy_eq.
    hsimpl.
    eexists. split; [by apply store_Some|].
    unfold children. hsimpl.
    rewrite list_lookup_insert_eq by (by eapply lookup_lt_Some).
    hsimpl. unfold elems in *. hsimpl.
    rewrite !window_app by done.
    rewrite (window_write_other _ _ _ _ cs) by (by eapply wf_slice_old).
    rewrite window_app by done.
    rewrite !take_ge by lia.
    rewrite window_whole, !arr_get_write_eq
      by (rewrite ?arr_write_length, length_app; simpl; lia).
    rewrite arr_get_app_new.
    rewrite <- Hl1, <- Hl2. simpl.
    rewrite write_at_fill_rev by (rewrite length_replicate; lia).
    rewrite take_ge; [done|]. rewrite length_app. lia.
Qed.

(** ** RemoveChildren *)

Lemma RemoveChildren_eq h a nd :
  nodes h !! a = Some nd ->
  RemoveChildren (Some a) h =
  Ret tt (with_nodes (<[a := set_Child emptySlice nd]> (nodes h)) h).
Proof.
  intros Hnd. unfold RemoveChildren.
  erewrite bind_Ret by (by apply load_Some).
  erewrite bind_Ret by apply make_0.
  by apply store_Some.
Qed.

(** ** append and Replace *)

Section AppendFacts.
Variable g : nat -> nat -> nat.

Lemma append_spec s src h :
  wf_slice (narr h) s ->
  exists s' h', append g s src h = Ret s' h'
    /\ nodes h' = nodes h /\ aarr h' = aarr h
    /\ wf_slice (narr h') s'
    /\ s_len s' = s_len s + length (elems h src)
    /\ elems h' s' = elems h s ++ elems h src
    /\ length (narr h) <= length (narr h')
    /\ (forall l, l < length (narr h) ->
          length (arr_get (narr h') l) = length (arr_get (narr h) l))
    /\ (forall l q, l < length (narr h) ->
          l <> s_arr s \/ q < s_off s + s_len s
            \/ s_off s + s_len s + length (elems h src) <= q
            \/ s_cap s < s_len s + length (elems h src) ->
          arr_get (narr h') l !! q = arr_get (narr h) l !! q)
    /\ (forall l q x, l < length (narr h) ->
          arr_get (narr h') l !! q = Some x ->
          arr_get (narr h) l !! q = Some x \/ x ∈ elems h src).
Proof.
  intros Hwf. pose proof (window_length _ _ Hwf) as Hlen.
  destruct Hwf as [Hlc Hin].
  unfold append.
  set (xs := elems h src).
  destruct (decide (s_len s + length xs <= s_cap s)) as [Hfit|Hfit].
  - assert (Hw : s_off s + s_len s + length xs <= length (arr_get (narr h) (s_arr s))) by lia.
    do 2 eexists. split; [reflexivity|]. hsimpl.
    split; [done|]. split; [done|].
    split; [|split; [done|split; [|split; [|split; [|split]]]]].
    + split; hsimpl; [lia|]. rewrite arr_write_get_length by done. lia.
    + unfold elems. apply list_eq. intros q.
      destruct (decide (q < s_len s + length xs)) as [Hq|Hq].
      * rewrite window_lookup by (hsimpl; lia). hsimpl.
        rewrite arr_write_cell by done.
        destruct (decide (q < s_len s)) as [Hq1|Hq1].
        -- rewrite decide_False by lia.
           rewrite lookup_app_l by (fold (elems h s); unfold elems; lia).
           by rewrite window_lookup.
        -- rewrite decide_True by lia.
           rewrite lookup_app_r by lia. f_equal. lia.
      * rewrite window_lookup_ge by (hsimpl; lia).
        symmetry. apply lookup_ge_None. rewrite length_app. fold xs. lia.
    + by rewrite arr_write_length.
    + intros l _. by apply arr_write_get_length.
    + intros l q _ Hc. rewrite arr_write_cell by done.
      rewrite decide_False; [done|]. fold xs in Hc. lia.
    + intros l q x _. rewrite arr_write_cell by done.
      case_decide; [|by left].
      intros Hx. right. by eapply list_elem_of_lookup_2.
  - do 2 eexists. split; [reflexivity|]. hsimpl.
    split; [done|]. split; [done|].
    split; [|split; [done|split; [|split; [|split; [|split]]]]].
    + split; hsimpl; [lia|]. rewrite arr_get_app_new.
      rewrite !length_app, length_replicate. fold (elems h s). unfold elems at 1. lia.
    + unfold elems at 1. rewrite window_whole. hsimpl. rewrite arr_get_app_new.
      rewrite app_assoc. apply take_app_length'. rewrite length_app. unfold elems. lia.
    + rewrite length_app. lia.
    + intros l Hl. by rewrite arr_get_app_old.
    + intros l q Hl _. by rewrite arr_get_app_old.
    + intros l q x Hl. rewrite arr_get_app_old by done. by left.
Qed.

Lemma forM__app {A} (xs ys : list A) (body : A -> M unit) h :
  forM_ (xs ++ ys) body h = and_then (forM_ xs body h) (forM_ ys body).
Proof.
  revert h. induction xs as [|x xs IH]; intros h; simpl; [done|].
  unfold bind. destruct (body x h) as [[] h1|k h1]; simpl; [apply IH|done].
Qed.

Lemma index_cell h s i c :
  i < s_len s ->
  arr_get (narr h) (s_arr s) !! (s_off s + i) = Some c ->
  index s i h = Ret c h.
Proof. intros Hi Hc. unfold index. rewrite decide_True by done. by rewrite Hc. Qed.

(** A stretch of a [range] loop in which no element is the one looked
    for leaves the store as it is. *)
Lemma range_skip (s : Slice) (n : ref) (body : nat -> ref -> M unit) lo cnt h :
  (forall i c h0, c <> n -> body i c h0 = Ret tt h0) ->
  (forall j, lo <= j < lo + cnt ->
     j < s_len s /\ exists c, arr_get (narr h) (s_arr s) !! (s_off s + j) = Some c /\ c <> n) ->
  forM_ (seq lo cnt) (fun i => c <- index s i ;; body i c) h = Ret tt h.
Proof.
  intros Hbody. revert lo. induction cnt as [|cnt IH]; intros lo Hall; simpl; [done|].
  destruct (Hall lo) as (Hlt & c & Hc & Hne); [lia|].
  erewrite bind_Ret; [|erewrite bind_Ret by (by apply index_cell); by apply Hbody].
  apply IH. intros j Hj. apply Hall. lia.
Qed.

Lemma pred_index i :
  Z.to_nat (if (Z.of_nat i - 1 <? 0)%Z then 0%Z else (Z.of_nat i - 1)%Z) = i - 1.
Proof. destruct (Z.ltb_spec (Z.of_nat i - 1) 0); lia. Qed.

Lemma splice_spec ns p pn i h (N : ref) :
  nodes h !! p = Some pn ->
  wf_slice (narr h) (Child pn) ->
  i < s_len (Child pn) ->
  no_overrun (s_cap (Child pn)) (s_len (Child pn)) i (length (elems h ns)) ->
  exists r h', splice g ns (Some p) i h = Ret tt h'
    /\ nodes h' = <[p := set_Child r pn]> (nodes h)
    /\ aarr h' = aarr h
    /\ elems h' r = take (i - 1) (elems h (Child pn)) ++ elems h ns
                      ++ drop (i + 1) (elems h (Child pn))
    /\ ((forall j, i < j -> elems h (Child pn) !! j <> Some N) ->
        forall j, i < j < s_len (Child pn) ->
          exists c, arr_get (narr h') (s_arr (Child pn)) !! (s_off (Child pn) + j) = Some c
                    /\ c <> N).
Proof.
  intros Hp Hwf Hi Hno.
  set (s0 := Child pn) in *.
  assert (Harr : s_arr s0 < length (narr h)) by (apply wf_slice_in_store; [done|destruct Hwf; lia]).
  unfold splice. cbv zeta. rewrite pred_index.
  erewrite bind_Ret by (by apply load_Some).
  unfold slice_to, slice_from.
  erewrite bind_Ret by (apply reslice_ok; destruct Hwf; fold s0; lia).
  erewrite bind_Ret by (by apply load_Some).
  erewrite bind_Ret by (apply reslice_ok; destruct Hwf; fold s0; lia).
  fold s0. rewrite Nat.add_0_r, !Nat.sub_0_r.
  set (pre := mkSlice (s_arr s0) (s_off s0) (i - 1) (s_cap s0)).
  set (post := mkSlice (s_arr s0) (s_off s0 + (i + 1)) (s_len s0 - (i + 1)) (s_cap s0 - (i + 1))).
  assert (Hwpre : wf_slice (narr h) pre) by (destruct Hwf; split; simpl; lia).
  assert (Hwpost : wf_slice (narr h) post) by (destruct Hwf; split; simpl; lia).
  destruct (append_spec pre ns h Hwpre)
    as (nc & h1 & E1 & Hn1 & Ha1 & Hwnc & Hlnc & Hel1 & Hgrow1 & Hlen1 & Hframe1 & Hcont1).
  erewrite bind_Ret by exact E1.
  destruct (append_spec nc post h1 Hwnc)
    as (r & h2 & E2 & Hn2 & Ha2 & Hwr & Hlr & Hel2 & Hgrow2 & Hlen2 & Hframe2 & Hcont2).
  erewrite bind_Ret by exact E2.
  assert (Hp2 : nodes h2 !! p = Some pn) by (by rewrite Hn2, Hn1).
  rewrite (store_Some _ _ _ _ Hp2).
  (* the tail is what it was before the first append *)
  assert (Hpost1 : elems h1 post = elems h post).
  { unfold elems. apply window_ext; [done|]. intros q Hq.
    apply Hframe1; [done|]. right. subst pre post. simpl in *.
    unfold no_overrun in Hno. fold s0 in Hno. lia. }
  assert (Hpre : elems h pre = take (i - 1) (elems h s0)).
  { unfold elems, pre. apply window_prefix. lia. }
  assert (Hpost : elems h post = drop (i + 1) (elems h s0)).
  { unfold elems, post. apply window_suffix. lia. }
  exists r, (with_nodes (<[p := set_Child r pn]> (nodes h2)) h2).
  split; [done|]. hsimpl. split; [by rewrite Hn2, Hn1|]. split; [by rewrite Ha2, Ha1|].
  split.
  - change (elems h2 r = take (i - 1) (elems h s0) ++ elems h ns ++ drop (i + 1) (elems h s0)).
    rewrite Hel2, Hel1, Hpost1, Hpre, Hpost. by rewrite <- app_assoc.
  - intros Huniq j Hj.
    assert (Hwf2 : wf_slice (narr h2) s0).
    { eapply wf_slice_mono; [exact Hgrow2|intros; by apply Hlen2|].
      eapply wf_slice_mono; [exact Hgrow1|intros; by apply Hlen1|done]. }
    destruct (lookup_lt_is_Some_2 (arr_get (narr h2) (s_arr s0)) (s_off s0 + j)) as [c Hc].
    { destruct Hwf2. lia. }
    exists c. split; [done|]. intros ->.
    assert (Harr1 : s_arr s0 < length (narr h1)) by lia.
    destruct (Hcont2 _ _ _ Harr1 Hc) as [Hc1|Hc1].
    + rewrite Hframe1 in Hc1; [|done|].
      * apply (Huniq j); [lia|]. unfold elems. rewrite window_lookup by lia. done.
      * right. subst pre. simpl. unfold no_overrun in Hno. fold s0 in Hno. lia.
    + rewrite Hpost1, Hpost in Hc1.
      apply list_elem_of_lookup_1 in Hc1 as [q Hq].
      rewrite lookup_drop in Hq. by apply (Huniq (i + 1 + q)); [lia|].
Qed.

Lemma elems_cell h s j c :
  elems h s !! j = Some c ->
  j < s_len s /\ arr_get (narr h) (s_arr s) !! (s_off s + j) = Some c.
Proof.
  intros H. unfold elems in H.
  destruct (decide (j < s_len s)) as [Hj|Hj].
  - rewrite window_lookup in H by done. done.
  - rewrite window_lookup_ge in H by lia. done.
Qed.

Lemma elems_lookup_lt h s j :
  wf_slice (narr h) s -> j < s_len s -> exists c, elems h s !! j = Some c.
Proof.
  intros Hwf Hj. apply lookup_lt_is_Some_2. unfold elems.
  rewrite window_length by done. done.
Qed.

Lemma Replace_body_skip ns p (n : ref) i c h0 :
  c <> n -> (if ref_eqb c n then splice g ns p i else ret tt) h0 = Ret tt h0.
Proof. intros Hne. unfold ref_eqb. by rewrite bool_decide_eq_false_2. Qed.

Lemma Replace_no_match ns a nd p pn h :
  nodes h !! a = Some nd ->
  Parent nd = Some p ->
  nodes h !! p = Some pn ->
  wf_slice (narr h) (Child pn) ->
  Some a ∉ elems h (Child pn) ->
  Replace g ns (Some a) h = Ret tt h.
Proof.
  intros Ha Hpar Hp Hwf Hnot. unfold Replace.
  erewrite bind_Ret by (by apply load_Some).
  rewrite Hpar. erewrite bind_Ret by (by apply load_Some).
  unfold range. apply (range_skip _ (Some a)).
  - intros. by apply Replace_body_skip.
  - intros j Hj. split; [lia|].
    destruct (elems_lookup_lt h (Child pn) j Hwf) as [c Hc]; [lia|].
    exists c. split; [by apply elems_cell in Hc as [_ ?]|].
    intros ->. apply Hnot. by eapply list_elem_of_lookup_2.
Qed.

Lemma Replace_spec ns a nd p pn i h :
  nodes h !! a = Some nd ->
  Parent nd = Some p ->
  nodes h !! p = Some pn ->
  wf_slice (narr h) (Child pn) ->
  elems h (Child pn) !! i = Some (Some a) ->
  (forall j, elems h (Child pn) !! j = Some (Some a) -> j = i) ->
  no_overrun (s_cap (Child pn)) (s_len (Child pn)) i (length (elems h ns)) ->
  exists r h', Replace g ns (Some a) h = Ret tt h'
    /\ nodes h' = <[p := set_Child r pn]> (nodes h)
    /\ aarr h' = aarr h
    /\ elems h' r = take (i - 1) (elems h (Child pn)) ++ elems h ns
                      ++ drop (i + 1) (elems h (Child pn)).
Proof.
  intros Ha Hpar Hp Hwf Hi Huniq Hno.
  destruct (elems_cell _ _ _ _ Hi) as [Hlt Hcell].
  destruct (splice_spec ns p pn i h (Some a) Hp Hwf Hlt Hno)
    as (r & h' & Es & Hn' & Ha' & Hel & Htail).
  exists r, h'. split; [|done].
  unfold Replace.
  erewrite bind_Ret by (by apply load_Some).
  rewrite Hpar. erewrite bind_Ret by (by apply load_Some).
  unfold range.
  replace (s_len (Child pn)) with (i + S (s_len (Child pn) - i - 1)) by lia.
  rewrite seq_app, forM__app.
  rewrite (range_skip _ (Some a)).
  - cbn [and_then seq forM_ Nat.add].
    erewrite bind_Ret.
    2:{ erewrite bind_Ret by (by apply index_cell).
        unfold ref_eqb. rewrite bool_decide_eq_true_2 by done. exact Es. }
    apply (range_skip _ (Some a)).
    + intros. by apply Replace_body_skip.
    + intros j Hj. split; [lia|]. apply Htail; [|lia].
      intros j' Hj' E. apply Huniq in E. lia.
  - intros. by apply Replace_body_skip.
  - intros j Hj. split; [lia|].
    destruct (elems_lookup_lt h (Child pn) j Hwf) as [c Hc]; [lia|].
    exists c. split; [by apply elems_cell in Hc as [_ ?]|].
    intros ->. apply Huniq in Hc. lia.
Qed.

End AppendFacts.

(** ** ModifyAttrib *)

Section AttrFacts.
Context {T : Type}.
Implicit Types (st : list (list T)) (s : Slice).

Lemma arr_get_set st l pos (x : T) l' :
  arr_get (arr_set st l pos x) l' =
  if decide (l' = l) then <[pos := x]> (arr_get st l) else arr_get st l'.
Proof.
  destruct (decide (l' = l)) as [->|Hne].
  - destruct (decide (l < length st)) as [Hl|Hl].
    + by apply arr_get_set_eq.
    + unfold arr_set. rewrite list_insert_ge by lia.
      by rewrite (arr_get_None st l) by lia.
  - by apply arr_get_set_ne.
Qed.

Lemma window_set st s i (x : T) :
  i < s_len s ->
  window (arr_set st (s_arr s) (s_off s + i) x) s = <[i := x]> (window st s).
Proof.
  intros Hi. unfold window. rewrite arr_get_set, decide_True by done.
  rewrite drop_insert_ge by lia. rewrite take_insert_lt by lia.
  f_equal. lia.
Qed.

Lemma wf_slice_set st s l pos (x : T) : wf_slice st s -> wf_slice (arr_set st l pos x) s.
Proof.
  intros [H1 H2]. split; [done|]. rewrite arr_get_set.
  case_decide as E; [|done]. rewrite length_insert. by rewrite <- E.
Qed.

Lemma insert_replicate_last (z x : T) n :
  <[n := x]> (replicate (S n) z) = replicate n z ++ [x].
Proof. induction n as [|n IH]; simpl; [done|]. f_equal. exact IH. Qed.

End AttrFacts.

Lemma attr_index_attrs h s i x : attrs h s !! i = Some x -> attr_index s i h = Ret x h.
Proof.
  intros H. unfold attr_index.
  destruct (decide (i < s_len s)) as [Hi|Hi].
  - unfold attrs in H. rewrite window_lookup in H by done. by rewrite H.
  - unfold attrs in H. rewrite window_lookup_ge in H by lia. done.
Qed.

Lemma attr_set_index_ok s i x h :
  i < s_len s ->
  attr_set_index s i x h
  = Ret tt (with_aarr (arr_set (aarr h) (s_arr s) (s_off s + i) x) h).
Proof. intros Hi. unfold attr_set_index. by rewrite decide_True. Qed.

Lemma attributes_Some h a nd : nodes h !! a = Some nd -> attributes h a = attrs h (Attr nd).
Proof. unfold attributes. by intros ->. Qed.

(** The scanning loop of [ModifyAttrib], from index [lo] on. *)
Lemma ModifyAttrib_loop key val a nd cnt : forall lo h found,
  nodes h !! a = Some nd ->
  wf_slice (aarr h) (Attr nd) ->
  lo + cnt = s_len (Attr nd) ->
  exists h',
    foldM (seq lo cnt) (fun found i =>
        attr <- attr_index (Attr nd) i ;;
        if String.eqb (Key attr) key then
          nd1 <- load (Some a) ;;
          attr_set_val (Attr nd1) i val ;;;
          ret true
        else ret found) found h
    = Ret (found || existsb (key_matches key) (drop lo (attrs h (Attr nd)))) h'
    /\ nodes h' = nodes h /\ narr h' = narr h
    /\ length (aarr h') = length (aarr h)
    /\ wf_slice (aarr h') (Attr nd)
    /\ attrs h' (Attr nd)
       = take lo (attrs h (Attr nd)) ++ map (set_val key val) (drop lo (attrs h (Attr nd))).
Proof.
  induction cnt as [|cnt IH]; intros lo h found Hnd Hwf Hlo.
  - exists h. simpl. pose proof (window_length _ _ Hwf) as Hl.
    unfold attrs. rewrite drop_ge by lia. simpl.
    rewrite orb_false_r, app_nil_r, take_ge by lia. done.
  - pose proof (window_length _ _ Hwf) as Hl.
    destruct (lookup_lt_is_Some_2 (attrs h (Attr nd)) lo) as [x Hx]; [unfold attrs; lia|].
    rewrite (drop_S _ _ _ Hx). cbn [seq foldM existsb map].
    erewrite bind_bind_Ret by (by apply attr_index_attrs).
    unfold set_val at 1, key_matches at 1.
    destruct (String.eqb (Key x) key) eqn:Ek.
    + erewrite bind_bind_Ret by (by apply load_Some).
      unfold attr_set_val at 1.
      erewrite bind_bind_Ret.
      2:{ erewrite bind_Ret by (by apply attr_index_attrs).
          unfold attr_set_index. rewrite decide_True by lia. reflexivity. }
      erewrite bind_Ret by reflexivity.
      set (h1 := with_aarr _ h).
      assert (Hw1 : attrs h1 (Attr nd) = <[lo := mkAttr (Key x) val]> (attrs h (Attr nd))).
      { unfold attrs, h1. hsimpl. apply window_set. lia. }
      destruct (IH (S lo) h1 true) as (h' & E & Hn & Hna & Hla & Hwf' & Hat);
        [done|by apply wf_slice_set|lia|].
      exists h'. rewrite E. simpl. rewrite orb_true_r.
      split; [done|]. split; [done|]. split; [done|].
      split; [by rewrite Hla; unfold h1; hsimpl; rewrite arr_set_length|].
      split; [done|].
      rewrite Hat, Hw1.
      rewrite drop_insert_lt by lia.
      rewrite take_insert_lt by lia.
      rewrite (take_S_r _ _ _ Hx).
      assert (Hlt : length (take lo (attrs h (Attr nd))) = lo)
        by (rewrite length_take; unfold attrs; lia).
      rewrite insert_app_r_alt by lia.
      rewrite Hlt, Nat.sub_diag. simpl.
      unfold key_matches. rewrite Ek.
      by rewrite <- app_assoc.
    + erewrite bind_Ret by reflexivity.
      destruct (IH (S lo) h found) as (h' & E & Hn & Hna & Hla & Hwf' & Hat); [done|done|lia|].
      exists h'. rewrite E. simpl.
      split; [done|]. split; [done|]. split; [done|]. split; [done|]. split; [done|].
      rewrite Hat. rewrite (take_S_r _ _ _ Hx).
      unfold key_matches. rewrite Ek. by rewrite <- app_assoc.
Qed.

Lemma ModifyAttrib_spec key val a nd h :
  nodes h !! a = Some nd ->
  wf_slice (aarr h) (Attr nd) ->
  exists h' nd',
    ModifyAttrib key val (Some a) h = Ret tt h'
    /\ nodes h' !! a = Some nd'
    /\ wf_slice (aarr h') (Attr nd')
    /\ narr h' = narr h
    /\ attributes h' a =
       if existsb (key_matches key) (attributes h a)
       then map (set_val key val) (attributes h a)
       else replicate (length (attributes h a)) zeroAttr ++ [mkAttr key val].
Proof.
  intros Hnd Hwf. rewrite (attributes_Some _ _ _ Hnd).
  pose proof (window_length _ _ Hwf) as Hl.
  unfold ModifyAttrib.
  erewrite bind_Ret by (by apply load_Some).
  destruct (ModifyAttrib_loop key val a nd (s_len (Attr nd)) 0 h false Hnd Hwf)
    as (h1 & E & Hn & Hna & Hla & Hwf1 & Hat); [done|].
  erewrite bind_Ret by exact E.
  rewrite drop_0 in *. simpl in Hat. simpl.
  destruct (existsb (key_matches key) (attrs h (Attr nd))) eqn:Ef; simpl.
  - exists h1, nd. unfold ret.
    split; [done|]. split; [by rewrite Hn|]. split; [done|]. split; [done|].
    rewrite (attributes_Some h1 a nd) by (by rewrite Hn). done.
  - assert (Hnd1 : nodes h1 !! a = Some nd) by (by rewrite Hn).
    erewrite bind_Ret by (by apply load_Some).
    unfold attr_make. rewrite Nat.add_1_r.
    erewrite bind_Ret by reflexivity.
    erewrite bind_Ret by (apply load_Some; hsimpl; exact Hnd1).
    erewrite bind_Ret by (apply attr_set_index_ok; simpl; lia).
    unfold store. hsimpl. rewrite Hnd1.
    eexists _, _. split; [reflexivity|]. hsimpl.
    assert (Ha : a < length (nodes h1)) by (by eapply lookup_lt_Some).
    split; [by apply list_lookup_insert_eq|].
    split.
    { split; hsimpl; [lia|]. rewrite arr_get_set, decide_True by done.
      rewrite length_insert, arr_get_app_new, length_replicate. simpl. lia. }
    split; [done|].
    unfold attributes. hsimpl. rewrite list_lookup_insert_eq by done.
    unfold attrs. hsimpl. rewrite window_whole, arr_get_set, decide_True by done.
    rewrite arr_get_app_new. simpl plus. rewrite insert_replicate_last.
    rewrite take_ge by (rewrite length_app, length_replicate; simpl; lia).
    unfold attrs in Hl. by rewrite Hl.
Qed.

(** ** Loops over a fixed sequence: DoAll, ForEach, Apply *)

Lemma fold_left_Panic {A} (step : A -> M unit) xs k h :
  fold_left (fun o x => and_then o (step x)) xs (Panic k h) = Panic k h.
Proof. induction xs as [|x xs IH]; simpl; [done|exact IH]. Qed.

Lemma forM__in_order {A} (step : A -> M unit) xs h :
  forM_ xs step h = in_order step xs h.
Proof.
  unfold in_order. revert h. induction xs as [|x xs IH]; intros h; simpl; [done|].
  unfold bind. destruct (step x h) as [[] h1|k h1]; simpl.
  - apply IH.
  - by rewrite fold_left_Panic.
Qed.

Lemma in_order_cons {A} (step : A -> M unit) x xs h :
  in_order step (x :: xs) h =
  match step x h with
  | Ret _ h1 => in_order step xs h1
  | Panic k h1 => Panic k h1
  end.
Proof.
  unfold in_order. simpl. destruct (step x h) as [[] h1|k h1]; [done|].
  apply fold_left_Panic.
Qed.

Lemma DoAll_in_order fs n h : DoAll fs n h = in_order (fun f : TransformFunc => f n) fs h.
Proof. unfold DoAll. apply forM__in_order. Qed.

(** A [range] loop whose body leaves the elements of the ranged slice
    alone visits the elements the slice had when the loop started. *)
Lemma range_stable s X (body : ref -> M unit) h :
  elems h s = X ->
  length X = s_len s ->
  (forall c hx, elems hx s = X -> elems (final_heap (body c hx)) s = X) ->
  range s (fun _ c => body c) h = in_order body X h.
Proof.
  intros HX Hlen Hst. unfold range.
  enough (Hgen : forall cnt lo hx, lo + cnt = s_len s -> elems hx s = X ->
            forM_ (seq lo cnt) (fun i => c <- index s i ;; body c) hx
            = in_order body (drop lo X) hx).
  { rewrite (Hgen (s_len s) 0 h); [by rewrite drop_0|lia|done]. }
  induction cnt as [|cnt IH]; intros lo hx Hlo Hx.
  - rewrite drop_ge by lia. done.
  - destruct (lookup_lt_is_Some_2 X lo) as [c Hc]; [lia|].
    rewrite (drop_S _ _ _ Hc), in_order_cons. cbn [seq forM_].
    erewrite bind_bind_Ret by (apply index_elems; by rewrite Hx).
    unfold bind. specialize (Hst c hx Hx).
    destruct (body c hx) as [[] h1|k h1]; [|done].
    apply IH; [lia|done].
Qed.

(** ** Stores that have only grown *)

Lemma extends_refl h : extends h h.
Proof. by repeat split. Qed.

Lemma extends_trans h1 h2 h3 : extends h1 h2 -> extends h2 h3 -> extends h1 h3.
Proof.
  intros (A1 & A2 & A3) (B1 & B2 & B3).
  repeat split; by etrans.
Qed.

Lemma extends_nodes_length h h' : extends h h' -> length (nodes h) <= length (nodes h').
Proof. intros (H & _). by apply prefix_length. Qed.

Lemma prefix_insert_ge {A} (l1 l2 : list A) i x :
  l1 `prefix_of` l2 -> length l1 <= i -> l1 `prefix_of` <[i := x]> l2.
Proof.
  intros [k ->] Hi.
  rewrite insert_app_r_alt by done. by eexists.
Qed.

Lemma prefix_app_r' {A} (l1 l2 k : list A) : l1 `prefix_of` l2 -> l1 `prefix_of` l2 ++ k.
Proof. intros [k' ->]. rewrite <- app_assoc. by eexists. Qed.

(** ** Supporting facts for the combinators *)

Lemma set_val_key key val x : Key (set_val key val x) = Key x.
Proof. unfold set_val. by destruct (key_matches key x). Qed.

Lemma set_val_sets key val x : Key x = key -> Val (set_val key val x) = val.
Proof.
  intros Hk. unfold set_val, key_matches.
  by rewrite (proj2 (String.eqb_eq (Key x) key) Hk).
Qed.

(** After [ModifyAttrib(key, val)] some attribute has the key. *)
Lemma ModifyAttrib_present key val a nd h :
  nodes h !! a = Some nd ->
  wf_slice (aarr h) (Attr nd) ->
  exists h' nd',
    ModifyAttrib key val (Some a) h = Ret tt h'
    /\ nodes h' !! a = Some nd'
    /\ wf_slice (aarr h') (Attr nd')
    /\ existsb (key_matches key) (attributes h' a) = true.
Proof.
  intros Hnd Hwf.
  destruct (ModifyAttrib_spec key val a nd h Hnd Hwf) as (h' & nd' & E & Hnd' & Hwf' & _ & Hat).
  exists h', nd'. split; [done|]. split; [done|]. split; [done|].
  rewrite Hat. destruct (existsb (key_matches key) (attributes h a)) eqn:Ex.
  - apply existsb_exists in Ex as (x & Hin & Hk).
    apply existsb_exists. exists (set_val key val x).
    split; [by apply in_map|].
    unfold key_matches in *. by rewrite set_val_key.
  - rewrite existsb_app. simpl. unfold key_matches at 2. simpl.
    rewrite String.eqb_refl. by rewrite orb_true_r.
Qed.

Lemma elems_prefix h h' s X :
  elems h s = X -> length X = s_len s ->
  narr h `prefix_of` narr h' -> elems h' s = X.
Proof.
  intros HX Hlen Hpre. unfold elems, window in *.
  destruct (decide (s_len s = 0)) as [Hz|Hz].
  - rewrite Hz in *. simpl in *. by subst X.
  - destruct (narr h !! s_arr s) as [A|] eqn:EA.
    + unfold arr_get. rewrite (prefix_lookup_Some _ _ _ _ EA Hpre).
      unfold arr_get in HX. by rewrite EA in HX.
    + unfold arr_get in HX. rewrite EA in HX. simpl in HX.
      rewrite drop_nil, take_nil in HX. subst X. simpl in Hlen. lia.
Qed.

Lemma prefix_arr_write_ge {T} (st0 st : list (list T)) l pos xs :
  st0 `prefix_of` st -> length st0 <= l -> st0 `prefix_of` arr_write st l pos xs.
Proof. intros H Hl. unfold arr_write. by apply prefix_insert_ge. Qed.

(** [AppendChildren] writes into an array of its own. *)
Lemma AppendChildren_narr_prefix cs n h :
  narr h `prefix_of` narr (final_heap (AppendChildren cs n h)).
Proof.
  unfold AppendChildren. unfold bind at 1. unfold load.
  destruct n as [a|]; [|done].
  destruct (nodes h !! a) as [nd|] eqn:Hnd; [|done].
  destruct (decide (s_len (Child nd) + s_len cs = 0)) as [Hm|Hm].
  - rewrite Hm. erewrite bind_Ret by apply make_0.
    erewrite bind_Ret by apply copy_eq.
    erewrite bind_Ret by (apply reslice_ok; simpl; lia).
    erewrite bind_Ret by apply copy_eq.
    cbn [emptySlice s_arr s_off s_len s_cap].
    rewrite Nat.sub_0_l, !take_0, !arr_write_nil, !with_narr_id.
    by rewrite (store_Some _ _ _ _ Hnd).
  - erewrite bind_Ret by (by apply make_pos).
    erewrite bind_Ret by apply copy_eq.
    erewrite bind_Ret by (apply reslice_ok; simpl; lia).
    erewrite bind_Ret by apply copy_eq.
    hsimpl. erewrite store_Some by (hsimpl; exact Hnd). hsimpl.
    apply prefix_arr_write_ge; [|done].
    apply prefix_arr_write_ge; [|done].
    by apply prefix_app_r'.
Qed.

Lemma AppendChildren_leaves_elems ns X n :
  length X = s_len ns ->
  leaves_elems ns X (bound_variadic (fun s => ret (AppendChildren s)) n).
Proof.
  intros Hlen c hx HX. unfold bound_variadic.
  erewrite bind_Ret by reflexivity.
  erewrite bind_Ret by reflexivity.
  eapply elems_prefix; [exact HX|done|].
  etrans; [|apply AppendChildren_narr_prefix].
  hsimpl. by apply prefix_app_r'.
Qed.

(** ** Isolation of a source document *)

(** *** Computations that keep an invariant *)

Lemma ip_ret {A} (Inv : Heap -> Prop) (Q : A -> Prop) a : Q a -> inv_post Inv Q (ret a).
Proof. intros Ha h Hh. done. Qed.

Lemma ip_panic {A} (Inv : Heap -> Prop) (Q : A -> Prop) k : inv_post Inv Q (panic k).
Proof. intros h Hh. done. Qed.

Lemma ip_bind {A B} (Inv : Heap -> Prop) (Q1 : A -> Prop) (Q : B -> Prop) (m : M A) (f : A -> M B) :
  inv_post Inv Q1 m -> (forall a, Q1 a -> inv_post Inv Q (f a)) -> inv_post Inv Q (x <- m ;; f x).
Proof.
  intros Hm Hf h Hh. unfold bind. specialize (Hm h Hh).
  destruct (m h) as [a h1|k h1]; [|done].
  destruct Hm as [H1 Ha]. by apply Hf.
Qed.

Lemma ip_forM_ {A} (Inv : Heap -> Prop) (xs : list A) (body : A -> M unit) :
  (forall x, x ∈ xs -> inv_post Inv (fun _ => True) (body x)) ->
  inv_post Inv (fun _ => True) (forM_ xs body).
Proof.
  induction xs as [|x xs IH]; intros Hb; simpl.
  - by apply ip_ret.
  - eapply ip_bind; [apply Hb; by left|]. intros _ _.
    apply IH. intros y Hy. apply Hb. by right.
Qed.

Lemma ip_foldM {A S} (Inv : Heap -> Prop) (xs : list A) (body : S -> A -> M S) acc :
  (forall s x, inv_post Inv (fun _ => True) (body s x)) ->
  inv_post Inv (fun _ => True) (foldM xs body acc).
Proof.
  intros Hb. revert acc. induction xs as [|x xs IH]; intros acc; simpl.
  - by apply ip_ret.
  - eapply ip_bind; [apply Hb|]. intros s _. apply IH.
Qed.

Lemma ip_mapM {A B} (Inv : Heap -> Prop) (Q : B -> Prop) (f : A -> M B) (xs : list A) :
  (forall x, x ∈ xs -> inv_post Inv Q (f x)) ->
  inv_post Inv (Forall Q) (mapM f xs).
Proof.
  induction xs as [|x xs IH]; intros Hf; simpl.
  - by apply ip_ret.
  - eapply ip_bind; [apply Hf; by left|]. intros y Hy.
    eapply ip_bind; [apply IH; intros z Hz; apply Hf; by right|]. intros ys Hys.
    apply ip_ret. by constructor.
Qed.

(** *** The invariant: the region is kept and nothing refers into it *)

Section Isolation.
Variable R : Region.
Variable h0 : Heap.

Lemma isolated_fresh_node h : isolated R h0 h -> rn R (length (nodes h)) = false.
Proof.
  intros ((Ha & _) & (Hk & _) & _).
  destruct (rn R (length (nodes h))) eqn:E; [|done].
  pose proof (Ha _ E) as Hlt. pose proof (Hk _ E) as Heq.
  rewrite (lookup_ge_None_2 (nodes h)) in Heq by lia.
  destruct (lookup_lt_is_Some_2 (nodes h0) _ Hlt) as [x Hx]. congruence.
Qed.

Lemma isolated_fresh_narr h : isolated R h0 h -> ra R (length (narr h)) = false.
Proof.
  intros ((_ & Ha & _) & (_ & Hk & _) & _).
  destruct (ra R (length (narr h))) eqn:E; [|done].
  pose proof (Ha _ E) as Hlt. pose proof (Hk _ E) as Heq.
  rewrite (lookup_ge_None_2 (narr h)) in Heq by lia.
  destruct (lookup_lt_is_Some_2 (narr h0) _ Hlt) as [x Hx]. congruence.
Qed.

Lemma isolated_fresh_aarr h : isolated R h0 h -> rb R (length (aarr h)) = false.
Proof.
  intros ((_ & _ & Ha) & (_ & _ & Hk) & _).
  destruct (rb R (length (aarr h))) eqn:E; [|done].
  pose proof (Ha _ E) as Hlt. pose proof (Hk _ E) as Heq.
  rewrite (lookup_ge_None_2 (aarr h)) in Heq by lia.
  destruct (lookup_lt_is_Some_2 (aarr h0) _ Hlt) as [x Hx]. congruence.
Qed.

Lemma outside_emptySlice P : outside_slice P emptySlice.
Proof. split; simpl; [lia|by left]. Qed.

(** The elements of a slice outside the region are references to
    nodes outside the region. *)
Lemma elems_outside h s c :
  isolated R h0 h -> outside_slice (ra R) s -> c ∈ elems h s -> outside_ref R c.
Proof.
  intros (_ & _ & _ & Hcells) [Hlc Hs] Hc.
  unfold elems, window in Hc.
  destruct Hs as [Hz|Hout].
  - replace (s_len s) with 0 in Hc by lia. simpl in Hc. by apply elem_of_nil in Hc.
  - apply elem_of_take in Hc as (i & Hc & _).
    rewrite lookup_drop in Hc. unfold arr_get in Hc.
    destruct (narr h !! s_arr s) as [A|] eqn:EA; [|done]. simpl in Hc.
    eapply Hcells; [exact EA|done|]. by eapply list_elem_of_lookup_2.
Qed.

(** *** Writes outside the region *)

Lemma isolated_set_node h a nd nd' :
  isolated R h0 h -> rn R a = false -> nodes h !! a = Some nd -> fields_outside R nd' ->
  isolated R h0 (with_nodes (<[a := nd']> (nodes h)) h).
Proof.
  intros (Hal & (K1 & K2 & K3) & (A1 & A2)) Ha Hnd Hf.
  split; [done|]. split; [split; [|done]|split; [|done]]; hsimpl.
  - intros b Hb. rewrite list_lookup_insert_ne by congruence. by apply K1.
  - intros b ndb Hb Hout. destruct (decide (b = a)) as [->|Hne].
    + rewrite list_lookup_insert_eq in Hb by (by eapply lookup_lt_Some). by injection Hb as <-.
    + rewrite list_lookup_insert_ne in Hb by done. by eapply A1.
Qed.

Lemma isolated_new_node h nd :
  isolated R h0 h -> fields_outside R nd -> isolated R h0 (with_nodes (nodes h ++ [nd]) h).
Proof.
  intros HI Hf. pose proof (isolated_fresh_node h HI) as Hfr.
  destruct HI as (Hal & (K1 & K2 & K3) & (A1 & A2)).
  split; [done|]. split; [split; [|done]|split; [|done]]; hsimpl.
  - intros b Hb. rewrite <- (K1 b Hb).
    destruct (decide (b < length (nodes h))) as [Hlt|Hge].
    + by rewrite lookup_app_l.
    + destruct Hal as (Hal & _). pose proof (Hal b Hb) as Hlt.
      pose proof (K1 b Hb) as Heq.
      rewrite (lookup_ge_None_2 (nodes h)) in Heq by lia.
      destruct (lookup_lt_is_Some_2 (nodes h0) _ Hlt) as [x Hx]. congruence.
  - intros b ndb Hb Hout.
    destruct (decide (b < length (nodes h))) as [Hlt|Hge].
    + rewrite lookup_app_l in Hb by done. by eapply A1.
    + rewrite lookup_app_r in Hb by lia.
      destruct (b - length (nodes h)) as [|k]; simpl in Hb; [by injection Hb as <-|].
      by rewrite lookup_nil in Hb.
Qed.

Lemma allocated_lookup_narr h l : isolated R h0 h -> ra R l = true -> l < length (narr h).
Proof.
  intros ((_ & Ha & _) & (_ & Hk & _) & _) E.
  pose proof (Ha _ E) as Hlt. pose proof (Hk _ E) as Heq.
  destruct (lookup_lt_is_Some_2 (narr h0) _ Hlt) as [x Hx].
  apply (lookup_lt_Some _ _ x). congruence.
Qed.

Lemma allocated_lookup_aarr h l : isolated R h0 h -> rb R l = true -> l < length (aarr h).
Proof.
  intros ((_ & _ & Ha) & (_ & _ & Hk) & _) E.
  pose proof (Ha _ E) as Hlt. pose proof (Hk _ E) as Heq.
  destruct (lookup_lt_is_Some_2 (aarr h0) _ Hlt) as [x Hx].
  apply (lookup_lt_Some _ _ x). congruence.
Qed.

Lemma isolated_new_narr h A :
  isolated R h0 h -> Forall (outside_ref R) A -> isolated R h0 (with_narr (narr h ++ [A]) h).
Proof.
  intros HI HA.
  pose proof (fun l => allocated_lookup_narr h l HI) as Hlt.
  destruct HI as (Hal & (K1 & K2 & K3) & (A1 & A2)).
  split; [done|]. split; [split; [done|split; [|done]]|split; [done|]]; hsimpl.
  - intros l Hl. rewrite <- (K2 l Hl). apply lookup_app_l. by apply Hlt.
  - intros l B c Hl Hout Hc.
    destruct (decide (l < length (narr h))) as [Hlt'|Hge].
    + rewrite lookup_app_l in Hl by done. by eapply A2.
    + rewrite lookup_app_r in Hl by lia.
      destruct (l - length (narr h)) as [|k]; simpl in Hl; [|by rewrite lookup_nil in Hl].
      injection Hl as <-. by eapply Forall_forall in HA.
Qed.

Lemma isolated_set_narr h l A :
  isolated R h0 h -> ra R l = false ->
  (forall c, c ∈ A -> outside_ref R c) ->
  isolated R h0 (with_narr (<[l := A]> (narr h)) h).
Proof.
  intros (Hal & (K1 & K2 & K3) & (A1 & A2)) Hl HA.
  split; [done|]. split; [split; [done|split; [|done]]|split; [done|]]; hsimpl.
  - intros l' Hl'. rewrite list_lookup_insert_ne by congruence. by apply K2.
  - intros l' B c HB Hout Hc. destruct (decide (l' = l)) as [->|Hne].
    + destruct (decide (l < length (narr h))) as [Hlt|Hge].
      * rewrite list_lookup_insert_eq in HB by done. injection HB as <-. by apply HA.
      * rewrite list_insert_ge in HB by lia. by eapply A2.
    + rewrite list_lookup_insert_ne in HB by done. by eapply A2.
Qed.

Lemma elem_of_write_at {T} (A : list T) pos xs c :
  c ∈ write_at A pos xs -> c ∈ A \/ c ∈ xs.
Proof.
  unfold write_at. rewrite !elem_of_app. intros [H|[H|H]].
  - left. apply elem_of_take in H as (i & H & _). by eapply list_elem_of_lookup_2.
  - by right.
  - left. by eapply subseteq_drop.
Qed.

Lemma arr_get_elem {T} (st : list (list T)) l c :
  c ∈ arr_get st l -> exists A, st !! l = Some A /\ c ∈ A.
Proof.
  unfold arr_get. destruct (st !! l) as [A|]; simpl; [by exists A|].
  intros H. by apply elem_of_nil in H.
Qed.

(** Writing references to outside nodes through a slice outside the
    region. *)
Lemma isolated_arr_write h s pos xs :
  isolated R h0 h -> outside_slice (ra R) s -> (s_cap s = 0 -> xs = []) ->
  (forall c, c ∈ xs -> outside_ref R c) ->
  isolated R h0 (with_narr (arr_write (narr h) (s_arr s) pos xs) h).
Proof.
  intros HI [Hlc Hs] Hz Hxs. destruct Hs as [Hc|Hout].
  - rewrite (Hz Hc), arr_write_nil. by rewrite with_narr_id.
  - unfold arr_write. apply isolated_set_narr; [done|done|].
    intros c Hc. apply elem_of_write_at in Hc as [Hc|Hc]; [|by apply Hxs].
    apply arr_get_elem in Hc as (A & EA & Hc).
    destruct HI as (_ & _ & _ & A2). by eapply A2.
Qed.

Lemma isolated_arr_set h s pos x :
  isolated R h0 h -> outside_slice (ra R) s -> 0 < s_cap s -> outside_ref R x ->
  isolated R h0 (with_narr (arr_set (narr h) (s_arr s) pos x) h).
Proof.
  intros HI [Hlc Hs] Hz Hx. destruct Hs as [Hc|Hout]; [lia|].
  unfold arr_set. apply isolated_set_narr; [done|done|].
  intros c Hc. apply list_elem_of_lookup_1 in Hc as (i & Hc).
  destruct (decide (i = pos)) as [->|Hne].
  - destruct (decide (pos < length (arr_get (narr h) (s_arr s)))) as [Hlt|Hge].
    + rewrite list_lookup_insert_eq in Hc by done. by injection Hc as <-.
    + rewrite list_insert_ge in Hc by lia.
      apply list_elem_of_lookup_2, arr_get_elem in Hc as (A & EA & Hc).
      destruct HI as (_ & _ & _ & A2). by eapply A2.
  - rewrite list_lookup_insert_ne in Hc by done.
    apply list_elem_of_lookup_2, arr_get_elem in Hc as (A & EA & Hc).
    destruct HI as (_ & _ & _ & A2). by eapply A2.
Qed.

Lemma isolated_new_aarr h A : isolated R h0 h -> isolated R h0 (with_aarr (aarr h ++ [A]) h).
Proof.
  intros HI.
  pose proof (fun l => allocated_lookup_aarr h l HI) as Hlt.
  destruct HI as (Hal & (K1 & K2 & K3) & (A1 & A2)).
  split; [done|]. split; [split; [done|split; [done|]]|done]; hsimpl.
  intros l Hl. rewrite <- (K3 l Hl). apply lookup_app_l. by apply Hlt.
Qed.

Lemma isolated_set_aarr h l A :
  isolated R h0 h -> rb R l = false -> isolated R h0 (with_aarr (<[l := A]> (aarr h)) h).
Proof.
  intros (Hal & (K1 & K2 & K3) & (A1 & A2)) Hl.
  split; [done|]. split; [split; [done|split; [done|]]|done]; hsimpl.
  intros l' Hl'. rewrite list_lookup_insert_ne by congruence. by apply K3.
Qed.

(** *** The primitives of the store *)

Lemma ip_load_any n : inv_post (isolated R h0) (fun _ => True) (load n).
Proof.
  intros h Hh. unfold load. destruct n as [a|]; [|done].
  by destruct (nodes h !! a).
Qed.

Lemma ip_load n : outside_ref R n -> inv_post (isolated R h0) (fields_outside R) (load n).
Proof.
  intros Hn h Hh. unfold load. destruct n as [a|]; [|done].
  destruct (nodes h !! a) as [nd|] eqn:E; [|done].
  split; [done|]. destruct Hh as (_ & _ & A1 & _). by eapply A1.
Qed.

Lemma ip_store n f :
  outside_ref R n ->
  (forall nd, fields_outside R nd -> fields_outside R (f nd)) ->
  inv_post (isolated R h0) (fun _ => True) (store n f).
Proof.
  intros Hn Hf h Hh. unfold store. destruct n as [a|]; [|done].
  destruct (nodes h !! a) as [nd|] eqn:E; [|done].
  split; [|done]. eapply isolated_set_node; [done|done|done|].
  apply Hf. destruct Hh as (_ & _ & A1 & _). by eapply A1.
Qed.

Lemma ip_new_node nd : fields_outside R nd -> inv_post (isolated R h0) (outside_ref R) (new_node nd).
Proof.
  intros Hf h Hh. unfold new_node. split; [by apply isolated_new_node|].
  simpl. by apply isolated_fresh_node.
Qed.

Lemma ip_index s i : outside_slice (ra R) s -> inv_post (isolated R h0) (outside_ref R) (index s i).
Proof.
  intros Hs h Hh. unfold index.
  destruct (decide (i < s_len s)) as [Hi|Hi]; [|done].
  destruct (arr_get (narr h) (s_arr s) !! (s_off s + i)) as [x|] eqn:E; [|done].
  split; [done|]. apply (elems_outside h s); [done|done|].
  apply (list_elem_of_lookup_2 _ i). unfold elems. by rewrite window_lookup.
Qed.

Lemma ip_set_index s i x :
  outside_slice (ra R) s -> outside_ref R x -> inv_post (isolated R h0) (fun _ => True) (set_index s i x).
Proof.
  intros Hs Hx h Hh. unfold set_index.
  destruct (decide (i < s_len s)) as [Hi|Hi]; [|done].
  split; [|done]. apply isolated_arr_set; [done|done| |done].
  destruct Hs. lia.
Qed.

Lemma ip_reslice s lo hi :
  outside_slice (ra R) s -> inv_post (isolated R h0) (outside_slice (ra R)) (reslice s lo hi).
Proof.
  intros [Hlc Hs] h Hh. unfold reslice.
  destruct (decide (lo <= hi /\ hi <= s_cap s)) as [[H1 H2]|Hn]; [|done].
  split; [done|]. split; simpl; [lia|]. destruct Hs as [Hz|Ho]; [left; lia|by right].
Qed.

Lemma ip_make n : inv_post (isolated R h0) (outside_slice (ra R)) (make n).
Proof.
  intros h Hh. unfold make. destruct n as [|n].
  - split; [done|]. apply outside_emptySlice.
  - split.
    + apply isolated_new_narr; [done|]. apply Forall_forall. intros c Hc.
      apply elem_of_replicate in Hc as [-> _]. done.
    + split; simpl; [lia|]. right. by apply isolated_fresh_narr.
Qed.

Lemma ip_variadic xs : Forall (outside_ref R) xs -> inv_post (isolated R h0) (outside_slice (ra R)) (variadic xs).
Proof.
  intros Hxs h Hh. unfold variadic. destruct xs as [|x xs].
  - split; [done|]. apply outside_emptySlice.
  - split.
    + by apply isolated_new_narr.
    + split; simpl; [lia|]. right. by apply isolated_fresh_narr.
Qed.

Lemma ip_copy dst src :
  outside_slice (ra R) dst -> outside_slice (ra R) src ->
  inv_post (isolated R h0) (fun _ => True) (copy dst src).
Proof.
  intros Hd Hs h Hh. unfold copy. split; [|done].
  apply isolated_arr_write; [done|done| |].
  - intros Hc. destruct Hd as [Hd _]. replace (s_len dst) with 0 by lia. done.
  - intros c Hc. apply elem_of_take in Hc as (i & Hc & _).
    apply list_elem_of_lookup_2 in Hc. by eapply elems_outside.
Qed.

Section Append.
Variable g : nat -> nat -> nat.

Lemma ip_append s src :
  outside_slice (ra R) s -> outside_slice (ra R) src ->
  inv_post (isolated R h0) (outside_slice (ra R)) (append g s src).
Proof.
  intros Hs Hsrc h Hh. unfold append.
  destruct (decide (s_len s + length (elems h src) <= s_cap s)) as [Hfit|Hfit].
  - split.
    + apply isolated_arr_write; [done|done| |].
      * intros Hc. apply nil_length_inv. lia.
      * intros c Hc. by apply (elems_outside h src).
    + destruct Hs as [Hlc Hs]. by split.
  - split.
    + apply isolated_new_narr; [done|]. apply Forall_forall. intros c.
      rewrite !elem_of_app. intros [Hc|[Hc|Hc]].
      * by apply (elems_outside h s).
      * by apply (elems_outside h src).
      * apply elem_of_replicate in Hc as [-> _]. done.
    + split; simpl; [lia|]. right. by apply isolated_fresh_narr.
Qed.
End Append.

Lemma ip_attr_index s i : inv_post (isolated R h0) (fun _ => True) (attr_index s i).
Proof.
  intros h Hh. unfold attr_index.
  destruct (decide (i < s_len s)); [|done].
  by destruct (arr_get (aarr h) (s_arr s) !! (s_off s + i)).
Qed.

Lemma ip_attr_set_index s i x :
  outside_slice (rb R) s -> inv_post (isolated R h0) (fun _ => True) (attr_set_index s i x).
Proof.
  intros [Hlc Hs] h Hh. unfold attr_set_index.
  destruct (decide (i < s_len s)) as [Hi|Hi]; [|done].
  split; [|done]. destruct Hs as [Hz|Ho]; [lia|].
  unfold arr_set. by apply isolated_set_aarr.
Qed.

Lemma ip_attr_make n : inv_post (isolated R h0) (outside_slice (rb R)) (attr_make n).
Proof.
  intros h Hh. unfold attr_make. destruct n as [|n].
  - split; [done|]. apply outside_emptySlice.
  - split; [by apply isolated_new_aarr|].
    split; simpl; [lia|]. right. by apply isolated_fresh_aarr.
Qed.

Lemma ip_attr_literal xs : inv_post (isolated R h0) (outside_slice (rb R)) (attr_literal xs).
Proof.
  intros h Hh. unfold attr_literal. destruct xs as [|x xs].
  - split; [done|]. apply outside_emptySlice.
  - split; [by apply isolated_new_aarr|].
    split; simpl; [lia|]. right. by apply isolated_fresh_aarr.
Qed.

Lemma ip_read {A} (rd : Heap -> A) : inv_post (isolated R h0) (fun _ => True) (fun h => Ret (rd h) h).
Proof. intros h Hh. done. Qed.

End Isolation.

(** *** The operations of the package *)

Section Ops.
Variable R : Region.
Variable h0 : Heap.

Lemma set_Child_outside s nd :
  outside_slice (ra R) s -> fields_outside R nd -> fields_outside R (set_Child s nd).
Proof. intros Hs (H1 & H2 & H3). split; [|split]; done. Qed.

Lemma set_Attr_outside s nd :
  outside_slice (rb R) s -> fields_outside R nd -> fields_outside R (set_Attr s nd).
Proof. intros Hs (H1 & H2 & H3). split; [|split]; done. Qed.

Lemma ModifyAttrib_clean key val : clean R h0 (ModifyAttrib key val).
Proof.
  intros n Hn. unfold ModifyAttrib.
  eapply ip_bind; [by apply ip_load|]. intros nd (Hp & Hc & Ha).
  eapply ip_bind.
  { apply ip_foldM. intros found i.
    eapply ip_bind; [apply ip_attr_index|]. intros attr _.
    destruct (String.eqb (Key attr) key); [|by apply ip_ret].
    eapply ip_bind; [by apply ip_load|]. intros nd1 (_ & _ & Ha1).
    eapply ip_bind; [|intros; by apply ip_ret].
    unfold attr_set_val. eapply ip_bind; [apply ip_attr_index|].
    intros a _. by apply ip_attr_set_index. }
  intros found _. destruct (negb found); [|by apply ip_ret].
  eapply ip_bind; [by apply ip_load|]. intros nd2 _.
  eapply ip_bind; [apply ip_attr_make|]. intros newAttr Hna.
  eapply ip_bind; [by apply ip_load|]. intros nd3 _.
  eapply ip_bind; [by apply ip_attr_set_index|]. intros _ _.
  apply ip_store; [done|]. intros nd'. by apply set_Attr_outside.
Qed.

Lemma RemoveChildren_clean : clean R h0 RemoveChildren.
Proof.
  intros n Hn. unfold RemoveChildren.
  eapply ip_bind; [by apply ip_load|]. intros _ _.
  eapply ip_bind; [apply ip_make|]. intros s Hs.
  apply ip_store; [done|]. intros nd'. by apply set_Child_outside.
Qed.

Lemma ReplaceChildren_clean ns : outside_slice (ra R) ns -> clean R h0 (ReplaceChildren ns).
Proof.
  intros Hns n Hn. unfold ReplaceChildren.
  apply ip_store; [done|]. intros nd'. by apply set_Child_outside.
Qed.

Lemma AppendChildren_clean cs : outside_slice (ra R) cs -> clean R h0 (AppendChildren cs).
Proof.
  intros Hcs n Hn. unfold AppendChildren.
  eapply ip_bind; [by apply ip_load|]. intros nd (Hp & Hc & Ha).
  eapply ip_bind; [apply ip_make|]. intros newChild Hnc.
  eapply ip_bind; [by apply ip_copy|]. intros _ _.
  eapply ip_bind; [by apply ip_reslice|]. intros tl Htl.
  eapply ip_bind; [by apply ip_copy|]. intros _ _.
  apply ip_store; [done|]. intros nd'. by apply set_Child_outside.
Qed.

Lemma PrependChildren_clean cs : outside_slice (ra R) cs -> clean R h0 (PrependChildren cs).
Proof.
  intros Hcs n Hn. unfold PrependChildren.
  eapply ip_bind; [by apply ip_load|]. intros nd (Hp & Hc & Ha).
  eapply ip_bind; [apply ip_make|]. intros newChild Hnc.
  eapply ip_bind; [by apply ip_reslice|]. intros tl Htl.
  eapply ip_bind; [by apply ip_copy|]. intros _ _.
  eapply ip_bind; [by apply ip_reslice|]. intros hd Hhd.
  eapply ip_bind; [by apply ip_copy|]. intros _ _.
  apply ip_store; [done|]. intros nd'. by apply set_Child_outside.
Qed.

Section WithGrowth.
Variable g : nat -> nat -> nat.

Lemma splice_isolated ns p i :
  outside_slice (ra R) ns -> outside_ref R p ->
  inv_post (isolated R h0) (fun _ => True) (splice g ns p i).
Proof.
  intros Hns Hp. unfold splice.
  eapply ip_bind; [by apply ip_load|]. intros pn1 (_ & Hc1 & _).
  eapply ip_bind; [by apply ip_reslice|]. intros pre Hpre.
  eapply ip_bind; [by apply ip_load|]. intros pn2 (_ & Hc2 & _).
  eapply ip_bind; [by apply ip_reslice|]. intros post Hpost.
  eapply ip_bind; [by apply ip_append|]. intros newChild Hnc.
  eapply ip_bind; [by apply ip_append|]. intros r Hr.
  apply ip_store; [done|]. intros nd'. by apply set_Child_outside.
Qed.

Lemma Replace_clean ns : outside_slice (ra R) ns -> clean R h0 (Replace g ns).
Proof.
  intros Hns n Hn. unfold Replace.
  eapply ip_bind; [by apply ip_load|]. intros nd (Hp & _ & _).
  eapply ip_bind; [by apply ip_load|]. intros pn (_ & Hc & _).
  unfold range. apply ip_forM_. intros i _.
  eapply ip_bind; [by apply ip_index|]. intros c _.
  destruct (ref_eqb c n); [by apply splice_isolated|by apply ip_ret].
Qed.

Lemma DoAll_clean fs : Forall (clean R h0) fs -> clean R h0 (DoAll fs).
Proof.
  intros Hfs n Hn. unfold DoAll. apply ip_forM_. intros f Hf.
  eapply Forall_forall in Hfs; [|exact Hf]. by apply Hfs.
Qed.

(** The model of [cloneNode] keeps the copy outside the region whatever
    it copies. *)
Lemma cloneNode_rec_isolated d : forall n parent,
  outside_ref R parent ->
  inv_post (isolated R h0) (outside_ref R) (cloneNode_rec d n parent).
Proof.
  induction d as [|d IH]; intros n parent Hp; [apply ip_panic|].
  cbn [cloneNode_rec].
  eapply ip_bind; [apply ip_load_any|]. intros nd _.
  eapply ip_bind; [apply (ip_read R h0 (fun h => attrs h (Attr nd)))|]. intros at_ _.
  eapply ip_bind; [apply ip_attr_literal|]. intros newAttr Hna.
  eapply ip_bind; [apply ip_new_node; split; [done|split; [apply outside_emptySlice|done]]|].
  intros c Hc.
  eapply ip_bind; [apply (ip_read R h0 (fun h => elems h (Child nd)))|]. intros cs _.
  eapply ip_bind; [apply ip_mapM; intros k _; by apply IH|]. intros kids Hkids.
  eapply ip_bind; [by apply ip_variadic|]. intros s Hs.
  eapply ip_bind; [|intros; by apply ip_ret].
  apply ip_store; [done|]. intros nd'. by apply set_Child_outside.
Qed.

Lemma cloneNode_isolated n parent :
  outside_ref R parent ->
  inv_post (isolated R h0) (outside_ref R) (cloneNode n parent).
Proof. intros Hp h Hh. unfold cloneNode. by apply cloneNode_rec_isolated. Qed.

Lemma CopyAnd_clean fns : Forall (clean R h0) fns -> clean R h0 (CopyAnd g fns).
Proof.
  intros Hfns n Hn. unfold CopyAnd.
  eapply ip_bind; [apply ip_make|]. intros newNodes Hnn.
  eapply ip_bind; [|intros; by apply Replace_clean].
  apply ip_forM_. intros [i fn] Hin.
  apply elem_of_lookup_imap in Hin as (i' & fn' & E & Hfn). injection E as -> ->.
  apply list_elem_of_lookup_2 in Hfn.
  eapply Forall_forall in Hfns; [|exact Hfn].
  eapply ip_bind; [by apply ip_load|]. intros nd (Hp & _ & _).
  eapply ip_bind; [by apply cloneNode_isolated|]. intros node Hnode.
  eapply ip_bind; [by apply Hfns|]. intros _ _.
  by apply ip_set_index.
Qed.

(** The operation [ForEach] builds from one of the package's variadic
    constructors. *)
Lemma ForEach_clean (prim : Slice -> TransformFunc) ns :
  (forall s, outside_slice (ra R) s -> clean R h0 (prim s)) ->
  outside_slice (ra R) ns ->
  inv_post (isolated R h0) (clean R h0) (ForEach (VariadicFunc (fun s => ret (prim s))) ns).
Proof.
  intros Hprim Hns. cbn [ForEach]. apply ip_ret.
  intros n Hn. unfold range. apply ip_forM_. intros i _.
  eapply ip_bind; [by apply ip_index|]. intros n2 Hn2.
  eapply ip_bind; [apply ip_variadic; by constructor|]. intros args Hargs.
  eapply ip_bind; [apply (ip_ret _ (clean R h0)); by apply Hprim|]. intros f2 Hf2.
  by apply Hf2.
Qed.

End WithGrowth.

(** Every node of a tree whose root is outside the region is outside the
    region. *)
Lemma reachable_outside h r n :
  isolated R h0 h -> outside_ref R r -> reachable h r n -> outside_ref R n.
Proof.
  intros Hh Hr Hreach. induction Hreach as [|a nd c _ IH Hnd Hc]; [done|].
  apply (elems_outside R h0 h (Child nd)); [done| |done].
  destruct Hh as (_ & _ & A1 & _). by destruct (A1 a nd Hnd IH) as (_ & ? & _).
Qed.

Lemma Apply_isolated Query t f sel :
  query_in_tree Query -> outside_ref R (Top (doc t)) -> clean R h0 f ->
  inv_post (isolated R h0) (fun t' => t' = t) (Apply Query t f sel).
Proof.
  intros HQ Ht Hf. unfold Apply.
  eapply (ip_bind _ (Forall (outside_ref R))).
  { intros h Hh. split; [done|]. apply Forall_forall. intros n Hn.
    eapply reachable_outside; [done|done|]. by eapply HQ. }
  intros ns Hns.
  eapply ip_bind; [|intros; by apply ip_ret].
  apply ip_forM_. intros n Hn. apply Hf. by eapply Forall_forall in Hns.
Qed.

End Ops.

(** *** Call expressions and chains of Apply calls *)

Lemma node_constructor_clean g R h0 prim s :
  node_constructor g prim -> outside_slice (ra R) s -> clean R h0 (prim s).
Proof.
  intros [] Hs.
  - by apply AppendChildren_clean.
  - by apply PrependChildren_clean.
  - by apply ReplaceChildren_clean.
  - by apply Replace_clean.
Qed.

Lemma library_call_clean g R h0 :
  forall mk, library_call g R mk -> inv_post (isolated R h0) (clean R h0) mk.
Proof.
  fix IH 2. intros mk H.
  destruct H as [key val| |prim s Hp Hs|prim xs Hp Hxs|calls Hc|calls Hc|prim xs Hp Hxs].
  - apply ip_ret, ModifyAttrib_clean.
  - apply ip_ret, RemoveChildren_clean.
  - apply ip_ret. by apply (node_constructor_clean g).
  - eapply ip_bind; [by apply ip_variadic|]. intros s Hs.
    apply ip_ret. by apply (node_constructor_clean g).
  - eapply ip_bind; [|intros fs Hfs; apply ip_ret; by apply DoAll_clean].
    apply ip_mapM. intros c Hin.
    assert (HF : Forall (fun c => inv_post (isolated R h0) (clean R h0) c) calls).
    { clear Hin. revert calls Hc. fix IHl 2. intros calls Hc.
      destruct Hc as [|c' calls' H1 H2]; constructor; [by apply IH|by apply IHl]. }
    by eapply Forall_forall in HF.
  - eapply ip_bind; [|intros fs Hfs; apply ip_ret; by apply CopyAnd_clean].
    apply ip_mapM. intros c Hin.
    assert (HF : Forall (fun c => inv_post (isolated R h0) (clean R h0) c) calls).
    { clear Hin. revert calls Hc. fix IHl 2. intros calls Hc.
      destruct Hc as [|c' calls' H1 H2]; constructor; [by apply IH|by apply IHl]. }
    by eapply Forall_forall in HF.
  - eapply ip_bind; [by apply ip_variadic|]. intros ns Hns.
    apply ForEach_clean; [|done]. intros s Hs. by apply (node_constructor_clean g).
Qed.

Lemma apply_calls_isolated g Query R h0 calls : forall t,
  query_in_tree Query ->
  outside_ref R (Top (doc t)) ->
  Forall (fun c => library_call g R (fst c)) calls ->
  inv_post (isolated R h0) (fun _ => True) (apply_calls Query t calls).
Proof.
  induction calls as [|[mk sel] calls IH]; intros t HQ Ht Hc; cbn [apply_calls].
  - by apply ip_ret.
  - apply Forall_cons in Hc as [H1 H2]. simpl in H1.
    eapply ip_bind; [by eapply library_call_clean|]. intros f Hf.
    eapply ip_bind; [by apply Apply_isolated|]. intros t1 ->.
    by apply IH.
Qed.

Lemma walk_reachable h sel r depth : forall n x,
  reachable h r n -> x ∈ walk depth h sel n -> reachable h r x.
Proof.
  induction depth as [|depth IH]; intros n x Hn Hx; simpl in Hx.
  { by apply elem_of_nil in Hx. }
  destruct n as [a|]; [|by apply elem_of_nil in Hx].
  destruct (nodes h !! a) as [nd|] eqn:E; [|by apply elem_of_nil in Hx].
  apply elem_of_app in Hx as [Hx|Hx].
  - destruct (existsb _ sel); [|by apply elem_of_nil in Hx].
    apply list_elem_of_singleton in Hx. by subst x.
  - apply list_elem_of_In, in_flat_map in Hx as (c & Hc & Hx).
    apply list_elem_of_In in Hc, Hx.
    eapply IH; [|exact Hx]. by eapply reach_child.
Qed.

Lemma tagQuery_in_tree : query_in_tree tagQuery.
Proof.
  intros h d sel n Hn. unfold tagQuery in Hn.
  eapply walk_reachable; [|exact Hn]. constructor.
Qed.

(** The storage of the region holds what it held. *)
Lemma kept_content R rk h0 d h a :
  source_tree R rk h0 d -> kept R h0 h -> rn R a = true ->
  nodes h !! a = nodes h0 !! a
  /\ children h a = children h0 a
  /\ attributes h a = attributes h0 a.
Proof.
  intros (_ & _ & Hn) (K1 & K2 & K3) Ha.
  destruct (Hn a Ha) as (nd & Hnd & [_ Hc] & [_ Hat] & _).
  pose proof (K1 a Ha) as E. split; [done|].
  unfold children, attributes. rewrite E, Hnd.
  split.
  - unfold elems, window. destruct Hc as [Hz|Hin]; [by rewrite Hz|].
    unfold arr_get. by rewrite (K2 _ Hin).
  - unfold attrs, window. destruct Hat as [Hz|Hin]; [by rewrite Hz|].
    unfold arr_get. by rewrite (K3 _ Hin).
Qed.

Lemma isolated_start R rk h0 d :
  source_tree R rk h0 d -> apart R h0 -> isolated R h0 h0.
Proof. intros (Hal & _) Hap. split; [done|]. split; [|done]. by repeat split. Qed.

(** *** The copy made by cloneNode *)

Lemma NoDup_bounded_length (P : list nat) N :
  NoDup P -> (forall p, p ∈ P -> p < N) -> length P <= N.
Proof.
  intros Hnd Hb. rewrite <- (length_seq N 0).
  apply submseteq_length, NoDup_submseteq; [done|].
  intros p Hp. apply elem_of_seq. specialize (Hb p Hp). lia.
Qed.

Lemma extends_agrees m h h' : extends h h' -> agrees_from m h h'.
Proof.
  intros (H1 & H2 & H3). split; [|done].
  intros b nd _ Hb. by eapply prefix_lookup_Some.
Qed.

Lemma agrees_from_trans m m' h1 h2 h3 :
  m' <= m -> agrees_from m h1 h2 -> agrees_from m' h2 h3 -> agrees_from m h1 h3.
Proof.
  intros Hm (A1 & A2 & A3) (B1 & B2 & B3). split; [|split; by etrans].
  intros b nd Hb H. apply B1; [lia|]. by apply A1.
Qed.

Section CloneTree.
Variable R : Region.
Variable rk : nat -> nat.
Variable h0 : Heap.
Variable d0 : Document.
Hypothesis Htree : source_tree R rk h0 d0.

Lemma source_node a :
  rn R a = true -> exists nd,
    nodes h0 !! a = Some nd
    /\ wf_slice (narr h0) (Child nd) /\ wf_slice (aarr h0) (Attr nd)
    /\ forall c, c ∈ elems h0 (Child nd) ->
         exists b, c = Some b /\ rn R b = true /\ rk b < rk a.
Proof.
  intros Ha. destruct Htree as (_ & _ & H).
  destruct (H a Ha) as (nd & H1 & [H2 _] & [H3 _] & H4). by exists nd.
Qed.

Lemma cloneNode_rec_copy fuel : forall a parent h P,
  rn R a = true ->
  extends h0 h ->
  NoDup P ->
  (forall p, p ∈ P -> p < length (nodes h0) /\ rk a < rk p) ->
  length (nodes h0) < fuel + length P ->
  exists c h',
    cloneNode_rec fuel (Some a) parent h = Ret (Some c) h'
    /\ extends h h'
    /\ length (nodes h) <= c
    /\ forall h'', agrees_from c h' h'' ->
         forall k, is_copy k h0 h'' parent (Some a) (Some c).
Proof.
  induction fuel as [|fuel IH]; intros a parent h P Ha Hh HP Hrk Hfuel.
  { exfalso. assert (length P <= length (nodes h0)); [|simpl in Hfuel; lia].
    apply NoDup_bounded_length; [done|]. intros p Hp. by apply Hrk. }
  destruct (source_node a Ha) as (nd & Hnd & Hwc & Hwa & Hkids).
  assert (HaP : length (a :: P) <= length (nodes h0)).
  { apply NoDup_bounded_length.
    - constructor; [|done]. intros Hin. apply Hrk in Hin. lia.
    - intros p Hp. apply elem_of_cons in Hp as [->|Hp]; [by eapply lookup_lt_Some|by apply Hrk]. }
  simpl in HaP.
  destruct Hh as (E1 & E2 & E3).
  cbn [cloneNode_rec].
  erewrite bind_Ret by (apply load_Some; by eapply prefix_lookup_Some).
  erewrite bind_Ret by reflexivity.
  assert (Hat : attrs h (Attr nd) = attrs h0 (Attr nd)) by (by apply window_wf_prefix).
  rewrite Hat.
  (* the attribute array of the copy *)
  assert (exists newAttr h1,
            attr_literal (attrs h0 (Attr nd)) h = Ret newAttr h1
            /\ nodes h1 = nodes h /\ narr h1 = narr h
            /\ aarr h `prefix_of` aarr h1
            /\ wf_slice (aarr h1) newAttr
            /\ attrs h1 newAttr = attrs h0 (Attr nd)) as (newAttr & h1 & EL & N1 & R1 & B1 & W1 & A1).
  { unfold attr_literal. destruct (attrs h0 (Attr nd)) as [|x xs] eqn:EX.
    - eexists _, _. split; [reflexivity|]. repeat split; try done. simpl. lia.
    - eexists _, _. split; [reflexivity|]. hsimpl.
      split; [done|]. split; [done|]. split; [by apply prefix_app_r'|].
      split.
      + split; hsimpl; [lia|]. rewrite arr_get_app_new. simpl. lia.
      + unfold attrs. rewrite window_whole. hsimpl. rewrite arr_get_app_new. by rewrite take_ge. }
  erewrite bind_Ret by exact EL.
  erewrite bind_Ret by reflexivity.
  set (c := length (nodes h1)).
  set (ndc := mkNode parent emptySlice (Type_ nd) (Data nd) newAttr).
  set (h2 := with_nodes (nodes h1 ++ [ndc]) h1).
  erewrite bind_Ret by reflexivity.
  assert (Hcs : elems h2 (Child nd) = elems h0 (Child nd)).
  { unfold elems, h2. hsimpl. rewrite R1. by apply window_wf_prefix. }
  rewrite Hcs.
  assert (H02 : extends h0 h2).
  { unfold h2. repeat split; hsimpl.
    - rewrite N1. by apply prefix_app_r'.
    - by rewrite R1.
    - by etrans. }
  (* the children *)
  assert (Hmap : forall cs hx,
            extends h0 hx ->
            (forall x, x ∈ cs -> exists b, x = Some b /\ rn R b = true /\ rk b < rk a) ->
            exists kids hx',
              mapM (fun k => cloneNode_rec fuel k (Some c)) cs hx = Ret kids hx'
              /\ extends hx hx'
              /\ Forall2 (fun x y => exists cj, y = Some cj /\ length (nodes hx) <= cj
                            /\ forall h'', agrees_from cj hx' h'' ->
                                 forall k, is_copy k h0 h'' (Some c) x y) cs kids).
  { induction cs as [|x cs IHcs]; intros hx Hx Hall.
    - eexists _, _. split; [reflexivity|]. split; [apply extends_refl|constructor].
    - destruct (Hall x ltac:(left)) as (b & -> & Hb & Hlt).
      destruct (IH b (Some c) hx (a :: P) Hb Hx) as (cj & hx1 & Ecl & Ex1 & Hcj & Hcopy).
      { constructor; [|done]. intros Hin. apply Hrk in Hin. lia. }
      { intros p Hp. apply elem_of_cons in Hp as [->|Hp].
        - split; [by eapply lookup_lt_Some|done].
        - destruct (Hrk p Hp). split; [done|lia]. }
      { simpl. lia. }
      destruct (IHcs hx1) as (kids & hx' & Emap & Ex' & HF).
      { by eapply extends_trans. }
      { intros y Hy. apply Hall. by right. }
      cbn [mapM]. erewrite bind_Ret by exact Ecl.
      erewrite bind_Ret by exact Emap.
      eexists _, _. split; [reflexivity|]. split; [by eapply extends_trans|].
      constructor.
      + exists cj. split; [done|]. split; [done|].
        intros h'' Hag k. apply Hcopy.
        eapply agrees_from_trans; [|by apply extends_agrees|exact Hag]. lia.
      + eapply Forall2_impl; [exact HF|].
        intros x y (cy & -> & Hcy & Hy). exists cy. split; [done|].
        split; [|done]. pose proof (extends_nodes_length _ _ Ex1). lia. }
  destruct (Hmap (elems h0 (Child nd)) h2 H02 Hkids) as (kids & h3 & Emap & E23 & HF).
  erewrite bind_Ret by exact Emap.
  (* the child array of the copy *)
  assert (exists s h4,
            variadic kids h3 = Ret s h4
            /\ nodes h4 = nodes h3 /\ aarr h4 = aarr h3
            /\ narr h3 `prefix_of` narr h4
            /\ wf_slice (narr h4) s
            /\ elems h4 s = kids) as (s & h4 & EV & N4 & B4 & R4 & W4 & K4).
  { unfold variadic. destruct kids as [|y ys] eqn:EK.
    - eexists _, _. split; [reflexivity|]. repeat split; try done. simpl. lia.
    - eexists _, _. split; [reflexivity|]. hsimpl.
      split; [done|]. split; [done|]. split; [by apply prefix_app_r'|].
      split.
      + split; hsimpl; [lia|]. rewrite arr_get_app_new. simpl. lia.
      + unfold elems. rewrite window_whole. hsimpl. rewrite arr_get_app_new. by rewrite take_ge. }
  erewrite bind_Ret by exact EV.
  assert (Hc2 : nodes h2 !! c = Some ndc).
  { unfold h2, c. hsimpl. rewrite lookup_app_r by lia. by rewrite Nat.sub_diag. }
  destruct E23 as (F1 & F2 & F3).
  assert (Hc4 : nodes h4 !! c = Some ndc).
  { rewrite N4. by eapply prefix_lookup_Some. }
  erewrite bind_Ret by (by apply store_Some).
  set (h5 := with_nodes _ h4).
  assert (N2 : nodes h2 = nodes h1 ++ [ndc]) by done.
  assert (R2 : narr h2 = narr h1) by done.
  assert (B2 : aarr h2 = aarr h1) by done.
  exists c, h5. split; [reflexivity|]. split; [|split].
  - unfold h5. repeat split; hsimpl.
    + apply prefix_insert_ge; [|unfold c; rewrite N1; lia].
      rewrite N4. etrans; [|exact F1]. rewrite N2, N1. by apply prefix_app_r'.
    + etrans; [|exact R4]. etrans; [|exact F2]. by rewrite R2, R1.
    + rewrite B4. etrans; [|exact F3]. by rewrite B2.
  - unfold c. rewrite N1. lia.
  - intros h'' (G1 & G2 & G3) k. destruct k as [|k]; [done|].
    cbn [is_copy]. exists nd, (set_Child s ndc).
    assert (Hc5 : nodes h5 !! c = Some (set_Child s ndc)).
    { unfold h5. hsimpl. apply list_lookup_insert_eq. by eapply lookup_lt_Some. }
    assert (P15 : aarr h1 `prefix_of` aarr h'').
    { etrans; [|exact G3]. unfold h5. hsimpl. rewrite B4. by rewrite <- B2. }
    assert (P45 : narr h4 `prefix_of` narr h'') by done.
    split; [done|]. split; [by apply G1|].
    split; [done|]. split; [done|]. split; [done|].
    split; [by eapply wf_slice_prefix|].
    split; [unfold attrs; rewrite (window_wf_prefix (aarr h1)); done|].
    split; [by eapply wf_slice_prefix|].
    cbn [Child set_Child].
    assert (Hel : elems h'' s = kids).
    { unfold elems. rewrite (window_wf_prefix (narr h4)); done. }
    rewrite Hel.
    eapply Forall2_impl; [exact HF|].
    intros x y (cy & -> & Hcy & Hy). apply Hy.
    assert (Hlt : c < cy). { rewrite N2, length_app in Hcy. simpl in Hcy. unfold c. lia. }
    split; [|split].
    + intros b ndb Hb Hndb. apply G1; [lia|].
      unfold h5. hsimpl. rewrite list_lookup_insert_ne by lia. by rewrite N4.
    + by etrans.
    + unfold h5 in G3. hsimpl. by rewrite <- B4.
Qed.

End CloneTree.

(** *** The sample list as a source document *)

Lemma list_source_tree : source_tree list_region list_rank list_heap list_doc.
Proof.
  split; [|split].
  - split; [|split]; intros a Ha; vm_compute in Ha.
    + do 8 (destruct a as [|a]; [vm_compute; lia|]). discriminate Ha.
    + destruct a as [|a]; [vm_compute; lia|discriminate Ha].
    + destruct a as [|a]; [vm_compute; lia|discriminate Ha].
  - exists 0. by split.
  - intros a Ha.
    destruct a as [|[|[|[|[|[|[|[|a]]]]]]]]; try discriminate Ha.
    all: eexists; split; [reflexivity|].
    all: split; [split; [split; vm_compute; lia|vm_compute; tauto]|].
    all: split; [split; [split; vm_compute; lia|vm_compute; tauto]|].
    all: intros c Hc; vm_compute in Hc.
    all: repeat (apply elem_of_cons in Hc as [->|Hc];
                 [eexists; split; [reflexivity|]; split; [reflexivity|vm_compute; lia]|]).
    all: by apply elem_of_nil in Hc.
Qed.

Lemma list_apart : apart list_region list_heap.
Proof.
  split.
  - intros a nd Hnd Ha.
    do 8 (destruct a as [|a];
          [first [discriminate Ha
                 |injection Hnd as <-; split; [done|split; split; simpl; try lia; by left]]|]).
    discriminate Hnd.
  - intros l A c HA Hl Hc.
    do 4 (destruct l as [|l];
          [first [discriminate Hl
                 |injection HA as <-;
                  repeat (apply elem_of_cons in Hc as [->|Hc]; [reflexivity|]);
                  by apply elem_of_nil in Hc]|]).
    discriminate HA.
Qed.

(** * The specification, claim by claim *)

(** C6. [AppendChildren(c1..cn)] applied to a node sets its child
    sequence to the old children followed by [c1..cn], and
    [PrependChildren(c1..cn)] sets it to [c1..cn] followed by the old
    children. *)
Theorem AppendChildren_PrependChildren_order h a nd cs :
  nodes h !! a = Some nd ->
  wf_slice (narr h) (Child nd) ->
  wf_slice (narr h) cs ->
  (exists h', AppendChildren cs (Some a) h = Ret tt h'
     /\ children h' a = children h a ++ elems h cs)
  /\ (exists h', PrependChildren cs (Some a) h = Ret tt h'
     /\ children h' a = elems h cs ++ children h a).
Proof.
  intros Hnd Hwf Hcs. split.
  - by eapply AppendChildren_spec.
  - by eapply PrependChildren_spec.
Qed.

Lemma AppendChildren_PrependChildren_witness :
  (exists h', AppendChildren args2 (Some 0) list_heap = Ret tt h'
     /\ children h' 0 = [Some 1; Some 2; Some 3] ++ [Some 4; Some 5])
  /\ (exists h', PrependChildren args2 (Some 0) list_heap = Ret tt h'
     /\ children h' 0 = [Some 4; Some 5] ++ [Some 1; Some 2; Some 3]).
Proof.
  apply (AppendChildren_PrependChildren_order list_heap 0
           (element "ul" None (mkSlice 0 0 3 3) emptySlice) args2).
  - reflexivity.
  - split; vm_compute; lia.
  - split; vm_compute; lia.
Defined.

(** C9. [RemoveChildren()] is idempotent: applied once it leaves the
    node with an empty child sequence and changes nothing else in the
    store; applied again it leaves the store exactly as it is. *)
Theorem RemoveChildren_idempotent h a nd :
  nodes h !! a = Some nd ->
  exists h1,
    RemoveChildren (Some a) h = Ret tt h1
    /\ children h1 a = []
    /\ h1 = with_nodes (<[a := set_Child emptySlice nd]> (nodes h)) h
    /\ RemoveChildren (Some a) h1 = Ret tt h1.
Proof.
  intros Hnd.
  assert (Ha : a < length (nodes h)) by (by eapply lookup_lt_Some).
  eexists. split; [by apply RemoveChildren_eq|].
  split; [|split; [done|]].
  - unfold children. hsimpl. by rewrite list_lookup_insert_eq.
  - erewrite RemoveChildren_eq by (hsimpl; by apply list_lookup_insert_eq).
    hsimpl. unfold with_nodes. hsimpl. by rewrite list_insert_insert_eq.
Qed.

Lemma RemoveChildren_idempotent_witness :
  exists h1,
    RemoveChildren (Some 0) list_heap = Ret tt h1
    /\ children h1 0 = []
    /\ h1 = with_nodes (<[0 := set_Child emptySlice (element "ul" None (mkSlice 0 0 3 3) emptySlice)]>
                          (nodes list_heap)) list_heap
    /\ RemoveChildren (Some 0) h1 = Ret tt h1.
Proof. apply (RemoveChildren_idempotent list_heap 0). reflexivity. Defined.

(** C10. [Replace(n1..nk)] applied to a node whose parent exists but
    does not list the node among its children returns normally and
    leaves the whole store unchanged. *)
Theorem Replace_absent_node_ignored g ns a nd p pn h :
  nodes h !! a = Some nd ->
  Parent nd = Some p ->
  nodes h !! p = Some pn ->
  wf_slice (narr h) (Child pn) ->
  Some a ∉ elems h (Child pn) ->
  Replace g ns (Some a) h = Ret tt h.
Proof. apply Replace_no_match. Qed.

Lemma Replace_absent_node_ignored_witness :
  Replace exact_fit args2 (Some 7) list_heap = Ret tt list_heap.
Proof.
  apply (Replace_absent_node_ignored exact_fit args2 7
           (element "li" (Some 0) emptySlice emptySlice) 0
           (element "ul" None (mkSlice 0 0 3 3) emptySlice) list_heap).
  - reflexivity.
  - reflexivity.
  - reflexivity.
  - split; vm_compute; lia.
  - vm_compute. intros H. repeat (apply elem_of_cons in H as [H|H]; [discriminate H|]).
    by apply elem_of_nil in H.
Defined.

(** C2 (as amended). When the node occurs in its parent's child list at
    index [i] and nowhere else, and the replacements do not run over the
    retained tail, [Replace(n1..nk)] makes the parent's child list the
    first [max(i-1, 0)] old children, then [n1..nk], then the old
    children from index [i+1] on: the node and the sibling before it
    are dropped, the sibling after it is kept. *)
Theorem Replace_splices_before_previous g ns a nd p pn i h :
  nodes h !! a = Some nd ->
  Parent nd = Some p ->
  nodes h !! p = Some pn ->
  wf_slice (narr h) (Child pn) ->
  children h p !! i = Some (Some a) ->
  (forall j, children h p !! j = Some (Some a) -> j = i) ->
  no_overrun (s_cap (Child pn)) (s_len (Child pn)) i (length (elems h ns)) ->
  exists h', Replace g ns (Some a) h = Ret tt h'
    /\ children h' p = take (i - 1) (children h p) ++ elems h ns
                        ++ drop (i + 1) (children h p).
Proof.
  intros Ha Hpar Hp Hwf. rewrite (children_Some _ _ _ Hp). intros Hi Huniq Hno.
  destruct (Replace_spec g ns a nd p pn i h Ha Hpar Hp Hwf Hi Huniq Hno)
    as (r & h' & E & Hn & _ & Hel).
  exists h'. split; [done|].
  unfold children. rewrite Hn.
  rewrite list_lookup_insert_eq by (by eapply lookup_lt_Some). done.
Qed.

Lemma Replace_splices_before_previous_witness :
  exists h', Replace exact_fit args2 (Some 2) list_heap = Ret tt h'
    /\ children h' 0 = [] ++ [Some 4; Some 5] ++ [Some 3].
Proof.
  apply (Replace_splices_before_previous exact_fit args2 2
           (element "li" (Some 0) emptySlice (mkSlice 0 0 1 1)) 0
           (element "ul" None (mkSlice 0 0 3 3) emptySlice) 1 list_heap).
  - reflexivity.
  - reflexivity.
  - reflexivity.
  - split; vm_compute; lia.
  - reflexivity.
  - intros [|[|[|j]]] H; vm_compute in H; try discriminate H; reflexivity.
  - right. left. vm_compute. lia.
Defined.

(** Two runs on the list 1, 2, 3 against C2 as stated.  Replacing item
    2 by one node keeps item 3, the element after the replaced one.
    Replacing item 2 by three nodes writes them over the cell of item 3
    before the tail is read, so the result ends in a second copy of the
    last replacement and not in item 3. *)
Lemma Replace_keeps_successor_and_overruns_tail :
  (exists h', Replace exact_fit args1 (Some 2) list_heap = Ret tt h'
     /\ children h' 0 = [Some 4; Some 3])
  /\ (exists h', Replace exact_fit args3 (Some 2) list_heap = Ret tt h'
     /\ children h' 0 = [Some 4; Some 5; Some 6; Some 6]
     /\ children h' 0 <> take (1 - 1) (children list_heap 0) ++ elems list_heap args3
                          ++ drop (1 + 1) (children list_heap 0)).
Proof.
  split.
  - eexists. split; [vm_compute; reflexivity|]. reflexivity.
  - eexists. split; [vm_compute; reflexivity|]. split; [reflexivity|].
    vm_compute. discriminate.
Qed.

(** C1. On a node none of whose attributes has the key,
    [ModifyAttrib(key, val)] leaves an attribute list of the old length
    plus one whose last entry is [{key, val}] and whose other entries
    are all the zero [Attribute]: the old entries are not copied. *)
Theorem ModifyAttrib_absent_key_zeroes_attributes key val a nd h :
  nodes h !! a = Some nd ->
  wf_slice (aarr h) (Attr nd) ->
  (forall x, x ∈ attributes h a -> Key x <> key) ->
  exists h', ModifyAttrib key val (Some a) h = Ret tt h'
    /\ attributes h' a
       = replicate (length (attributes h a)) zeroAttr ++ [mkAttr key val].
Proof.
  intros Hnd Hwf Hno.
  destruct (ModifyAttrib_spec key val a nd h Hnd Hwf) as (h' & nd' & E & _ & _ & _ & Hat).
  exists h'. split; [done|]. rewrite Hat.
  destruct (existsb (key_matches key) (attributes h a)) eqn:Ex; [|done].
  apply existsb_exists in Ex as (x & Hin & Hk).
  exfalso. apply (Hno x); [by apply list_elem_of_In|].
  by apply String.eqb_eq.
Qed.

Lemma ModifyAttrib_absent_key_zeroes_attributes_witness :
  exists h', ModifyAttrib "id" "z" (Some 2) list_heap = Ret tt h'
    /\ attributes h' 2 = replicate 1 zeroAttr ++ [mkAttr "id" "z"].
Proof.
  apply (ModifyAttrib_absent_key_zeroes_attributes "id" "z" 2
           (element "li" (Some 0) emptySlice (mkSlice 0 0 1 1)) list_heap).
  - reflexivity.
  - split; vm_compute; lia.
  - intros x H. vm_compute in H. apply list_elem_of_singleton in H. subst x.
    vm_compute. discriminate.
Defined.

(** C7. [DoAll(f1..fn)] applied to a node is [f1], then [f2], ..., then
    [fn] applied to that same node, each on the store the one before
    left; so after [DoAll] of [ModifyAttrib(key, x)] and
    [ModifyAttrib(key, y)] the node has an attribute with the key, and
    every attribute with the key has the value [y]. *)
Theorem DoAll_applies_in_order fs n h :
  DoAll fs n h = in_order (fun f : TransformFunc => f n) fs h
  /\ forall key x y a nd h1,
       nodes h1 !! a = Some nd ->
       wf_slice (aarr h1) (Attr nd) ->
       exists h',
         DoAll [ModifyAttrib key x; ModifyAttrib key y] (Some a) h1 = Ret tt h'
         /\ (exists e, e ∈ attributes h' a /\ Key e = key)
         /\ (forall e, e ∈ attributes h' a -> Key e = key -> Val e = y).
Proof.
  split; [apply DoAll_in_order|].
  intros key x y a nd h1 Hnd Hwf.
  rewrite DoAll_in_order. unfold in_order. simpl.
  destruct (ModifyAttrib_present key x a nd h1 Hnd Hwf) as (h2 & nd2 & E1 & Hnd2 & Hwf2 & Hex).
  rewrite E1. simpl.
  destruct (ModifyAttrib_spec key y a nd2 h2 Hnd2 Hwf2) as (h3 & nd3 & E2 & _ & _ & _ & Hat).
  rewrite E2. rewrite Hex in Hat.
  exists h3. split; [done|]. rewrite Hat. split.
  - apply existsb_exists in Hex as (e & Hin & Hk).
    exists (set_val key y e). split.
    + apply list_elem_of_In. by apply in_map.
    + rewrite set_val_key. by apply String.eqb_eq.
  - intros e He Hk. apply list_elem_of_In, in_map_iff in He as (e0 & <- & _).
    rewrite set_val_key in Hk. by apply set_val_sets.
Qed.

Lemma DoAll_applies_in_order_witness :
  DoAll [RemoveChildren; AppendChildren args2] (Some 0) list_heap
  = in_order (fun f : TransformFunc => f (Some 0)) [RemoveChildren; AppendChildren args2] list_heap
  /\ exists h',
       DoAll [ModifyAttrib "class" "X"; ModifyAttrib "class" "Y"] (Some 2) list_heap = Ret tt h'
       /\ (exists e, e ∈ attributes h' 2 /\ Key e = "class"%string)
       /\ (forall e, e ∈ attributes h' 2 -> Key e = "class"%string -> Val e = "Y"%string).
Proof.
  destruct (DoAll_applies_in_order [RemoveChildren; AppendChildren args2] (Some 0) list_heap)
    as [H1 H2].
  split; [exact H1|].
  apply (H2 "class"%string "X"%string "Y"%string 2
           (element "li" (Some 0) emptySlice (mkSlice 0 0 1 1)) list_heap).
  - reflexivity.
  - split; vm_compute; lia.
Defined.

(** C8 (as amended).  [ForEach] called with a value that is neither a
    unary nor a variadic node function panics, returning no operation
    and leaving the store as it is.  Called with a function of either
    shape it returns an operation which, applied to a target node, runs
    over the argument slice in index order and, for the auxiliary node
    it reads there when its turn comes, builds the function's operation
    for that node and applies it to the target at once.  The nodes read
    are the nodes that were passed, in their order, when the applied
    operations leave the elements of the argument slice alone. *)
Theorem ForEach_dispatches_on_shape ns n h h1 :
  (forall t, ForEach (OtherValue t) ns h = Panic WrongFuncType h)
  /\ (forall f1, exists op,
        ForEach (UnaryFunc f1) ns h = Ret op h
        /\ op n h1 = in_order (fun j => n2 <- index ns j ;; bound_unary f1 n n2)
                        (seq 0 (s_len ns)) h1
        /\ (wf_slice (narr h1) ns ->
            leaves_elems ns (elems h1 ns) (bound_unary f1 n) ->
            op n h1 = in_order (bound_unary f1 n) (elems h1 ns) h1))
  /\ (forall f1, exists op,
        ForEach (VariadicFunc f1) ns h = Ret op h
        /\ op n h1 = in_order (fun j => n2 <- index ns j ;; bound_variadic f1 n n2)
                        (seq 0 (s_len ns)) h1
        /\ (wf_slice (narr h1) ns ->
            leaves_elems ns (elems h1 ns) (bound_variadic f1 n) ->
            op n h1 = in_order (bound_variadic f1 n) (elems h1 ns) h1)).
Proof.
  split; [done|]. split.
  - intros f1. eexists. split; [reflexivity|]. split.
    + unfold range. apply forM__in_order.
    + intros Hwf Hst. pose proof (window_length _ _ Hwf) as Hlen.
      by apply (range_stable ns (elems h1 ns) (bound_unary f1 n)).
  - intros f1. eexists. split; [reflexivity|]. split.
    + unfold range. apply forM__in_order.
    + intros Hwf Hst. pose proof (window_length _ _ Hwf) as Hlen.
      by apply (range_stable ns (elems h1 ns) (bound_variadic f1 n)).
Qed.

Lemma ForEach_dispatches_on_shape_witness :
  ForEach (OtherValue "int") args2 list_heap = Panic WrongFuncType list_heap
  /\ exists op,
       ForEach (VariadicFunc (fun s => ret (AppendChildren s))) args2 list_heap = Ret op list_heap
       /\ op (Some 0) list_heap
          = in_order (bound_variadic (fun s => ret (AppendChildren s)) (Some 0))
              [Some 4; Some 5] list_heap.
Proof.
  destruct (ForEach_dispatches_on_shape args2 (Some 0) list_heap list_heap) as (H1 & _ & H3).
  split; [apply H1|].
  destruct (H3 (fun s => ret (AppendChildren s))) as (op & E & _ & Hop).
  exists op. split; [exact E|].
  apply Hop.
  - split; vm_compute; lia.
  - by apply AppendChildren_leaves_elems.
Defined.

(** Against C8 as stated: the items 1, 2, 3 of the list are passed as
    the child slice of the list itself, and the operation built for an
    item puts the paragraphs 4 and 5 in its place.  The first round
    writes 4 and 5 over the cells of items 1 and 2, so the second round
    reads paragraph 5 where item 2 was passed, and the operation built
    for it panics, paragraph 5 having no parent: the list is left with
    the children 4, 5, 5, 3.  Building and applying the operations for
    the nodes that were passed, 1, 2, 3 in order, returns and leaves
    the children 4, 5, 4, 5. *)
Lemma ForEach_reads_rewritten_argument_slice :
  elems list_heap list_items = [Some 1; Some 2; Some 3]
  /\ exists op,
       ForEach (UnaryFunc put_pair_for) list_items list_heap = Ret op list_heap
       /\ (exists h', op (Some 7) list_heap = Panic NilDeref h'
              /\ children h' 0 = [Some 4; Some 5; Some 5; Some 3])
       /\ (exists h', in_order (bound_unary put_pair_for (Some 7))
                        [Some 1; Some 2; Some 3] list_heap = Ret tt h'
              /\ children h' 0 = [Some 4; Some 5; Some 4; Some 5]).
Proof.
  split; [reflexivity|].
  eexists. split; [reflexivity|]. split.
  - eexists. split; [vm_compute; reflexivity|]. reflexivity.
  - eexists. split; [vm_compute; reflexivity|]. reflexivity.
Qed.

(** C4. [t.Apply(f, s1..sk)] queries the current tree of [t], applies
    [f] to the matches in the order the query returned them, on the
    store as the previous application left it, and returns [t]; with no
    match it returns [t] and leaves the store unchanged. *)
Theorem Apply_runs_query_then_operation Query t f sel h :
  Apply Query t f sel h
  = match in_order f (Query h (doc t) sel) h with
    | Ret _ h' => Ret t h'
    | Panic k h' => Panic k h'
    end
  /\ (Query h (doc t) sel = [] -> Apply Query t f sel h = Ret t h).
Proof.
  assert (E : Apply Query t f sel h
              = match in_order f (Query h (doc t) sel) h with
                | Ret _ h' => Ret t h'
                | Panic k h' => Panic k h'
                end).
  { unfold Apply. erewrite bind_Ret by reflexivity.
    rewrite <- forM__in_order. unfold bind, ret.
    by destruct (forM_ _ _ h) as [[] h1|k h1]. }
  split; [exact E|].
  intros Hq. rewrite E, Hq. done.
Qed.

Lemma Apply_runs_query_then_operation_witness :
  Apply tagQuery (mkTransformer page) RemoveChildren ["table"%string] page_heap
  = Ret (mkTransformer page) page_heap.
Proof.
  apply (Apply_runs_query_then_operation tagQuery (mkTransformer page) RemoveChildren
           ["table"%string] page_heap).
  reflexivity.
Defined.




(** C3. [CopyAnd(f1, f2, f3)] on item 2 of the list 1, 2, 3: the three
    copies 8, 9, 10 are made with the list as their parent and each is
    changed by its own operation, but the list ends with four children,
    one more than before and not two: items 1 and 3 are gone and the
    third copy occurs twice. *)
Theorem CopyAnd_three_on_middle_child g :
  exists h',
    CopyAnd g [ModifyAttrib "class" "a"; ModifyAttrib "class" "b"; ModifyAttrib "class" "c"]
      (Some 2) list_heap = Ret tt h'
    /\ children list_heap 0 = [Some 1; Some 2; Some 3]
    /\ children h' 0 = [Some 8; Some 9; Some 10; Some 10]
    /\ length (children h' 0) = length (children list_heap 0) + 1
    /\ Parent <$> nodes h' !! 8 = Some (Some 0)
    /\ attributes h' 8 = [mkAttr "class" "a"]
    /\ attributes h' 9 = [mkAttr "class" "b"]
    /\ attributes h' 10 = [mkAttr "class" "c"]
    /\ attributes h' 2 = [mkAttr "class" "x"].
Proof.
  eexists. split; [vm_compute; reflexivity|].
  repeat split; reflexivity.
Qed.

(** * Further properties of the package *)

(** ** Frames of AppendChildren and PrependChildren *)

Lemma AppendChildren_frame h a nd cs :
  nodes h !! a = Some nd ->
  exists s' h',
    AppendChildren cs (Some a) h = Ret tt h'
    /\ nodes h' = <[a := set_Child s' nd]> (nodes h)
    /\ aarr h' = aarr h
    /\ narr h `prefix_of` narr h'
    /\ wf_slice (narr h') s'.
Proof.
  intros Hnd. unfold AppendChildren.
  erewrite bind_Ret by (by apply load_Some).
  destruct (decide (s_len (Child nd) + s_len cs = 0)) as [Hm|Hm].
  - rewrite Hm. erewrite bind_Ret by apply make_0.
    erewrite bind_Ret by apply copy_eq.
    erewrite bind_Ret by (apply reslice_ok; simpl; lia).
    erewrite bind_Ret by apply copy_eq.
    cbn [emptySlice s_arr s_off s_len s_cap].
    rewrite Nat.sub_0_l, !take_0, !arr_write_nil, !with_narr_id.
    rewrite (store_Some _ _ _ _ Hnd).
    eexists _, _. split; [reflexivity|]. hsimpl.
    split; [done|]. split; [done|]. split; [done|]. apply wf_emptySlice.
  - erewrite bind_Ret by (by apply make_pos).
    erewrite bind_Ret by apply copy_eq.
    erewrite bind_Ret by (apply reslice_ok; simpl; lia).
    erewrite bind_Ret by apply copy_eq.
    hsimpl. erewrite store_Some by (hsimpl; exact Hnd).
    eexists _, _. split; [reflexivity|]. hsimpl.
    split; [done|]. split; [done|]. split.
    + apply prefix_arr_write_ge; [|done].
      apply prefix_arr_write_ge; [|done].
      by apply prefix_app_r'.
    + split; hsimpl; [done|].
      rewrite arr_write_get_length.
      * rewrite arr_write_get_length.
        -- rewrite arr_get_app_new, length_replicate. lia.
        -- rewrite arr_get_app_new, length_replicate, length_take. lia.
      * rewrite arr_write_get_length.
        -- rewrite arr_get_app_new, length_replicate, length_take. lia.
        -- rewrite arr_get_app_new, length_replicate, length_take. lia.
Qed.

Lemma PrependChildren_frame h a nd cs :
  nodes h !! a = Some nd ->
  exists s' h',
    PrependChildren cs (Some a) h = Ret tt h'
    /\ nodes h' = <[a := set_Child s' nd]> (nodes h)
    /\ aarr h' = aarr h
    /\ narr h `prefix_of` narr h'
    /\ wf_slice (narr h') s'.
Proof.
  intros Hnd. unfold PrependChildren.
  erewrite bind_Ret by (by apply load_Some).
  destruct (decide (s_len (Child nd) + s_len cs = 0)) as [Hm|Hm].
  - rewrite Hm. erewrite bind_Ret by apply make_0.
    unfold slice_from.
    erewrite bind_Ret by (apply reslice_ok; simpl; lia).
    erewrite bind_Ret by apply copy_eq.
    erewrite bind_Ret by (apply reslice_ok; simpl; lia).
    erewrite bind_Ret by apply copy_eq.
    cbn [emptySlice s_arr s_off s_len s_cap].
    replace (s_len cs - 0) with 0 by lia.
    rewrite ?Nat.sub_0_l, !take_0, !arr_write_nil, !with_narr_id.
    rewrite (store_Some _ _ _ _ Hnd).
    eexists _, _. split; [reflexivity|]. hsimpl.
    split; [done|]. split; [done|]. split; [done|]. apply wf_emptySlice.
  - erewrite bind_Ret by (by apply make_pos).
    unfold slice_from.
    erewrite bind_Ret by (apply reslice_ok; simpl; lia).
    erewrite bind_Ret by apply copy_eq.
    erewrite bind_Ret by (apply reslice_ok; simpl; lia).
    erewrite bind_Ret by apply copy_eq.
    hsimpl. erewrite store_Some by (hsimpl; exact Hnd).
    eexists _, _. split; [reflexivity|]. hsimpl.
    split; [done|]. split; [done|]. split.
    + apply prefix_arr_write_ge; [|done].
      apply prefix_arr_write_ge; [|done].
      by apply prefix_app_r'.
    + split; hsimpl; [done|].
      rewrite arr_write_get_length.
      * rewrite arr_write_get_length.
        -- rewrite arr_get_app_new, length_replicate. lia.
        -- rewrite arr_get_app_new, length_replicate, length_take. lia.
      * rewrite arr_write_get_length.
        -- rewrite arr_get_app_new, length_replicate, length_take. lia.
        -- rewrite arr_get_app_new, length_replicate, length_take. lia.
Qed.

Lemma AppendChildren_full h a nd cs :
  nodes h !! a = Some nd ->
  wf_slice (narr h) (Child nd) ->
  wf_slice (narr h) cs ->
  exists s' h',
    AppendChildren cs (Some a) h = Ret tt h'
    /\ nodes h' = <[a := set_Child s' nd]> (nodes h)
    /\ aarr h' = aarr h
    /\ narr h `prefix_of` narr h'
    /\ wf_slice (narr h') s'
    /\ elems h' s' = elems h (Child nd) ++ elems h cs.
Proof.
  intros Hnd Hwf Hcs.
  destruct (AppendChildren_frame h a nd cs Hnd) as (s' & h' & E & Hn & Ha & Hp & Hw).
  destruct (AppendChildren_spec h a nd cs Hnd Hwf Hcs) as (h'' & E' & Hch).
  rewrite E in E'. injection E' as <-.
  exists s', h'. repeat (split; [done|]).
  rewrite (children_Some _ _ _ Hnd) in Hch. rewrite <- Hch.
  unfold children. rewrite Hn, list_lookup_insert_eq by (by eapply lookup_lt_Some). done.
Qed.

Lemma PrependChildren_full h a nd cs :
  nodes h !! a = Some nd ->
  wf_slice (narr h) (Child nd) ->
  wf_slice (narr h) cs ->
  exists s' h',
    PrependChildren cs (Some a) h = Ret tt h'
    /\ nodes h' = <[a := set_Child s' nd]> (nodes h)
    /\ aarr h' = aarr h
    /\ narr h `prefix_of` narr h'
    /\ wf_slice (narr h') s'
    /\ elems h' s' = elems h cs ++ elems h (Child nd).
Proof.
  intros Hnd Hwf Hcs.
  destruct (PrependChildren_frame h a nd cs Hnd) as (s' & h' & E & Hn & Ha & Hp & Hw).
  destruct (PrependChildren_spec h a nd cs Hnd Hwf Hcs) as (h'' & E' & Hch).
  rewrite E in E'. injection E' as <-.
  exists s', h'. repeat (split; [done|]).
  rewrite (children_Some _ _ _ Hnd) in Hch. rewrite <- Hch.
  unfold children. rewrite Hn, list_lookup_insert_eq by (by eapply lookup_lt_Some). done.
Qed.

Lemma elems_wf_prefix h h' s :
  wf_slice (narr h) s -> narr h `prefix_of` narr h' -> elems h' s = elems h s.
Proof.
  intros Hwf Hp. eapply elems_prefix; [done| |done].
  unfold elems. by apply window_length.
Qed.

(** What a store that differs from [h] in the [Child] header of one
    node and in added arrays leaves as it was. *)
Lemma child_update_frame h h' a nd s' :
  nodes h !! a = Some nd ->
  nodes h' = <[a := set_Child s' nd]> (nodes h) ->
  aarr h' = aarr h ->
  narr h `prefix_of` narr h' ->
  (forall b, Parent <$> nodes h' !! b = Parent <$> nodes h !! b)
  /\ (forall b, b <> a -> nodes h' !! b = nodes h !! b)
  /\ (forall b, attributes h' b = attributes h b)
  /\ (forall s, wf_slice (narr h) s -> elems h' s = elems h s).
Proof.
  intros Hnd Hn Ha Hp.
  assert (Hlt : a < length (nodes h)) by (by eapply lookup_lt_Some).
  split; [|split; [|split]].
  - intros b. rewrite Hn. destruct (decide (b = a)) as [->|Hne].
    + by rewrite list_lookup_insert_eq, Hnd.
    + by rewrite list_lookup_insert_ne.
  - intros b Hne. rewrite Hn. by rewrite list_lookup_insert_ne.
  - intros b. unfold attributes, attrs. rewrite Hn, Ha.
    destruct (decide (b = a)) as [->|Hne].
    + by rewrite list_lookup_insert_eq, Hnd.
    + by rewrite list_lookup_insert_ne.
  - intros s Hs. by apply elems_wf_prefix.
Qed.

(** X1. [AppendChildren] and [PrependChildren] applied to an existing
    node always return, and change nothing but that node's child list:
    the node store after the call is the old one with the [Child]
    header of that node replaced (its parent, kind, tag and attribute
    header are the old ones, and no other node object is written), the
    attribute arrays are the old ones, and the arrays of child
    references are the old ones followed by added ones.  So no [Parent]
    reference is written (the added children keep the parent they had),
    every attribute list is as before, and every slice of the old
    store, the argument slice included, keeps its elements. *)
Theorem AppendChildren_PrependChildren_touch_only_child_list h a nd cs :
  nodes h !! a = Some nd ->
  (exists s' h', AppendChildren cs (Some a) h = Ret tt h'
     /\ nodes h' = <[a := set_Child s' nd]> (nodes h)
     /\ aarr h' = aarr h
     /\ narr h `prefix_of` narr h'
     /\ (forall b, Parent <$> nodes h' !! b = Parent <$> nodes h !! b)
     /\ (forall b, b <> a -> nodes h' !! b = nodes h !! b)
     /\ (forall b, attributes h' b = attributes h b)
     /\ (forall s, wf_slice (narr h) s -> elems h' s = elems h s))
  /\ (exists s' h', PrependChildren cs (Some a) h = Ret tt h'
     /\ nodes h' = <[a := set_Child s' nd]> (nodes h)
     /\ aarr h' = aarr h
     /\ narr h `prefix_of` narr h'
     /\ (forall b, Parent <$> nodes h' !! b = Parent <$> nodes h !! b)
     /\ (forall b, b <> a -> nodes h' !! b = nodes h !! b)
     /\ (forall b, attributes h' b = attributes h b)
     /\ (forall s, wf_slice (narr h) s -> elems h' s = elems h s)).
Proof.
  intros Hnd. split.
  - destruct (AppendChildren_frame h a nd cs Hnd) as (s' & h' & E & Hn & Ha & Hp & _).
    exists s', h'. do 4 (split; [done|]). by eapply child_update_frame.
  - destruct (PrependChildren_frame h a nd cs Hnd) as (s' & h' & E & Hn & Ha & Hp & _).
    exists s', h'. do 4 (split; [done|]). by eapply child_update_frame.
Qed.

Lemma AppendChildren_PrependChildren_touch_only_child_list_witness :
  exists s' h', AppendChildren args2 (Some 0) list_heap = Ret tt h'
     /\ nodes h' = <[0 := set_Child s' (element "ul" None (mkSlice 0 0 3 3) emptySlice)]>
                     (nodes list_heap)
     /\ aarr h' = aarr list_heap
     /\ narr list_heap `prefix_of` narr h'
     /\ (forall b, Parent <$> nodes h' !! b = Parent <$> nodes list_heap !! b)
     /\ (forall b, b <> 0 -> nodes h' !! b = nodes list_heap !! b)
     /\ (forall b, attributes h' b = attributes list_heap b)
     /\ (forall s, wf_slice (narr list_heap) s -> elems h' s = elems list_heap s).
Proof.
  apply (AppendChildren_PrependChildren_touch_only_child_list list_heap 0
           (element "ul" None (mkSlice 0 0 3 3) emptySlice) args2).
  reflexivity.
Defined.

(** ** Compositions of the child-list primitives *)

Lemma DoAll_pair (f g : TransformFunc) n h h1 h2 :
  f n h = Ret tt h1 -> g n h1 = Ret tt h2 -> DoAll [f; g] n h = Ret tt h2.
Proof.
  intros Ef Eg. rewrite DoAll_in_order. unfold in_order. simpl. by rewrite Ef.
Qed.

Lemma children_after_update h1 a nd s1 h :
  nodes h !! a = Some nd ->
  nodes h1 = <[a := set_Child s1 nd]> (nodes h) ->
  nodes h1 !! a = Some (set_Child s1 nd) /\ children h1 a = elems h1 s1.
Proof.
  intros Hnd Hn.
  assert (Hl : nodes h1 !! a = Some (set_Child s1 nd)).
  { rewrite Hn. apply list_lookup_insert_eq. by eapply lookup_lt_Some. }
  split; [done|]. by rewrite (children_Some _ _ _ Hl).
Qed.

(** [AppendChildren] and [PrependChildren] as a second step, on a node
    whose child list an earlier step has set to a slice [s1]. *)
Lemma AppendChildren_next h h1 a nd s1 cs :
  nodes h1 !! a = Some (set_Child s1 nd) ->
  narr h `prefix_of` narr h1 ->
  wf_slice (narr h1) s1 ->
  wf_slice (narr h) cs ->
  exists h2, AppendChildren cs (Some a) h1 = Ret tt h2
    /\ children h2 a = elems h1 s1 ++ elems h cs.
Proof.
  intros Hl Hp Hw1 Hcs.
  destruct (AppendChildren_spec h1 a _ cs Hl Hw1 (wf_slice_prefix _ _ _ Hcs Hp))
    as (h2 & E & Hch).
  exists h2. split; [done|].
  rewrite Hch, (children_Some _ _ _ Hl). cbn [Child set_Child]. by rewrite (elems_wf_prefix h h1 cs).
Qed.

Lemma PrependChildren_next h h1 a nd s1 cs :
  nodes h1 !! a = Some (set_Child s1 nd) ->
  narr h `prefix_of` narr h1 ->
  wf_slice (narr h1) s1 ->
  wf_slice (narr h) cs ->
  exists h2, PrependChildren cs (Some a) h1 = Ret tt h2
    /\ children h2 a = elems h cs ++ elems h1 s1.
Proof.
  intros Hl Hp Hw1 Hcs.
  destruct (PrependChildren_spec h1 a _ cs Hl Hw1 (wf_slice_prefix _ _ _ Hcs Hp))
    as (h2 & E & Hch).
  exists h2. split; [done|].
  rewrite Hch, (children_Some _ _ _ Hl). cbn [Child set_Child]. by rewrite (elems_wf_prefix h h1 cs).
Qed.

(** X2. Appending and prepending compose as on lists: two appends add
    [c1] then [c2] at the tail, two prepends put [c2] before [c1] at
    the head, and an append and a prepend give the same child list in
    either order. *)
Theorem AppendChildren_PrependChildren_compose h a nd c1 c2 :
  nodes h !! a = Some nd ->
  wf_slice (narr h) (Child nd) ->
  wf_slice (narr h) c1 ->
  wf_slice (narr h) c2 ->
  (exists h', DoAll [AppendChildren c1; AppendChildren c2] (Some a) h = Ret tt h'
     /\ children h' a = children h a ++ elems h c1 ++ elems h c2)
  /\ (exists h', DoAll [PrependChildren c1; PrependChildren c2] (Some a) h = Ret tt h'
     /\ children h' a = elems h c2 ++ elems h c1 ++ children h a)
  /\ (exists h', DoAll [PrependChildren c1; AppendChildren c2] (Some a) h = Ret tt h'
     /\ children h' a = elems h c1 ++ children h a ++ elems h c2)
  /\ (exists h', DoAll [AppendChildren c2; PrependChildren c1] (Some a) h = Ret tt h'
     /\ children h' a = elems h c1 ++ children h a ++ elems h c2).
Proof.
  intros Hnd Hwf H1 H2. rewrite (children_Some _ _ _ Hnd).
  destruct (AppendChildren_full h a nd c1 Hnd Hwf H1) as (sa & ha & Ea & Hna & _ & Hpa & Hwa & Hela).
  destruct (AppendChildren_full h a nd c2 Hnd Hwf H2) as (sb & hb & Eb & Hnb & _ & Hpb & Hwb & Helb).
  destruct (PrependChildren_full h a nd c1 Hnd Hwf H1) as (sp & hp & Ep & Hnp & _ & Hpp & Hwp & Help).
  destruct (children_after_update ha a nd sa h Hnd Hna) as [Hla _].
  destruct (children_after_update hb a nd sb h Hnd Hnb) as [Hlb _].
  destruct (children_after_update hp a nd sp h Hnd Hnp) as [Hlp _].
  split; [|split; [|split]].
  - destruct (AppendChildren_next h ha a nd sa c2 Hla Hpa Hwa H2) as (h2 & E2 & Hch).
    exists h2. split; [by eapply DoAll_pair|]. by rewrite Hch, Hela, <- app_assoc.
  - destruct (PrependChildren_next h hp a nd sp c2 Hlp Hpp Hwp H2) as (h2 & E2 & Hch).
    exists h2. split; [by eapply DoAll_pair|]. by rewrite Hch, Help.
  - destruct (AppendChildren_next h hp a nd sp c2 Hlp Hpp Hwp H2) as (h2 & E2 & Hch).
    exists h2. split; [by eapply DoAll_pair|]. by rewrite Hch, Help, <- app_assoc.
  - destruct (PrependChildren_next h hb a nd sb c1 Hlb Hpb Hwb H1) as (h2 & E2 & Hch).
    exists h2. split; [by eapply DoAll_pair|]. by rewrite Hch, Helb.
Qed.

Lemma AppendChildren_PrependChildren_compose_witness :
  (exists h', DoAll [AppendChildren args1; AppendChildren args2] (Some 0) list_heap = Ret tt h'
     /\ children h' 0 = [Some 1; Some 2; Some 3] ++ [Some 4] ++ [Some 4; Some 5])
  /\ (exists h', DoAll [PrependChildren args1; PrependChildren args2] (Some 0) list_heap = Ret tt h'
     /\ children h' 0 = [Some 4; Some 5] ++ [Some 4] ++ [Some 1; Some 2; Some 3])
  /\ (exists h', DoAll [PrependChildren args1; AppendChildren args2] (Some 0) list_heap = Ret tt h'
     /\ children h' 0 = [Some 4] ++ [Some 1; Some 2; Some 3] ++ [Some 4; Some 5])
  /\ (exists h', DoAll [AppendChildren args2; PrependChildren args1] (Some 0) list_heap = Ret tt h'
     /\ children h' 0 = [Some 4] ++ [Some 1; Some 2; Some 3] ++ [Some 4; Some 5]).
Proof.
  apply (AppendChildren_PrependChildren_compose list_heap 0
           (element "ul" None (mkSlice 0 0 3 3) emptySlice) args1 args2).
  - reflexivity.
  - split; vm_compute; lia.
  - split; vm_compute; lia.
  - split; vm_compute; lia.
Defined.

(** X3. Clearing or replacing the child list and then appending:
    [RemoveChildren] followed by [AppendChildren(c1..cn)] leaves exactly
    [c1..cn]; [ReplaceChildren(ns)] followed by [AppendChildren(cs)]
    leaves [ns] then [cs], in an array of the node's own, the elements
    of the argument slice [ns] being left as they were; and
    [ReplaceChildren] as the last step discards what the step before it
    built. *)
Theorem ReplaceChildren_RemoveChildren_then_append h a nd ns cs :
  nodes h !! a = Some nd ->
  wf_slice (narr h) (Child nd) ->
  wf_slice (narr h) ns ->
  wf_slice (narr h) cs ->
  (exists h', DoAll [RemoveChildren; AppendChildren cs] (Some a) h = Ret tt h'
     /\ children h' a = elems h cs)
  /\ (exists h', DoAll [ReplaceChildren ns; AppendChildren cs] (Some a) h = Ret tt h'
     /\ children h' a = elems h ns ++ elems h cs
     /\ elems h' ns = elems h ns)
  /\ (exists h', DoAll [AppendChildren cs; ReplaceChildren ns] (Some a) h = Ret tt h'
     /\ children h' a = elems h ns).
Proof.
  intros Hnd Hwf Hns Hcs.
  assert (Hlt : a < length (nodes h)) by (by eapply lookup_lt_Some).
  split; [|split].
  - pose proof (RemoveChildren_eq h a nd Hnd) as E1.
    set (h1 := with_nodes (<[a := set_Child emptySlice nd]> (nodes h)) h) in *.
    assert (Hl : nodes h1 !! a = Some (set_Child emptySlice nd))
      by (unfold h1; hsimpl; by apply list_lookup_insert_eq).
    destruct (AppendChildren_next h h1 a nd emptySlice cs Hl) as (h2 & E2 & Hch);
      [done|apply wf_emptySlice|done|].
    exists h2. split; [by eapply DoAll_pair|]. by rewrite Hch.
  - assert (E1 : ReplaceChildren ns (Some a) h
                 = Ret tt (with_nodes (<[a := set_Child ns nd]> (nodes h)) h))
      by (by apply store_Some).
    set (h1 := with_nodes (<[a := set_Child ns nd]> (nodes h)) h) in *.
    assert (Hl : nodes h1 !! a = Some (set_Child ns nd))
      by (unfold h1; hsimpl; by apply list_lookup_insert_eq).
    destruct (AppendChildren_frame h1 a _ cs Hl) as (s2 & h2 & E2 & Hn2 & _ & Hp2 & _).
    destruct (AppendChildren_next h h1 a nd ns cs Hl) as (h2' & E2' & Hch); [done..|].
    rewrite E2 in E2'. injection E2' as <-.
    exists h2. split; [by eapply DoAll_pair|]. split; [done|].
    by apply (elems_wf_prefix h1 h2).
  - destruct (AppendChildren_frame h a nd cs Hnd) as (s1 & h1 & E1 & Hn1 & _ & Hp1 & _).
    destruct (children_after_update h1 a nd s1 h Hnd Hn1) as [Hl1 _].
    pose proof (store_Some h1 a _ (set_Child ns) Hl1) as E2.
    eexists. split; [eapply DoAll_pair; [exact E1|exact E2]|].
    unfold children. hsimpl.
    rewrite list_lookup_insert_eq by (by eapply lookup_lt_Some). simpl.
    by apply (elems_wf_prefix h h1).
Qed.

Lemma ReplaceChildren_RemoveChildren_then_append_witness :
  (exists h', DoAll [RemoveChildren; AppendChildren args2] (Some 0) list_heap = Ret tt h'
     /\ children h' 0 = [Some 4; Some 5])
  /\ (exists h', DoAll [ReplaceChildren args1; AppendChildren args2] (Some 0) list_heap = Ret tt h'
     /\ children h' 0 = [Some 4] ++ [Some 4; Some 5]
     /\ elems h' args1 = [Some 4])
  /\ (exists h', DoAll [AppendChildren args2; ReplaceChildren args1] (Some 0) list_heap = Ret tt h'
     /\ children h' 0 = [Some 4]).
Proof.
  apply (ReplaceChildren_RemoveChildren_then_append list_heap 0
           (element "ul" None (mkSlice 0 0 3 3) emptySlice) args1 args2).
  - reflexivity.
  - split; vm_compute; lia.
  - split; vm_compute; lia.
  - split; vm_compute; lia.
Defined.

(** ** ForEach over the child-list primitives *)

Lemma PrependChildren_narr_prefix cs n h :
  narr h `prefix_of` narr (final_heap (PrependChildren cs n h)).
Proof.
  destruct n as [a|]; [|done].
  destruct (nodes h !! a) as [nd|] eqn:Hnd.
  - destruct (PrependChildren_frame h a nd cs Hnd) as (s' & h' & E & _ & _ & Hp & _).
    by rewrite E.
  - unfold PrependChildren, bind, load. by rewrite Hnd.
Qed.

Lemma PrependChildren_leaves_elems ns X n :
  length X = s_len ns ->
  leaves_elems ns X (bound_variadic (fun s => ret (PrependChildren s)) n).
Proof.
  intros Hlen c hx HX. unfold bound_variadic.
  erewrite bind_Ret by reflexivity.
  erewrite bind_Ret by reflexivity.
  eapply elems_prefix; [exact HX|done|].
  etrans; [|apply PrependChildren_narr_prefix].
  hsimpl. by apply prefix_app_r'.
Qed.

(** One round of [ForEach] over [AppendChildren] or [PrependChildren]:
    the call site wraps the auxiliary node [c] in a slice of its own. *)
Lemma bound_AppendChildren_step h a nd c :
  nodes h !! a = Some nd ->
  wf_slice (narr h) (Child nd) ->
  exists s' h',
    bound_variadic (fun s => ret (AppendChildren s)) (Some a) c h = Ret tt h'
    /\ nodes h' !! a = Some (set_Child s' nd)
    /\ wf_slice (narr h') s'
    /\ elems h' s' = elems h (Child nd) ++ [c].
Proof.
  intros Hnd Hwf. unfold bound_variadic.
  erewrite bind_Ret by reflexivity.
  erewrite bind_Ret by reflexivity.
  set (h0 := with_narr (narr h ++ [[c]]) h).
  destruct (AppendChildren_full h0 a nd (mkSlice (length (narr h)) 0 1 1))
    as (s' & h' & E & Hn & _ & _ & Hw & Hel).
  - done.
  - by apply wf_slice_app.
  - split; simpl; [lia|]. rewrite arr_get_app_new. simpl. lia.
  - exists s', h'. split; [done|].
    split; [rewrite Hn; apply list_lookup_insert_eq; by eapply lookup_lt_Some|].
    split; [done|]. rewrite Hel. unfold elems, h0. hsimpl.
    rewrite (window_app _ _ (Child nd)) by done. f_equal.
    rewrite window_whole, arr_get_app_new. done.
Qed.

Lemma bound_PrependChildren_step h a nd c :
  nodes h !! a = Some nd ->
  wf_slice (narr h) (Child nd) ->
  exists s' h',
    bound_variadic (fun s => ret (PrependChildren s)) (Some a) c h = Ret tt h'
    /\ nodes h' !! a = Some (set_Child s' nd)
    /\ wf_slice (narr h') s'
    /\ elems h' s' = [c] ++ elems h (Child nd).
Proof.
  intros Hnd Hwf. unfold bound_variadic.
  erewrite bind_Ret by reflexivity.
  erewrite bind_Ret by reflexivity.
  set (h0 := with_narr (narr h ++ [[c]]) h).
  destruct (PrependChildren_full h0 a nd (mkSlice (length (narr h)) 0 1 1))
    as (s' & h' & E & Hn & _ & _ & Hw & Hel).
  - done.
  - by apply wf_slice_app.
  - split; simpl; [lia|]. rewrite arr_get_app_new. simpl. lia.
  - exists s', h'. split; [done|].
    split; [rewrite Hn; apply list_lookup_insert_eq; by eapply lookup_lt_Some|].
    split; [done|]. rewrite Hel. unfold elems, h0. hsimpl.
    rewrite (window_app _ _ (Child nd)) by done. f_equal.
    rewrite window_whole, arr_get_app_new. done.
Qed.

Lemma in_order_AppendChildren a X : forall h nd,
  nodes h !! a = Some nd ->
  wf_slice (narr h) (Child nd) ->
  exists h',
    in_order (bound_variadic (fun s => ret (AppendChildren s)) (Some a)) X h = Ret tt h'
    /\ children h' a = elems h (Child nd) ++ X.
Proof.
  induction X as [|c X IH]; intros h nd Hnd Hwf.
  - exists h. split; [done|]. by rewrite (children_Some _ _ _ Hnd), app_nil_r.
  - destruct (bound_AppendChildren_step h a nd c Hnd Hwf) as (s' & h1 & E & Hl & Hw & Hel).
    destruct (IH h1 _ Hl Hw) as (h' & E' & Hch).
    exists h'. rewrite in_order_cons, E. split; [done|].
    rewrite Hch. cbn [Child set_Child]. rewrite Hel. by rewrite <- app_assoc.
Qed.

Lemma in_order_PrependChildren a X : forall h nd,
  nodes h !! a = Some nd ->
  wf_slice (narr h) (Child nd) ->
  exists h',
    in_order (bound_variadic (fun s => ret (PrependChildren s)) (Some a)) X h = Ret tt h'
    /\ children h' a = rev X ++ elems h (Child nd).
Proof.
  induction X as [|c X IH]; intros h nd Hnd Hwf.
  - exists h. split; [done|]. by rewrite (children_Some _ _ _ Hnd).
  - destruct (bound_PrependChildren_step h a nd c Hnd Hwf) as (s' & h1 & E & Hl & Hw & Hel).
    destruct (IH h1 _ Hl Hw) as (h' & E' & Hch).
    exists h'. rewrite in_order_cons, E. split; [done|].
    rewrite Hch. cbn [Child set_Child]. rewrite Hel. simpl. by rewrite <- app_assoc.
Qed.

(** X4. [ForEach(AppendChildren, n1..nk)] applied to a node appends
    [n1..nk] to its children in order, as [AppendChildren(n1..nk)]
    does, while [ForEach(PrependChildren, n1..nk)] puts them at the head
    in reverse order, [nk..n1], each round prepending before the node
    of the round before. *)
Theorem ForEach_AppendChildren_PrependChildren ns h0 h a nd :
  nodes h !! a = Some nd ->
  wf_slice (narr h) (Child nd) ->
  wf_slice (narr h) ns ->
  (exists op h',
     ForEach (VariadicFunc (fun s => ret (AppendChildren s))) ns h0 = Ret op h0
     /\ op (Some a) h = Ret tt h'
     /\ children h' a = children h a ++ elems h ns)
  /\ (exists op h',
     ForEach (VariadicFunc (fun s => ret (PrependChildren s))) ns h0 = Ret op h0
     /\ op (Some a) h = Ret tt h'
     /\ children h' a = rev (elems h ns) ++ children h a).
Proof.
  intros Hnd Hwf Hns. rewrite (children_Some _ _ _ Hnd).
  pose proof (window_length _ _ Hns) as Hlen.
  split.
  - destruct (in_order_AppendChildren a (elems h ns) h nd Hnd Hwf) as (h' & E & Hch).
    eexists _, h'. split; [reflexivity|]. split; [|done].
    rewrite <- E.
    apply (range_stable ns (elems h ns)
             (bound_variadic (fun s => ret (AppendChildren s)) (Some a))); [done|done|].
    by apply AppendChildren_leaves_elems.
  - destruct (in_order_PrependChildren a (elems h ns) h nd Hnd Hwf) as (h' & E & Hch).
    eexists _, h'. split; [reflexivity|]. split; [|done].
    rewrite <- E.
    apply (range_stable ns (elems h ns)
             (bound_variadic (fun s => ret (PrependChildren s)) (Some a))); [done|done|].
    by apply PrependChildren_leaves_elems.
Qed.

Lemma ForEach_AppendChildren_PrependChildren_witness :
  (exists op h',
     ForEach (VariadicFunc (fun s => ret (AppendChildren s))) args3 list_heap = Ret op list_heap
     /\ op (Some 0) list_heap = Ret tt h'
     /\ children h' 0 = [Some 1; Some 2; Some 3] ++ [Some 4; Some 5; Some 6])
  /\ (exists op h',
     ForEach (VariadicFunc (fun s => ret (PrependChildren s))) args3 list_heap = Ret op list_heap
     /\ op (Some 0) list_heap = Ret tt h'
     /\ children h' 0 = [Some 6; Some 5; Some 4] ++ [Some 1; Some 2; Some 3]).
Proof.
  apply (ForEach_AppendChildren_PrependChildren args3 list_heap list_heap 0
           (element "ul" None (mkSlice 0 0 3 3) emptySlice)).
  - reflexivity.
  - split; vm_compute; lia.
  - split; vm_compute; lia.
Defined.

(** ** More on ModifyAttrib *)

Lemma set_Attr_same nd : set_Attr (Attr nd) nd = nd.
Proof. by destruct nd. Qed.

(** Where [ModifyAttrib] writes: the attribute arrays and, when the key
    is absent, the [Attr] header of the node. *)
Lemma ModifyAttrib_nodes key val a nd h :
  nodes h !! a = Some nd ->
  wf_slice (aarr h) (Attr nd) ->
  exists h' s',
    ModifyAttrib key val (Some a) h = Ret tt h'
    /\ narr h' = narr h
    /\ nodes h' = <[a := set_Attr s' nd]> (nodes h)
    /\ (existsb (key_matches key) (attributes h a) = true -> nodes h' = nodes h).
Proof.
  intros Hnd Hwf. rewrite (attributes_Some _ _ _ Hnd).
  unfold ModifyAttrib.
  erewrite bind_Ret by (by apply load_Some).
  destruct (ModifyAttrib_loop key val a nd (s_len (Attr nd)) 0 h false Hnd Hwf)
    as (h1 & E & Hn & Hna & Hla & Hwf1 & Hat); [done|].
  erewrite bind_Ret by exact E.
  rewrite drop_0 in *. simpl.
  destruct (existsb (key_matches key) (attrs h (Attr nd))) eqn:Ef; simpl.
  - exists h1, (Attr nd). unfold ret.
    split; [done|]. split; [done|]. split; [|done].
    by rewrite set_Attr_same, list_insert_id.
  - assert (Hnd1 : nodes h1 !! a = Some nd) by (by rewrite Hn).
    erewrite bind_Ret by (by apply load_Some).
    unfold attr_make. rewrite Nat.add_1_r.
    erewrite bind_Ret by reflexivity.
    erewrite bind_Ret by (apply load_Some; hsimpl; exact Hnd1).
    erewrite bind_Ret by (apply attr_set_index_ok; simpl; lia).
    unfold store. hsimpl. rewrite Hnd1.
    eexists _, _. split; [reflexivity|]. hsimpl.
    split; [done|]. split; [by rewrite Hn|done].
Qed.

Lemma set_val_set_val key x y e : set_val key y (set_val key x e) = set_val key y e.
Proof.
  unfold set_val, key_matches. destruct (String.eqb (Key e) key) eqn:Ek; simpl.
  - by rewrite Ek.
  - by rewrite Ek.
Qed.

Lemma set_val_zero key val : key <> EmptyString -> set_val key val zeroAttr = zeroAttr.
Proof.
  intros Hk. unfold set_val, key_matches. simpl.
  destruct key; [done|reflexivity].
Qed.

Lemma map_set_val_zero key val n :
  key <> EmptyString ->
  map (set_val key val) (replicate n zeroAttr) = replicate n zeroAttr.
Proof.
  intros Hk. induction n as [|n IH]; [done|].
  cbn [replicate map]. by rewrite IH, set_val_zero.
Qed.

Lemma set_val_own key x y : set_val key y (mkAttr key x) = mkAttr key y.
Proof. unfold set_val, key_matches. cbn [Key]. by rewrite String.eqb_refl. Qed.

(** X5. When some attribute of the node has the key,
    [ModifyAttrib(key, val)] sets the value of every attribute with the
    key and of no other, in place: the attribute list keeps its length
    and its keys, no entry is added, and no node object and no child
    array is written. *)
Theorem ModifyAttrib_present_key_updates_in_place key val a nd h :
  nodes h !! a = Some nd ->
  wf_slice (aarr h) (Attr nd) ->
  existsb (key_matches key) (attributes h a) = true ->
  exists h', ModifyAttrib key val (Some a) h = Ret tt h'
    /\ attributes h' a = map (set_val key val) (attributes h a)
    /\ map Key (attributes h' a) = map Key (attributes h a)
    /\ nodes h' = nodes h
    /\ narr h' = narr h.
Proof.
  intros Hnd Hwf Hex.
  destruct (ModifyAttrib_spec key val a nd h Hnd Hwf) as (h' & nd' & E & _ & _ & _ & Hat).
  destruct (ModifyAttrib_nodes key val a nd h Hnd Hwf) as (h'' & s' & E' & Hna & _ & Hn).
  rewrite E in E'. injection E' as <-.
  rewrite Hex in Hat.
  exists h'. split; [done|]. split; [done|]. split; [|split; [by apply Hn|done]].
  rewrite Hat, map_map. apply map_ext. intros e. apply set_val_key.
Qed.

Lemma ModifyAttrib_present_key_updates_in_place_witness :
  exists h', ModifyAttrib "class" "y" (Some 2) list_heap = Ret tt h'
    /\ attributes h' 2 = [mkAttr "class" "y"]
    /\ map Key (attributes h' 2) = ["class"%string]
    /\ nodes h' = nodes list_heap
    /\ narr h' = narr list_heap.
Proof.
  apply (ModifyAttrib_present_key_updates_in_place "class" "y" 2
           (element "li" (Some 0) emptySlice (mkSlice 0 0 1 1)) list_heap).
  - reflexivity.
  - split; vm_compute; lia.
  - reflexivity.
Defined.

(** X6. The last [ModifyAttrib] on a key wins: when the key is not the
    empty string, or some attribute already has it,
    [ModifyAttrib(key, x)] followed by [ModifyAttrib(key, y)] leaves the
    attribute list that [ModifyAttrib(key, y)] alone leaves; with
    [x = y], applying the operation twice is applying it once. *)
Theorem ModifyAttrib_last_value_wins key x y a nd h :
  nodes h !! a = Some nd ->
  wf_slice (aarr h) (Attr nd) ->
  key <> EmptyString \/ existsb (key_matches key) (attributes h a) = true ->
  exists h1 h2,
    ModifyAttrib key y (Some a) h = Ret tt h1
    /\ DoAll [ModifyAttrib key x; ModifyAttrib key y] (Some a) h = Ret tt h2
    /\ attributes h2 a = attributes h1 a.
Proof.
  intros Hnd Hwf Hk.
  destruct (ModifyAttrib_spec key y a nd h Hnd Hwf) as (h1 & _ & E1 & _ & _ & _ & Hat1).
  destruct (ModifyAttrib_spec key x a nd h Hnd Hwf) as (hx & ndx & Ex & Hndx & Hwfx & _ & Hatx).
  destruct (ModifyAttrib_present key x a nd h Hnd Hwf) as (hx' & _ & Ex' & _ & _ & Hex).
  rewrite Ex in Ex'. injection Ex' as <-.
  destruct (ModifyAttrib_spec key y a ndx hx Hndx Hwfx) as (h2 & _ & E2 & _ & _ & _ & Hat2).
  rewrite Hex in Hat2.
  exists h1, h2. split; [done|]. split; [by eapply DoAll_pair|].
  rewrite Hat2, Hat1, Hatx.
  destruct (existsb (key_matches key) (attributes h a)) eqn:Ef.
  - rewrite map_map. apply map_ext. intros e. apply set_val_set_val.
  - destruct Hk as [Hk|Hk]; [|done].
    rewrite map_app, map_set_val_zero by done.
    cbn [map]. by rewrite set_val_own.
Qed.

Lemma ModifyAttrib_last_value_wins_witness :
  exists h1 h2,
    ModifyAttrib "id" "z" (Some 2) list_heap = Ret tt h1
    /\ DoAll [ModifyAttrib "id" "w"; ModifyAttrib "id" "z"] (Some 2) list_heap = Ret tt h2
    /\ attributes h2 2 = attributes h1 2.
Proof.
  apply (ModifyAttrib_last_value_wins "id" "w" "z" 2
           (element "li" (Some 0) emptySlice (mkSlice 0 0 1 1)) list_heap).
  - reflexivity.
  - split; vm_compute; lia.
  - left. discriminate.
Defined.

(** X7. [ModifyAttrib] never touches the tree structure: applied to an
    existing node it returns, and afterwards every node has the parent
    reference and the child list it had. *)
Theorem ModifyAttrib_keeps_tree key val a nd h :
  nodes h !! a = Some nd ->
  wf_slice (aarr h) (Attr nd) ->
  exists h', ModifyAttrib key val (Some a) h = Ret tt h'
    /\ (forall b, Parent <$> nodes h' !! b = Parent <$> nodes h !! b)
    /\ (forall b, children h' b = children h b).
Proof.
  intros Hnd Hwf.
  destruct (ModifyAttrib_nodes key val a nd h Hnd Hwf) as (h' & s' & E & Hna & Hn & _).
  assert (Hlt : a < length (nodes h)) by (by eapply lookup_lt_Some).
  exists h'. split; [done|]. split.
  - intros b. rewrite Hn. destruct (decide (b = a)) as [->|Hne].
    + by rewrite list_lookup_insert_eq, Hnd.
    + by rewrite list_lookup_insert_ne.
  - intros b. unfold children, elems. rewrite Hn, Hna.
    destruct (decide (b = a)) as [->|Hne].
    + by rewrite list_lookup_insert_eq, Hnd.
    + by rewrite list_lookup_insert_ne.
Qed.

Lemma ModifyAttrib_keeps_tree_witness :
  exists h', ModifyAttrib "id" "z" (Some 0) list_heap = Ret tt h'
    /\ (forall b, Parent <$> nodes h' !! b = Parent <$> nodes list_heap !! b)
    /\ (forall b, children h' b = children list_heap b).
Proof.
  apply (ModifyAttrib_keeps_tree "id" "z" 0
           (element "ul" None (mkSlice 0 0 3 3) emptySlice) list_heap).
  - reflexivity.
  - split; vm_compute; lia.
Defined.

(** ** Replace, with the replacements running over the tail *)

Section ReplaceFacts.
Variable g : nat -> nat -> nat.

Lemma append_inplace s src h :
  s_len s + length (elems h src) <= s_cap s ->
  append g s src h
  = Ret (mkSlice (s_arr s) (s_off s) (s_len s + length (elems h src)) (s_cap s))
        (with_narr (arr_write (narr h) (s_arr s) (s_off s + s_len s) (elems h src)) h).
Proof. intros H. unfold append. by rewrite decide_True. Qed.

Lemma window_write_inside {T} (st : list (list T)) s n xs :
  wf_slice st s ->
  n <= s_len s ->
  n + length xs <= s_cap s ->
  window (arr_write st (s_arr s) (s_off s + n) xs) s
  = take (s_len s) (take n (window st s) ++ xs ++ drop (n + length xs) (window st s)).
Proof.
  intros Hwf Hn Hfit. pose proof (window_length _ _ Hwf) as Hlen.
  destruct Hwf as [Hlc Hin].
  assert (Htn : length (take n (window st s)) = n) by (rewrite length_take; lia).
  apply list_eq. intros q.
  destruct (decide (q < s_len s)) as [Hq|Hq].
  - rewrite window_lookup by done. rewrite arr_write_cell by lia.
    rewrite lookup_take_lt by done.
    destruct (decide (q < n)) as [Hq1|Hq1].
    + rewrite decide_False by lia.
      rewrite lookup_app_l by lia. rewrite lookup_take_lt by done.
      by rewrite window_lookup.
    + rewrite lookup_app_r by lia. rewrite Htn.
      destruct (decide (q < n + length xs)) as [Hq2|Hq2].
      * rewrite decide_True by lia.
        rewrite lookup_app_l by lia. f_equal. lia.
      * rewrite decide_False by lia.
        rewrite lookup_app_r by lia. rewrite lookup_drop.
        rewrite <- (window_lookup st s) by done. f_equal. lia.
  - rewrite window_lookup_ge by lia. symmetry. apply lookup_take_ge. lia.
Qed.

(** Past index [i] the overwritten cells hold replacements or old
    elements from past [i]. *)
Lemma overwritten_tail cap i xs old q c :
  i < q ->
  overwritten cap i xs old !! q = Some c ->
  c ∈ xs \/ old !! q = Some c.
Proof.
  intros Hq. unfold overwritten. case_decide as Hfit; [|by right].
  intros H. apply lookup_take_Some in H as [H _].
  destruct (decide (i - 1 < length old)) as [Hl|Hl].
  - assert (Htn : length (take (i - 1) old) = i - 1) by (rewrite length_take; lia).
    rewrite lookup_app_r in H by lia. rewrite Htn in H.
    destruct (decide (q - (i - 1) < length xs)) as [Hx|Hx].
    + rewrite lookup_app_l in H by done. left. by eapply list_elem_of_lookup_2.
    + rewrite lookup_app_r in H by lia. rewrite lookup_drop in H.
      right. rewrite <- H. f_equal. lia.
  - rewrite take_ge in H by lia. rewrite drop_ge in H by lia. rewrite app_nil_r in H.
    destruct (decide (q < length old)) as [Ho|Ho].
    + rewrite lookup_app_l in H by done. by right.
    + rewrite lookup_app_r in H by lia. left. by eapply list_elem_of_lookup_2.
Qed.

Lemma splice_full ns p pn i h (N : ref) :
  nodes h !! p = Some pn ->
  wf_slice (narr h) (Child pn) ->
  i < s_len (Child pn) ->
  exists r h', splice g ns (Some p) i h = Ret tt h'
    /\ nodes h' = <[p := set_Child r pn]> (nodes h)
    /\ aarr h' = aarr h
    /\ wf_slice (narr h') r
    /\ elems h' r = take (i - 1) (elems h (Child pn)) ++ elems h ns
         ++ drop (i + 1) (overwritten (s_cap (Child pn)) i (elems h ns) (elems h (Child pn)))
    /\ ((forall j, i < j -> elems h (Child pn) !! j <> Some N) ->
        N ∉ elems h ns ->
        forall j, i < j < s_len (Child pn) ->
          exists c, arr_get (narr h') (s_arr (Child pn)) !! (s_off (Child pn) + j) = Some c
                    /\ c <> N).
Proof.
  intros Hp Hwf Hi.
  set (s0 := Child pn) in *.
  pose proof (window_length _ _ Hwf) as Hlen0. fold (elems h s0) in Hlen0.
  assert (Harr : s_arr s0 < length (narr h)) by (apply wf_slice_in_store; [done|destruct Hwf; lia]).
  unfold splice. cbv zeta. rewrite pred_index.
  erewrite bind_Ret by (by apply load_Some).
  unfold slice_to, slice_from.
  erewrite bind_Ret by (apply reslice_ok; destruct Hwf; fold s0; lia).
  erewrite bind_Ret by (by apply load_Some).
  erewrite bind_Ret by (apply reslice_ok; destruct Hwf; fold s0; lia).
  fold s0. rewrite Nat.add_0_r, !Nat.sub_0_r.
  set (pre := mkSlice (s_arr s0) (s_off s0) (i - 1) (s_cap s0)).
  set (post := mkSlice (s_arr s0) (s_off s0 + (i + 1)) (s_len s0 - (i + 1)) (s_cap s0 - (i + 1))).
  assert (Hwpre : wf_slice (narr h) pre) by (destruct Hwf; split; simpl; lia).
  destruct (append_spec g pre ns h Hwpre)
    as (nc & h1 & E1 & Hn1 & Ha1 & Hwnc & Hlnc & Hel1 & Hgrow1 & Hlen1 & Hframe1 & Hcont1).
  erewrite bind_Ret by exact E1.
  destruct (append_spec g nc post h1 Hwnc)
    as (r & h2 & E2 & Hn2 & Ha2 & Hwr & Hlr & Hel2 & Hgrow2 & Hlen2 & Hframe2 & Hcont2).
  erewrite bind_Ret by exact E2.
  assert (Hp2 : nodes h2 !! p = Some pn) by (by rewrite Hn2, Hn1).
  rewrite (store_Some _ _ _ _ Hp2).
  assert (Hwf1 : wf_slice (narr h1) s0).
  { eapply wf_slice_mono; [exact Hgrow1|intros; by apply Hlen1|done]. }
  (* the old header over the store after the first append *)
  assert (Hs01 : elems h1 s0 = overwritten (s_cap s0) i (elems h ns) (elems h s0)).
  { unfold overwritten. rewrite Hlen0. case_decide as Hfit.
    - assert (Ein := append_inplace pre ns h Hfit).
      rewrite E1 in Ein. injection Ein as _ ->.
      unfold elems. hsimpl. subst pre. cbn [s_arr s_off s_len].
      apply window_write_inside; [done|lia|done].
    - unfold elems. apply window_ext; [done|]. intros q Hq.
      apply Hframe1; [done|]. right. right. right. subst pre. simpl. lia. }
  assert (Hpre : elems h pre = take (i - 1) (elems h s0)).
  { unfold elems, pre. apply window_prefix. lia. }
  assert (Hpost1 : elems h1 post = drop (i + 1) (elems h1 s0)).
  { unfold elems, post. apply window_suffix. lia. }
  exists r, (with_nodes (<[p := set_Child r pn]> (nodes h2)) h2).
  split; [done|]. hsimpl. split; [by rewrite Hn2, Hn1|]. split; [by rewrite Ha2, Ha1|].
  split; [done|]. split.
  - change (elems h2 r = take (i - 1) (elems h s0) ++ elems h ns
              ++ drop (i + 1) (overwritten (s_cap s0) i (elems h ns) (elems h s0))).
    rewrite Hel2, Hel1, Hpost1, Hpre, Hs01. by rewrite <- app_assoc.
  - intros Huniq Hns j Hj.
    assert (Hwf2 : wf_slice (narr h2) s0).
    { eapply wf_slice_mono; [exact Hgrow2|intros; by apply Hlen2|done]. }
    destruct (lookup_lt_is_Some_2 (arr_get (narr h2) (s_arr s0)) (s_off s0 + j)) as [c Hc].
    { destruct Hwf2. lia. }
    exists c. split; [done|]. intros ->.
    assert (Harr1 : s_arr s0 < length (narr h1)) by lia.
    assert (Hbad : forall q, i < q ->
              overwritten (s_cap s0) i (elems h ns) (elems h s0) !! q = Some N -> False).
    { intros q Hq Hov. destruct (overwritten_tail _ _ _ _ _ _ Hq Hov) as [Hx|Hx]; [done|].
      by apply (Huniq q). }
    destruct (Hcont2 _ _ _ Harr1 Hc) as [Hc1|Hc1].
    + apply (Hbad j); [lia|]. rewrite <- Hs01. unfold elems.
      rewrite window_lookup by lia. done.
    + rewrite Hpost1, Hs01 in Hc1.
      apply list_elem_of_lookup_1 in Hc1 as [q Hq].
      rewrite lookup_drop in Hq. apply (Hbad (i + 1 + q)); [lia|done].
Qed.

(** The loop of [Replace] around one run of the [if] body. *)
Lemma Replace_loop ns a nd p pn i h h' :
  nodes h !! a = Some nd ->
  Parent nd = Some p ->
  nodes h !! p = Some pn ->
  wf_slice (narr h) (Child pn) ->
  elems h (Child pn) !! i = Some (Some a) ->
  (forall j, elems h (Child pn) !! j = Some (Some a) -> j = i) ->
  splice g ns (Some p) i h = Ret tt h' ->
  (forall j, i < j < s_len (Child pn) ->
     exists c, arr_get (narr h') (s_arr (Child pn)) !! (s_off (Child pn) + j) = Some c
               /\ c <> Some a) ->
  Replace g ns (Some a) h = Ret tt h'.
Proof.
  intros Ha Hpar Hp Hwf Hi Huniq Es Htail.
  destruct (elems_cell _ _ _ _ Hi) as [Hlt Hcell].
  unfold Replace.
  erewrite bind_Ret by (by apply load_Some).
  rewrite Hpar. erewrite bind_Ret by (by apply load_Some).
  unfold range.
  replace (s_len (Child pn)) with (i + S (s_len (Child pn) - i - 1)) by lia.
  rewrite seq_app, forM__app.
  rewrite (range_skip _ (Some a)).
  - cbn [and_then seq forM_ Nat.add].
    erewrite bind_Ret.
    2:{ erewrite bind_Ret by (by apply index_cell).
        unfold ref_eqb. rewrite bool_decide_eq_true_2 by done. exact Es. }
    apply (range_skip _ (Some a)).
    + intros. by apply Replace_body_skip.
    + intros j Hj. split; [lia|]. apply Htail. lia.
  - intros. by apply Replace_body_skip.
  - intros j Hj. split; [lia|].
    destruct (elems_lookup_lt h (Child pn) j Hwf) as [c Hc]; [lia|].
    exists c. split; [by apply elems_cell in Hc as [_ ?]|].
    intros ->. apply Huniq in Hc. lia.
Qed.

Lemma Replace_full ns a nd p pn i h :
  nodes h !! a = Some nd ->
  Parent nd = Some p ->
  nodes h !! p = Some pn ->
  wf_slice (narr h) (Child pn) ->
  elems h (Child pn) !! i = Some (Some a) ->
  (forall j, elems h (Child pn) !! j = Some (Some a) -> j = i) ->
  Some a ∉ elems h ns ->
  exists r h', Replace g ns (Some a) h = Ret tt h'
    /\ nodes h' = <[p := set_Child r pn]> (nodes h)
    /\ aarr h' = aarr h
    /\ wf_slice (narr h') r
    /\ elems h' r = take (i - 1) (elems h (Child pn)) ++ elems h ns
         ++ drop (i + 1) (overwritten (s_cap (Child pn)) i (elems h ns) (elems h (Child pn))).
Proof.
  intros Ha Hpar Hp Hwf Hi Huniq Hns.
  destruct (elems_cell _ _ _ _ Hi) as [Hlt Hcell].
  destruct (splice_full ns p pn i h (Some a) Hp Hwf Hlt)
    as (r & h' & Es & Hn' & Ha' & Hwr & Hel & Htail).
  exists r, h'. split; [|done].
  eapply Replace_loop; try done.
  apply Htail; [|done].
  intros j Hj E. apply Huniq in E. lia.
Qed.

End ReplaceFacts.

Lemma overwritten_length cap i xs old : length (overwritten cap i xs old) = length old.
Proof.
  unfold overwritten. case_decide; [|done].
  rewrite length_take, !length_app, length_take, length_drop. lia.
Qed.

(** X8. [Replace(n1..nk)] on a node that occurs in its parent's child
    list at index [i] only and is not one of the replacements: the new
    child list is the first [max(i-1, 0)] old children, then [n1..nk],
    then what the cells from [i+1] on hold after [n1..nk] have been
    appended to the first part, which, when the capacity lets [append]
    write in place, are replacements wherever [n1..nk] reach past index
    [i].  The list has [max(i-1, 0) + k + (len - (i+1))] elements
    whatever was overwritten, and no node object but the parent's is
    written. *)
Theorem Replace_result_over_shared_array g ns a nd p pn i h :
  nodes h !! a = Some nd ->
  Parent nd = Some p ->
  nodes h !! p = Some pn ->
  wf_slice (narr h) (Child pn) ->
  children h p !! i = Some (Some a) ->
  (forall j, children h p !! j = Some (Some a) -> j = i) ->
  Some a ∉ elems h ns ->
  exists h', Replace g ns (Some a) h = Ret tt h'
    /\ children h' p
       = take (i - 1) (children h p) ++ elems h ns
         ++ drop (i + 1) (overwritten (s_cap (Child pn)) i (elems h ns) (children h p))
    /\ length (children h' p)
       = (i - 1) + length (elems h ns) + (length (children h p) - (i + 1))
    /\ (forall b, b <> p -> nodes h' !! b = nodes h !! b)
    /\ aarr h' = aarr h.
Proof.
  intros Ha Hpar Hp Hwf. rewrite (children_Some _ _ _ Hp). intros Hi Huniq Hns.
  destruct (Replace_full g ns a nd p pn i h Ha Hpar Hp Hwf Hi Huniq Hns)
    as (r & h' & E & Hn & Haa & _ & Hel).
  assert (Hch : children h' p = elems h' r).
  { unfold children. rewrite Hn.
    by rewrite list_lookup_insert_eq by (by eapply lookup_lt_Some). }
  exists h'. split; [done|]. rewrite Hch, Hel. split; [done|]. split; [|split; [|done]].
  - destruct (elems_cell _ _ _ _ Hi) as [Hlt _].
    pose proof (window_length _ _ Hwf) as Hlen. fold (elems h (Child pn)) in Hlen.
    rewrite !length_app, length_take, length_drop, overwritten_length. lia.
  - intros b Hb. rewrite Hn. by rewrite list_lookup_insert_ne.
Qed.

Lemma Replace_result_over_shared_array_witness :
  exists h', Replace exact_fit args3 (Some 2) list_heap = Ret tt h'
    /\ children h' 0 = [] ++ [Some 4; Some 5; Some 6] ++ [Some 6]
    /\ length (children h' 0) = (1 - 1) + 3 + (3 - (1 + 1))
    /\ (forall b, b <> 0 -> nodes h' !! b = nodes list_heap !! b)
    /\ aarr h' = aarr list_heap.
Proof.
  apply (Replace_result_over_shared_array exact_fit args3 2
           (element "li" (Some 0) emptySlice (mkSlice 0 0 1 1)) 0
           (element "ul" None (mkSlice 0 0 3 3) emptySlice) 1 list_heap).
  - reflexivity.
  - reflexivity.
  - reflexivity.
  - split; vm_compute; lia.
  - reflexivity.
  - intros [|[|[|j]]] H; vm_compute in H; try discriminate H; reflexivity.
  - vm_compute. intros H. repeat (apply elem_of_cons in H as [H|H]; [discriminate H|]).
    by apply elem_of_nil in H.
Defined.

(** X9. After [Replace] the node is no longer among its parent's
    children but still names the parent in its [Parent] field, and
    every further [Replace] applied to it, with whatever replacements,
    returns and leaves the store as it is. *)
Theorem Replace_detaches_once g ns a nd p pn i h :
  nodes h !! a = Some nd ->
  Parent nd = Some p ->
  nodes h !! p = Some pn ->
  wf_slice (narr h) (Child pn) ->
  children h p !! i = Some (Some a) ->
  (forall j, children h p !! j = Some (Some a) -> j = i) ->
  Some a ∉ elems h ns ->
  exists h', Replace g ns (Some a) h = Ret tt h'
    /\ (Some a ∉ children h' p)
    /\ (Parent <$> nodes h' !! a) = Some (Some p)
    /\ forall g' ns', Replace g' ns' (Some a) h' = Ret tt h'.
Proof.
  intros Ha Hpar Hp Hwf. rewrite (children_Some _ _ _ Hp). intros Hi Huniq Hns.
  destruct (Replace_full g ns a nd p pn i h Ha Hpar Hp Hwf Hi Huniq Hns)
    as (r & h' & E & Hn & _ & Hwr & Hel).
  assert (Hlp : p < length (nodes h)) by (by eapply lookup_lt_Some).
  assert (Hp' : nodes h' !! p = Some (set_Child r pn))
    by (rewrite Hn; by apply list_lookup_insert_eq).
  assert (Hch : children h' p = elems h' r) by (by rewrite (children_Some _ _ _ Hp')).
  assert (Hout : Some a ∉ elems h' r).
  { rewrite Hel. intros Hin.
    apply elem_of_app in Hin as [Hin|Hin]; [|apply elem_of_app in Hin as [Hin|Hin]].
    - apply list_elem_of_lookup_1 in Hin as [q Hq].
      apply lookup_take_Some in Hq as [Hq Hlt]. apply Huniq in Hq. lia.
    - done.
    - apply list_elem_of_lookup_1 in Hin as [q Hq]. rewrite lookup_drop in Hq.
      assert (Hiq : i < i + 1 + q) by lia.
      destruct (overwritten_tail _ _ _ _ _ _ Hiq Hq) as [Hx|Hx]; [done|].
      apply Huniq in Hx. lia. }
  assert (Ha' : exists nd', nodes h' !! a = Some nd' /\ Parent nd' = Some p).
  { rewrite Hn. destruct (decide (a = p)) as [->|Hne].
    - rewrite list_lookup_insert_eq by done. eexists. split; [done|].
      rewrite Hp in Ha. injection Ha as ->. done.
    - rewrite list_lookup_insert_ne by done. by exists nd. }
  destruct Ha' as (nd' & Hnd' & Hpar').
  exists h'. split; [done|]. split; [by rewrite Hch|]. split; [by rewrite Hnd', <- Hpar'|].
  intros g' ns'. by eapply (Replace_no_match g' ns' a nd' p).
Qed.

Lemma Replace_detaches_once_witness :
  exists h', Replace exact_fit args2 (Some 2) list_heap = Ret tt h'
    /\ (Some 2 ∉ children h' 0)
    /\ (Parent <$> nodes h' !! 2) = Some (Some 0)
    /\ forall g' ns', Replace g' ns' (Some 2) h' = Ret tt h'.
Proof.
  apply (Replace_detaches_once exact_fit args2 2
           (element "li" (Some 0) emptySlice (mkSlice 0 0 1 1)) 0
           (element "ul" None (mkSlice 0 0 3 3) emptySlice) 1 list_heap).
  - reflexivity.
  - reflexivity.
  - reflexivity.
  - split; vm_compute; lia.
  - reflexivity.
  - intros [|[|[|j]]] H; vm_compute in H; try discriminate H; reflexivity.
  - vm_compute. intros H. repeat (apply elem_of_cons in H as [H|H]; [discriminate H|]).
    by apply elem_of_nil in H.
Defined.

(** X10. [Replace()] with no replacement, and [CopyAnd()] with no
    function, which is the same operation, remove from the parent's
    child list the node and, unless it is the first child, the sibling
    before it. *)
Theorem Replace_CopyAnd_of_nothing g a nd p pn i h :
  nodes h !! a = Some nd ->
  Parent nd = Some p ->
  nodes h !! p = Some pn ->
  wf_slice (narr h) (Child pn) ->
  children h p !! i = Some (Some a) ->
  (forall j, children h p !! j = Some (Some a) -> j = i) ->
  exists h', Replace g emptySlice (Some a) h = Ret tt h'
    /\ CopyAnd g [] (Some a) h = Ret tt h'
    /\ children h' p = take (i - 1) (children h p) ++ drop (i + 1) (children h p).
Proof.
  intros Ha Hpar Hp Hwf. rewrite (children_Some _ _ _ Hp). intros Hi Huniq.
  destruct (Replace_spec g emptySlice a nd p pn i h Ha Hpar Hp Hwf Hi Huniq)
    as (r & h' & E & Hn & _ & Hel).
  { right. left. simpl. lia. }
  exists h'. split; [done|]. split; [exact E|].
  unfold children. rewrite Hn.
  rewrite list_lookup_insert_eq by (by eapply lookup_lt_Some). exact Hel.
Qed.

Lemma Replace_CopyAnd_of_nothing_witness :
  exists h', Replace exact_fit emptySlice (Some 2) list_heap = Ret tt h'
    /\ CopyAnd exact_fit [] (Some 2) list_heap = Ret tt h'
    /\ children h' 0 = [] ++ [Some 3].
Proof.
  apply (Replace_CopyAnd_of_nothing exact_fit 2
           (element "li" (Some 0) emptySlice (mkSlice 0 0 1 1)) 0
           (element "ul" None (mkSlice 0 0 3 3) emptySlice) 1 list_heap).
  - reflexivity.
  - reflexivity.
  - reflexivity.
  - split; vm_compute; lia.
  - reflexivity.
  - intros [|[|[|j]]] H; vm_compute in H; try discriminate H; reflexivity.
Defined.

(** ** DoAll and Apply as sequencing *)

Lemma in_order_app {A} (step : A -> M unit) xs ys h :
  in_order step (xs ++ ys) h = and_then (in_order step xs h) (in_order step ys).
Proof.
  rewrite <- !forM__in_order, forM__app.
  destruct (forM_ xs step h) as [[] h1|k h1]; simpl; [|done].
  apply forM__in_order.
Qed.

(** X11. [DoAll] composes like concatenation: [DoAll] of no function
    does nothing, [DoAll] of one function is that function, [DoAll] of
    [fs] followed by [gs] is [DoAll(fs)] and then, unless it panicked,
    [DoAll(gs)] on the store it left, and nesting [DoAll]s is the same
    as flattening them. *)
Theorem DoAll_concatenates fs gs (f : TransformFunc) n h :
  DoAll [] n h = Ret tt h
  /\ DoAll [f] n h = f n h
  /\ DoAll (fs ++ gs) n h = and_then (DoAll fs n h) (DoAll gs n)
  /\ DoAll [DoAll fs; DoAll gs] n h = DoAll (fs ++ gs) n h
  /\ (forall k h', DoAll fs n h = Panic k h' -> DoAll (fs ++ gs) n h = Panic k h').
Proof.
  assert (Happ : DoAll (fs ++ gs) n h = and_then (DoAll fs n h) (DoAll gs n)).
  { rewrite !DoAll_in_order, in_order_app.
    destruct (in_order _ fs h) as [[] h1|k h1]; simpl; [|done].
    by rewrite DoAll_in_order. }
  split; [done|]. split; [|split; [exact Happ|split]].
  - rewrite DoAll_in_order, in_order_cons.
    by destruct (f n h) as [[] h1|k h1].
  - rewrite Happ, DoAll_in_order, in_order_cons.
    destruct (DoAll fs n h) as [[] h1|k h1]; simpl; [|done].
    rewrite in_order_cons.
    by destruct (DoAll gs n h1) as [[] h2|k h2].
  - intros k h' E. by rewrite Happ, E.
Qed.

Lemma Apply_in_order Query t f sel h :
  Apply Query t f sel h
  = match in_order f (Query h (doc t) sel) h with
    | Ret _ h' => Ret t h'
    | Panic k h' => Panic k h'
    end.
Proof.
  unfold Apply. erewrite bind_Ret by reflexivity.
  rewrite <- forM__in_order. unfold bind, ret.
  by destruct (forM_ _ _ h) as [[] h1|k h1].
Qed.

(** X12. [Apply] does not roll back: when the operation panics on a
    matched node, the call panics with the store as the operation left
    it, the effects on the matches before that node included, and the
    matches after it are not visited. *)
Theorem Apply_stops_at_first_panic Query t f sel h xs n ys h1 k h2 :
  Query h (doc t) sel = xs ++ n :: ys ->
  in_order f xs h = Ret tt h1 ->
  f n h1 = Panic k h2 ->
  Apply Query t f sel h = Panic k h2.
Proof.
  intros Hq Hxs Hn.
  rewrite Apply_in_order, Hq, in_order_app, Hxs. simpl.
  by rewrite in_order_cons, Hn.
Qed.

Lemma Apply_stops_at_first_panic_witness :
  exists h2,
    Apply tagQuery (mkTransformer page) (Replace exact_fit emptySlice)
      ["li"%string; "p"%string] mixed_heap = Panic NilDeref h2
    /\ children mixed_heap 0 = [Some 1; Some 4; Some 3]
    /\ children h2 0 = [Some 4; Some 3].
Proof.
  eexists. split.
  - eapply (Apply_stops_at_first_panic tagQuery (mkTransformer page)
              (Replace exact_fit emptySlice) ["li"%string; "p"%string] mixed_heap
              [Some 1] (Some 4) [Some 3]).
    + reflexivity.
    + vm_compute. reflexivity.
    + vm_compute. reflexivity.
  - split; reflexivity.
Defined.

(** X13. A chained [Apply] queries the tree again: the second call's
    matches are those of the query on the store the first call left,
    and both calls return the [Transformer] they were called on, whose
    document [Doc] is the same before and after. *)
Theorem Apply_chain_queries_again Query t f s1 g s2 h t1 h1 :
  Apply Query t f s1 h = Ret t1 h1 ->
  t1 = t
  /\ Doc t1 = Doc t
  /\ (t' <- Apply Query t f s1 ;; Apply Query t' g s2) h
     = match in_order g (Query h1 (doc t) s2) h1 with
       | Ret _ h2 => Ret t h2
       | Panic k h2 => Panic k h2
       end.
Proof.
  intros E.
  assert (Ht : t1 = t).
  { rewrite Apply_in_order in E.
    destruct (in_order _ _ h) as [[] hx|k hx]; [|discriminate E]. by injection E as <- _. }
  subst t1. split; [done|]. split; [done|].
  erewrite bind_Ret by exact E.
  apply Apply_in_order.
Qed.

Lemma Apply_chain_queries_again_witness :
  exists h1 h2,
    Apply tagQuery (mkTransformer page) (AppendChildren (mkSlice 1 0 1 1)) ["div"%string] page_heap
    = Ret (mkTransformer page) h1
    /\ tagQuery page_heap page ["b"%string] = [Some 2]
    /\ tagQuery h1 page ["b"%string] = [Some 2; Some 2]
    /\ (t' <- Apply tagQuery (mkTransformer page) (AppendChildren (mkSlice 1 0 1 1)) ["div"%string] ;;
        Apply tagQuery t' (ModifyAttrib "id" "x") ["b"%string]) page_heap
       = Ret (mkTransformer page) h2.
Proof.
  destruct (Apply tagQuery (mkTransformer page) (AppendChildren (mkSlice 1 0 1 1))
              ["div"%string] page_heap) as [t1 h1|k h1] eqn:E; [|discriminate E].
  destruct (Apply_chain_queries_again tagQuery (mkTransformer page)
              (AppendChildren (mkSlice 1 0 1 1)) ["div"%string]
              (ModifyAttrib "id" "x") ["b"%string] page_heap t1 h1 E) as (Ht & _ & Hc).
  subst t1. vm_compute in E. injection E as <-.
  eexists _, _. split; [reflexivity|]. split; [reflexivity|]. split; [reflexivity|].
  rewrite Hc. vm_compute. reflexivity.
Defined.

(** ** Nil nodes and missing parents *)

(** X14. Every primitive applied to a nil node panics on the nil
    dereference before it has written anything, and so does [Replace]
    applied to a node whose [Parent] is nil, whatever the replacements. *)
Theorem nil_node_or_parent_panics g cs key val h a nd :
  nodes h !! a = Some nd ->
  Parent nd = None ->
  Replace g cs (Some a) h = Panic NilDeref h
  /\ Replace g cs None h = Panic NilDeref h
  /\ AppendChildren cs None h = Panic NilDeref h
  /\ PrependChildren cs None h = Panic NilDeref h
  /\ RemoveChildren None h = Panic NilDeref h
  /\ ReplaceChildren cs None h = Panic NilDeref h
  /\ ModifyAttrib key val None h = Panic NilDeref h.
Proof.
  intros Ha Hpar. split; [|by repeat split].
  unfold Replace. erewrite bind_Ret by (by apply load_Some).
  by rewrite Hpar.
Qed.

Lemma nil_node_or_parent_panics_witness :
  Replace exact_fit args2 (Some 0) list_heap = Panic NilDeref list_heap
  /\ Replace exact_fit args2 None list_heap = Panic NilDeref list_heap
  /\ AppendChildren args2 None list_heap = Panic NilDeref list_heap
  /\ PrependChildren args2 None list_heap = Panic NilDeref list_heap
  /\ RemoveChildren None list_heap = Panic NilDeref list_heap
  /\ ReplaceChildren args2 None list_heap = Panic NilDeref list_heap
  /\ ModifyAttrib "id" "z" None list_heap = Panic NilDeref list_heap.
Proof.
  apply (nil_node_or_parent_panics exact_fit args2 "id" "z" list_heap 0
           (element "ul" None (mkSlice 0 0 3 3) emptySlice)).
  - reflexivity.
  - reflexivity.
Defined.
